(** * ROOTGeomAnalyzer: path lengths, vertex sampling and maximum path length

    A shallow embedding of [src/Geo/ROOTGeomAnalyzer.cxx].

    - C++ [double]/[float] values are the type [fp]: a rational, or [NaN] for
      the result of a division by zero and of every operation on it.
      Rounding is not modelled: finite arithmetic is exact.
    - The ROOT geometry manager ([TGeoManager]) is an interface with an
      explicit navigation state, threaded through every call.
    - A call returns [Ret v], dereferences a null pointer ([Fault]) or has not
      finished within the given number of loop iterations ([OutOfFuel]).
    - The arguments of a [LOG] line are evaluated, so [current->GetName()],
      [med->GetName()] and [mat->GetName()] dereference their pointer before
      the null test that follows them. *)

From Stdlib Require Import ZArith QArith Qround List String Bool Lia Lqa.
Import ListNotations.
Local Open Scope Z_scope.

(** ** Numbers *)

Inductive fp : Type :=
| Fin (q : Q)
| NaN.

Definition fp_lift2 (f : Q -> Q -> Q) (a b : fp) : fp :=
  match a, b with
  | Fin x, Fin y => Fin (Qred (f x y))
  | _, _ => NaN
  end.

Definition fadd : fp -> fp -> fp := fp_lift2 Qplus.
Definition fsub : fp -> fp -> fp := fp_lift2 Qminus.
Definition fmul : fp -> fp -> fp := fp_lift2 Qmult.

Definition fneg (a : fp) : fp :=
  match a with
  | Fin x => Fin (Qred (- x))
  | NaN => NaN
  end.

(** Division: a zero divisor gives a non-finite value. *)
Definition fdiv (a b : fp) : fp :=
  match a, b with
  | Fin x, Fin y => if Qeq_bool y 0 then NaN else Fin (Qred (x / y))
  | _, _ => NaN
  end.

(** Comparisons are false on [NaN]. *)
Definition feqb (a b : fp) : bool :=
  match a, b with
  | Fin x, Fin y => Qeq_bool x y
  | _, _ => false
  end.

Definition fleb (a b : fp) : bool :=
  match a, b with
  | Fin x, Fin y => Qle_bool x y
  | _, _ => false
  end.

Definition fltb (a b : fp) : bool :=
  match a, b with
  | Fin x, Fin y => negb (Qle_bool y x)
  | _, _ => false
  end.

(** Square root, rounded down to a multiple of [1 / (den * 2^52)]; exact on
    squares of such multiples. *)
Definition Qsqrt (q : Q) : Q :=
  Qred (Z.sqrt (Qnum q * Zpos (Qden q) * 4 ^ 52) # (Qden q * 2 ^ 52)).

Definition fsqrt (a : fp) : fp :=
  match a with
  | Fin x => if Qle_bool 0 x then Fin (Qsqrt x) else NaN
  | NaN => NaN
  end.

(** [(int) d] for a finite [d]: truncation toward zero. *)
Definition trunc (q : Q) : Z := Z.quot (Qnum q) (Zpos (Qden q)).

Definition fz (z : Z) : fp := Fin (inject_Z z).

(** ** Outcomes *)

Inductive outcome (A : Type) : Type :=
| Ret (a : A)
| Fault
| OutOfFuel.

Arguments Ret {A} a.
Arguments Fault {A}.
Arguments OutOfFuel {A}.

Definition bind {A B : Type} (c : outcome A) (k : A -> outcome B) : outcome B :=
  match c with
  | Ret a => k a
  | Fault => Fault
  | OutOfFuel => OutOfFuel
  end.

Notation "x <- c ;; k" := (bind c (fun x => k))
  (at level 61, c at next level, right associativity).
Notation "' pat <- c ;; k" := (bind c (fun x => match x with pat => k end))
  (at level 61, pat pattern, c at next level, right associativity).

(** ** ROOT data as the analyzer reads it *)

Record TGeoElement : Type := mkElement {
  ele_A : Q;        (* TGeoElement::A(), a double *)
  ele_Z : Z         (* TGeoElement::Z(), an int *)
}.

(** [mixture = Some es] is a [TGeoMixture] with elements [es];
    [GetA], [GetZ] are then its effective values. *)
Record TGeoMaterial : Type := mkMaterial {
  GetA : Q;
  GetZ : Q;
  GetDensity : Q;
  mixture : option (list TGeoElement)
}.

Definition IsMixture (mat : TGeoMaterial) : bool :=
  match mixture mat with Some _ => true | None => false end.

Record TGeoMedium : Type := mkMedium {
  GetMaterial : option TGeoMaterial
}.

Record TGeoBBox : Type := mkBBox {
  GetDX : fp; GetDY : fp; GetDZ : fp;
  GetOrigin : fp * fp * fp
}.

Record TGeoVolume : Type := mkVolume {
  GetName : string;
  GetMedium : option TGeoMedium;
  GetShape : TGeoBBox
}.

Record TLorentzVector : Type := mkLorentz {
  lv_x : fp; lv_y : fp; lv_z : fp; lv_t : fp
}.

Definition Px (p : TLorentzVector) : fp := lv_x p.
Definition Py (p : TLorentzVector) : fp := lv_y p.
Definition Pz (p : TLorentzVector) : fp := lv_z p.

(** [TLorentzVector::P()]: the magnitude of the spatial part. *)
Definition P (p : TLorentzVector) : fp :=
  fsqrt (fadd (fadd (fmul (lv_x p) (lv_x p)) (fmul (lv_y p) (lv_y p)))
              (fmul (lv_z p) (lv_z p))).

Definition TVector3 : Type := (fp * fp * fp)%type.

(** The geometry manager: navigation state [G] and the calls the analyzer
    makes on it. *)
Class TGeoManager (G : Type) : Type := {
  SetCurrentDirection : fp -> fp -> fp -> G -> G;
  SetCurrentPoint : fp * fp * fp -> G -> G;
  FindNode : fp -> fp -> fp -> G -> G;
  GetCurrentVolume : G -> option TGeoVolume;
  IsOutside : G -> bool;
  FindNextBoundary : G -> G;
  GetStep : G -> fp;
  IsEntering : G -> bool;
  Step : G -> G;
  GetListOfVolumes : G -> list TGeoVolume
}.

(** ** PDG code list and path-length list *)

(** Modelled from the spec: [PDGCodeList] (PDG/PDGCodeList.h is not among the
    sources) is the registered isotope set; [push_back] appends a code and
    [ExistsInPDGCodeList] is membership. *)
Definition PDGCodeList : Type := list Z.

Definition push_back (c : Z) (l : PDGCodeList) : PDGCodeList := l ++ [c].

Definition ExistsInPDGCodeList (c : Z) (l : PDGCodeList) : bool :=
  existsb (Z.eqb c) l.

(** Modelled from the spec: [PathLengthList] (Geo/PathLengthList.h is not
    among the sources) maps each registered isotope to an accumulated
    scalar, is keyed only by registered isotopes, [SetAllToZero] zeroes
    every entry and [AddPathLength] adds to the entry of the isotope. *)
Definition PathLengthList : Type := list (Z * fp).

Definition NewPathLengthList (codes : PDGCodeList) : PathLengthList :=
  map (fun c => (c, fz 0)) (nodup Z.eq_dec codes).

Definition SetAllToZero (l : PathLengthList) : PathLengthList :=
  map (fun e => (fst e, fz 0)) l.

Definition AddPathLength (c : Z) (pl : fp) (l : PathLengthList) : PathLengthList :=
  map (fun e => if Z.eqb (fst e) c then (fst e, fadd (snd e) pl) else e) l.

Fixpoint PathLength (c : Z) (l : PathLengthList) : fp :=
  match l with
  | [] => fz 0
  | (k, v) :: l' => if Z.eqb k c then v else PathLength c l'
  end.

(** ** The analyzer object *)

Record ROOTGeomAnalyzer (G : Type) : Type := mkAnalyzer {
  fGeometry : option G;
  fCurrPathLengthList : PathLengthList;
  fCurrPDGCodeList : PDGCodeList;
  fCurrVertex : TVector3;
  fMaterial : Z
}.

Arguments mkAnalyzer {G}.
Arguments fGeometry {G}.
Arguments fCurrPathLengthList {G}.
Arguments fCurrPDGCodeList {G}.
Arguments fCurrVertex {G}.
Arguments fMaterial {G}.

(** The local cursor [xx], [yy], [zz]. *)
Record cursor : Type := mkCursor { xx : fp; yy : fp; zz : fp }.

(** [xx += step * d0; yy += step * d1; zz += step * d2]. *)
Definition move (step d0 d1 d2 : fp) (c : cursor) : cursor :=
  mkCursor (fadd (xx c) (fmul step d0))
           (fadd (yy c) (fmul step d1))
           (fadd (zz c) (fmul step d2)).

(** [xx += step * p.Px()/p.P()] and likewise for [yy], [zz];
    [a * b / c] is [(a * b) / c]. *)
Definition advance (p : TLorentzVector) (step : fp) (c : cursor) : cursor :=
  mkCursor (fadd (xx c) (fdiv (fmul step (Px p)) (P p)))
           (fadd (yy c) (fdiv (fmul step (Py p)) (P p)))
           (fadd (zz c) (fdiv (fmul step (Pz p)) (P p))).

(** [xx -= StepIncrease * p.Px()/p.P()] and likewise. *)
Definition retreat (p : TLorentzVector) (step : fp) (c : cursor) : cursor :=
  mkCursor (fsub (xx c) (fdiv (fmul step (Px p)) (P p)))
           (fsub (yy c) (fdiv (fmul step (Py p)) (P p)))
           (fsub (zz c) (fdiv (fmul step (Pz p)) (P p))).

(** The state of one traversal loop: the manager, what the loop
    accumulates, the cursor and the two loop flags. *)
Record walk (G L : Type) : Type := mkWalk {
  w_geo : G;
  w_acc : L;
  w_cur : cursor;
  FlagNotInYet : bool;
  condition : bool
}.

Arguments mkWalk {G L}.
Arguments w_geo {G L}.
Arguments w_acc {G L}.
Arguments w_cur {G L}.
Arguments FlagNotInYet {G L}.
Arguments condition {G L}.

Section Navigation.
Context {G : Type} {M : TGeoManager G}.

(** [while(!fGeometry->IsEntering()) { fGeometry->Step();
    step=fGeometry->GetStep(); }] *)
Fixpoint until_entering (fuel : nat) (g : G) (step : fp) : outcome (G * fp) :=
  if IsEntering g then Ret (g, step)
  else match fuel with
       | O => OutOfFuel
       | S f => let g' := Step g in until_entering f g' (GetStep g')
       end.

(** [fGeometry->FindNextBoundary(); step=fGeometry->GetStep();] followed
    by the loop above. *)
Definition next_boundary (fuel : nat) (g : G) : outcome (G * fp) :=
  let g1 := FindNextBoundary g in
  until_entering fuel g1 (GetStep g1).

(** [xyz = (xx,yy,zz); SetCurrentPoint(xyz); FindNode(xyz[0],xyz[1],xyz[2])]. *)
Definition locate (c : cursor) (g : G) : G :=
  FindNode (xx c) (yy c) (zz c) (SetCurrentPoint (xx c, yy c, zz c) g).
End Navigation.

(** ** ComputePathLengths: the traversal loop

    The loop is written over what it records: [L] with [add], which in
    [ComputePathLengths] are the path-length list and [AddPathLength]. *)
Section PathLengthMarch.
Context {G : Type} {M : TGeoManager G}.
Variable IonPdgCode : Z -> Z -> Z.
Variable L : Type.
Variable add : Z -> fp -> L -> L.

(** The [for] loop over the elements of a mixture. *)
Fixpoint element_loop (sfuel : nat) (p : TLorentzVector)
         (es : list TGeoElement) (g : G) (l : L) (c : cursor)
  : outcome (G * L * cursor) :=
  match es with
  | [] => Ret (g, l, c)
  | ele :: es' =>
      let A := trunc (ele_A ele) in
      let Zn := ele_Z ele in
      let ion_pdgc := IonPdgCode A Zn in
      '(g', step) <- next_boundary sfuel g ;;
      element_loop sfuel p es' g' (add ion_pdgc step l) (advance p step c)
  end.

(** The last [if(condition)] block: a mixture or a single isotope. *)
Definition record_material (sfuel : nat) (p : TLorentzVector)
           (mat : TGeoMaterial) (g : G) (l : L) (c : cursor)
  : outcome (G * L * cursor) :=
  match mixture mat with
  | Some es => element_loop sfuel p es g l c
  | None =>
      let A := trunc (GetA mat) in
      let Zn := trunc (GetZ mat) in
      let ion_pdgc := IonPdgCode A Zn in
      '(g', step) <- next_boundary sfuel g ;;
      Ret (g', add ion_pdgc step l, advance p step c)
  end.

(** One pass through the body of the [while]; the boolean is [true] when
    the body left through [break]. *)
Definition CPL_body (sfuel : nat) (p : TLorentzVector) (w : walk G L)
  : outcome (bool * walk G L) :=
  let g := locate (w_cur w) (w_geo w) in
  match GetCurrentVolume g with
  | None => Fault                               (* LOG: current->GetName() *)
  | Some current =>
      if IsOutside g then
        if FlagNotInYet w then
          Ret (true, mkWalk g (w_acc w) (w_cur w) (FlagNotInYet w) false)
        else
          '(g', step) <- next_boundary sfuel g ;;
          Ret (false, mkWalk g' (w_acc w) (advance p step (w_cur w))
                             (FlagNotInYet w) false)
      else
        match GetMedium current with
        | None => Fault                         (* LOG: med->GetName() *)
        | Some med =>
            match GetMaterial med with
            | None => Fault                     (* LOG: mat->GetName() *)
            | Some mat =>
                '(g', l', c') <- record_material sfuel p mat g (w_acc w) (w_cur w) ;;
                Ret (false, mkWalk g' l' c' true true)
            end
        end
  end.

(** [while((!FlagNotInYet) || condition)]. *)
Fixpoint CPL_loop (sfuel fuel : nat) (p : TLorentzVector) (w : walk G L)
  : outcome (walk G L) :=
  if negb (FlagNotInYet w) || condition w then
    match fuel with
    | O => OutOfFuel
    | S f =>
        '(brk, w') <- CPL_body sfuel p w ;;
        if brk then Ret w' else CPL_loop sfuel f p w'
    end
  else Ret w.

(** The loop started as [ComputePathLengths] starts it. *)
Definition CPL_march (fuel : nat) (g : G) (l : L) (x p : TLorentzVector)
  : outcome (walk G L) :=
  let g0 := SetCurrentDirection (fdiv (Px p) (P p)) (fdiv (Py p) (P p))
                                (fdiv (Pz p) (P p)) g in
  CPL_loop fuel fuel p (mkWalk g0 l (mkCursor (lv_x x) (lv_y x) (lv_z x)) false true).
End PathLengthMarch.

(** What a traversal records when each [AddPathLength(ion_pdgc,step)] is
    logged instead of applied. *)
Definition segment_log : Type := list (Z * fp).
Definition log_segment (c : Z) (step : fp) (t : segment_log) : segment_log :=
  t ++ [(c, step)].

Section Analyzer.
Context {G : Type} {M : TGeoManager G}.
Variable IonPdgCode : Z -> Z -> Z.

(** [ROOTGeomAnalyzer::BuildListOfTargetNuclei], the loop over one
    volume's material. *)
Definition material_codes (mat : TGeoMaterial) : list Z :=
  match mixture mat with
  | Some es => map (fun ele => IonPdgCode (trunc (ele_A ele)) (ele_Z ele)) es
  | None => [IonPdgCode (trunc (GetA mat)) (trunc (GetZ mat))]
  end.

Fixpoint volume_loop (vols : list TGeoVolume) (codes : PDGCodeList)
  : outcome PDGCodeList :=
  match vols with
  | [] => Ret codes
  | TV :: vols' =>
      match GetMedium TV with
      | None => Fault                              (* med->GetMaterial() *)
      | Some med =>
          match GetMaterial med with
          | None => Fault                          (* mat->IsMixture() *)
          | Some mat =>
              volume_loop vols'
                (fold_left (fun l c => push_back c l) (material_codes mat) codes)
          end
      end
  end.

Definition BuildListOfTargetNuclei (geo : option G) : outcome PDGCodeList :=
  match geo with
  | None => Ret []
  | Some g => volume_loop (GetListOfVolumes g) []
  end.

(** [ROOTGeomAnalyzer::Initialize]; [imported] is what
    [TGeoManager::Import(filename)] gave and [m0] the value the
    uninitialised [fMaterial] happens to hold. *)
Definition Initialize (imported : option G) (m0 : Z)
  : outcome (ROOTGeomAnalyzer G) :=
  pdglist <- BuildListOfTargetNuclei imported ;;
  Ret (mkAnalyzer imported (NewPathLengthList pdglist) pdglist
                  (fz 0, fz 0, fz 0) m0).

Definition ListOfTargetNuclei (a : ROOTGeomAnalyzer G) : PDGCodeList :=
  fCurrPDGCodeList a.

(** [ROOTGeomAnalyzer::ComputePathLengths]. *)
Definition ComputePathLengths (fuel : nat) (a : ROOTGeomAnalyzer G)
           (x p : TLorentzVector)
  : outcome (ROOTGeomAnalyzer G * PathLengthList) :=
  let l0 := SetAllToZero (fCurrPathLengthList a) in
  match fGeometry a with
  | None => Fault                       (* fGeometry->SetCurrentDirection *)
  | Some g =>
      w <- CPL_march IonPdgCode PathLengthList AddPathLength fuel g l0 x p ;;
      Ret (mkAnalyzer (Some (w_geo w)) (w_acc w) (fCurrPDGCodeList a)
                      (fCurrVertex a) (fMaterial a),
           w_acc w)
  end.
End Analyzer.

(** ** The random stream *)

(** [RandomGen::Instance()->Random3()]: a generator state and [Rndm()]. *)
Class TRandom (R : Type) : Type := {
  Rndm : R -> fp * R
}.

(** ** GenerateVertex *)

Section VertexScan.
Context {G : Type} {M : TGeoManager G}.
Variable IonPdgCode : Z -> Z -> Z.
Variable L : Type.
(** What the first loop does with a segment: code, step, density. *)
Variable visit : Z -> fp -> Q -> L -> L.

(** One pass through the body of the first [while] of [GenerateVertex]. *)
Definition GV_scan_body (sfuel : nat) (p : TLorentzVector) (w : walk G L)
  : outcome (bool * walk G L) :=
  let g := locate (w_cur w) (w_geo w) in
  match GetCurrentVolume g with
  | None => Fault                               (* LOG: current->GetName() *)
  | Some current =>
      if IsOutside g then
        if FlagNotInYet w then
          Ret (true, mkWalk g (w_acc w) (w_cur w) (FlagNotInYet w) false)
        else
          '(g', step) <- next_boundary sfuel g ;;
          Ret (false, mkWalk g' (w_acc w) (advance p step (w_cur w))
                             (FlagNotInYet w) false)
      else
        match GetMedium current with
        | None => Fault                         (* LOG: med->GetName() *)
        | Some med =>
            match GetMaterial med with
            | None => Fault                     (* LOG: mat->GetName() *)
            | Some mat =>
                let A := trunc (GetA mat) in
                let Zn := trunc (GetZ mat) in
                let density := GetDensity mat in
                let ion_pdgc := IonPdgCode A Zn in
                '(g', step) <- next_boundary sfuel g ;;
                Ret (false, mkWalk g' (visit ion_pdgc step density (w_acc w))
                                   (advance p step (w_cur w)) true true)
            end
        end
  end.

Fixpoint GV_scan_loop (sfuel fuel : nat) (p : TLorentzVector) (w : walk G L)
  : outcome (walk G L) :=
  if negb (FlagNotInYet w) || condition w then
    match fuel with
    | O => OutOfFuel
    | S f =>
        '(brk, w') <- GV_scan_body sfuel p w ;;
        if brk then Ret w' else GV_scan_loop sfuel f p w'
    end
  else Ret w.

Definition GV_scan (fuel : nat) (g : G) (l : L) (x p : TLorentzVector)
  : outcome (walk G L) :=
  let g0 := SetCurrentDirection (fdiv (Px p) (P p)) (fdiv (Py p) (P p))
                                (fdiv (Pz p) (P p)) g in
  GV_scan_loop fuel fuel p
    (mkWalk g0 l (mkCursor (lv_x x) (lv_y x) (lv_z x)) false true).
End VertexScan.

(** The segments the first loop of [GenerateVertex] walks:
    code, step and density of each. *)
Definition scan_log : Type := list (Z * fp * Q).
Definition log_scan (c : Z) (step : fp) (density : Q) (t : scan_log) : scan_log :=
  t ++ [(c, step, density)].

Definition StepIncrease : fp := Fin (1 # 1000).

Section Vertex.
Context {G : Type} {M : TGeoManager G} {R : Type} {T : TRandom R}.
Variable IonPdgCode : Z -> Z -> Z.

(** [if(ion_pdgc == tgtpdg) dist+=(step*density);] *)
Definition add_dist (tgtpdg : Z) (ion_pdgc : Z) (step : fp) (density : Q)
           (dist : fp) : fp :=
  if Z.eqb ion_pdgc tgtpdg then fadd dist (fmul step (Fin density)) else dist.

(** One pass through the body of the second [while]; the accumulator is
    [distToVtx]. *)
Definition GV_place_body (p : TLorentzVector) (tgtpdg : Z) (w : walk G fp)
  : outcome (bool * walk G fp) :=
  let c := advance p StepIncrease (w_cur w) in
  let g := locate c (w_geo w) in
  match GetCurrentVolume g with
  | None => Fault                               (* LOG: current->GetName() *)
  | Some current =>
      if IsOutside g then
        Ret (FlagNotInYet w, mkWalk g (w_acc w) c (FlagNotInYet w) false)
      else
        match GetMedium current with
        | None => Fault                         (* LOG: med->GetName() *)
        | Some med =>
            match GetMaterial med with
            | None => Fault                     (* LOG: mat->GetName() *)
            | Some mat =>
                let A := trunc (GetA mat) in
                let Zn := trunc (GetZ mat) in
                let density := GetDensity mat in
                let ion_pdgc := IonPdgCode A Zn in
                Ret (false,
                     mkWalk g (add_dist tgtpdg ion_pdgc StepIncrease density (w_acc w))
                            c true true)
            end
        end
  end.

(** [while(((!FlagNotInYet) || condition) && distToVtx<distVertex)]. *)
Fixpoint GV_place_loop (fuel : nat) (p : TLorentzVector) (tgtpdg : Z)
         (distVertex : fp) (w : walk G fp) : outcome (walk G fp) :=
  if (negb (FlagNotInYet w) || condition w) && fltb (w_acc w) distVertex then
    match fuel with
    | O => OutOfFuel
    | S f =>
        '(brk, w') <- GV_place_body p tgtpdg w ;;
        if brk then Ret w' else GV_place_loop f p tgtpdg distVertex w'
    end
  else Ret w.

Definition vertex_of (c : cursor) : TVector3 := (xx c, yy c, zz c).

(** [ROOTGeomAnalyzer::GenerateVertex]. *)
Definition GenerateVertex (fuel : nat) (a : ROOTGeomAnalyzer G) (r : R)
           (x p : TLorentzVector) (tgtpdg : Z)
  : outcome (ROOTGeomAnalyzer G * R * TVector3) :=
  let v0 : TVector3 := (fz 0, fz 0, fz 0) in
  match fGeometry a with
  | None =>
      Ret (mkAnalyzer None (fCurrPathLengthList a) (fCurrPDGCodeList a) v0
                      (fMaterial a), r, v0)
  | Some g =>
      w <- GV_scan IonPdgCode fp (add_dist tgtpdg) fuel g (fz 0) x p ;;
      let dist := w_acc w in
      if feqb dist (fz 0) then
        Ret (mkAnalyzer (Some (w_geo w)) (fCurrPathLengthList a)
                        (fCurrPDGCodeList a) v0 (fMaterial a), r, v0)
      else
        let '(u, r') := Rndm r in
        let distVertex := fmul u dist in
        w2 <- GV_place_loop fuel p tgtpdg distVertex
                (mkWalk (w_geo w) (fz 0) (mkCursor (lv_x x) (lv_y x) (lv_z x))
                        false true) ;;
        let v := vertex_of (retreat p StepIncrease (w_cur w2)) in
        Ret (mkAnalyzer (Some (w_geo w2)) (fCurrPathLengthList a)
                        (fCurrPDGCodeList a) v (fMaterial a), r', v)
  end.
End Vertex.

(** ** ComputeMaxPathLength *)

Section MaxPathMarch.
Context {G : Type} {M : TGeoManager G}.
Variable IonPdgCode : Z -> Z -> Z.
Variable L : Type.
(** What the loop does with a segment: material, code, step. *)
Variable visit : TGeoMaterial -> Z -> fp -> L -> L.

(** One pass through the body of the [while] of [ComputeMaxPathLength];
    [d0], [d1], [d2] are [direction[0..2]]. *)
Definition CMPL_body (sfuel : nat) (d0 d1 d2 : fp) (w : walk G L)
  : outcome (bool * walk G L) :=
  let g := locate (w_cur w) (w_geo w) in
  let outside_step :=
    if FlagNotInYet w then
      Ret (true, mkWalk g (w_acc w) (w_cur w) (FlagNotInYet w) false)
    else
      '(g', step) <- next_boundary sfuel g ;;
      Ret (false, mkWalk g' (w_acc w) (move step d0 d1 d2 (w_cur w))
                         (FlagNotInYet w) false) in
  match GetCurrentVolume g with
  | None => outside_step                                    (* !current *)
  | Some current =>
      if IsOutside g then outside_step
      else
        match GetMedium current with
        | None => Ret (false, mkWalk g (w_acc w) (w_cur w) true false)
        | Some med =>
            match GetMaterial med with
            | None => Ret (false, mkWalk g (w_acc w) (w_cur w) true false)
            | Some mat =>
                let A := trunc (GetA mat) in
                let Zn := trunc (GetZ mat) in
                let ion_pdgc := IonPdgCode A Zn in
                '(g', step) <- next_boundary sfuel g ;;
                Ret (false, mkWalk g' (visit mat ion_pdgc step (w_acc w))
                                   (move step d0 d1 d2 (w_cur w)) true true)
            end
        end
  end.

(** [while(((!FlagNotInYet) || condition) && counterloop <100)] with
    [counterloop++] at the top of the body: [left] is [100 - counterloop]. *)
Fixpoint CMPL_loop (sfuel left : nat) (d0 d1 d2 : fp) (w : walk G L)
  : outcome (walk G L) :=
  if negb (FlagNotInYet w) || condition w then
    match left with
    | O => Ret w
    | S n =>
        '(brk, w') <- CMPL_body sfuel d0 d1 d2 w ;;
        if brk then Ret w' else CMPL_loop sfuel n d0 d1 d2 w'
    end
  else Ret w.

Definition CMPL_march (sfuel : nat) (g : G) (l : L) (XYZ : cursor)
           (direction : fp * fp * fp) : outcome (walk G L) :=
  let '(d0, d1, d2) := direction in
  let g0 := SetCurrentDirection d0 d1 d2 g in
  CMPL_loop sfuel 100 d0 d1 d2 (mkWalk g0 l XYZ false true).
End MaxPathMarch.

(** The segments a bounded probe walks: material, code and step of each. *)
Definition probe_log : Type := list (TGeoMaterial * Z * fp).
Definition log_probe (mat : TGeoMaterial) (c : Z) (step : fp) (t : probe_log)
  : probe_log :=
  t ++ [(mat, c, step)].

Inductive face : Type := top | bottom | left | right | back | front.

Definition faces : list face := [top; bottom; left; right; back; front].

Definition maxPoints : nat := 200.
Definition maxRays : nat := 200.

Section Estimator.
Context {G : Type} {M : TGeoManager G} {R : Type} {T : TRandom R}.
Variable IonPdgCode : Z -> Z -> Z.

(** [if(ion_pdgc == pdgc) Length+=step;] *)
Definition add_length (pdgc : Z) (mat : TGeoMaterial) (ion_pdgc : Z)
           (step : fp) (Length : fp) : fp :=
  if Z.eqb ion_pdgc pdgc then fadd Length step else Length.

(** [ROOTGeomAnalyzer::ComputeMaxPathLength]. *)
Definition ComputeMaxPathLength (sfuel : nat) (g : G) (XYZ : cursor)
           (direction : fp * fp * fp) (pdgc : Z) : outcome (G * fp) :=
  w <- CMPL_march IonPdgCode fp (add_length pdgc) sfuel g (fz 0) XYZ direction ;;
  Ret (w_geo w, w_acc w).

(** [a - b + 2*b*r3.Rndm()]. *)
Definition spread (o d u : fp) : fp := fadd (fsub o d) (fmul (fmul (fz 2) d) u).

(** [-0.5+r3.Rndm()]. *)
Definition centred (u : fp) : fp := fadd (Fin (- (1 # 2))) u.

(** The point drawn on a face of the box. *)
Definition face_point (f : face) (box : TGeoBBox) (r : R) : cursor * R :=
  let dx := GetDX box in
  let dy := GetDY box in
  let dz := GetDZ box in
  let '(ox, oy, oz) := GetOrigin box in
  match f with
  | top =>
      let '(u, r1) := Rndm r in let '(v, r2) := Rndm r1 in
      (mkCursor (spread ox dx u) (fadd oy dy) (spread oz dz v), r2)
  | bottom =>
      let '(u, r1) := Rndm r in let '(v, r2) := Rndm r1 in
      (mkCursor (spread ox dx u) (fsub oy dy) (spread oz dz v), r2)
  | left =>
      let '(u, r1) := Rndm r in let '(v, r2) := Rndm r1 in
      (mkCursor (fsub ox dx) (spread oy dy u) (spread oz dz v), r2)
  | right =>
      let '(u, r1) := Rndm r in let '(v, r2) := Rndm r1 in
      (mkCursor (fadd ox dx) (spread oy dy u) (spread oz dz v), r2)
  | back =>
      let '(u, r1) := Rndm r in let '(v, r2) := Rndm r1 in
      (mkCursor (spread ox dx u) (spread oy dy v) (fsub oz dz), r2)
  | front =>
      let '(u, r1) := Rndm r in let '(v, r2) := Rndm r1 in
      (mkCursor (spread ox dx u) (spread oy dy v) (fadd oz dz), r2)
  end.

(** The direction drawn for a face, before it is divided by [dirTot]. *)
Definition face_direction (f : face) (r : R) : (fp * fp * fp) * R :=
  let '(u, r1) := Rndm r in
  let '(v, r2) := Rndm r1 in
  let '(w, r3) := Rndm r2 in
  match f with
  | top => ((centred u, fneg v, centred w), r3)
  | bottom => ((centred u, v, centred w), r3)
  | left => ((u, centred v, centred w), r3)
  | right => ((fneg u, centred v, centred w), r3)
  | back => ((centred u, centred v, w), r3)
  | front => ((centred u, centred v, fneg w), r3)
  end.

Definition normalise (d : fp * fp * fp) : fp * fp * fp :=
  let '(d0, d1, d2) := d in
  let dirTot := fsqrt (fadd (fadd (fmul d0 d0) (fmul d1 d1)) (fmul d2 d2)) in
  (fdiv d0 dirTot, fdiv d1 dirTot, fdiv d2 dirTot).

(** The loops are written over what they keep of a trial: [L] with
    [note], which in [SetVtxMaterial] are [MaxPath] and
    [if(Length>MaxPath) MaxPath=Length]. *)
Variable L : Type.
Variable note : face -> cursor -> fp * fp * fp -> fp -> L -> L.

(** [Rgen=0; while(Rgen<maxRays) { Rgen++; ... }]. *)
Fixpoint ray_loop (sfuel rays : nat) (f : face) (xyz : cursor) (pdgc : Z)
         (g : G) (r : R) (acc : L) : outcome (G * R * L) :=
  match rays with
  | O => Ret (g, r, acc)
  | S n =>
      let '(d, r') := face_direction f r in
      let direction := normalise d in
      '(g', Length) <- ComputeMaxPathLength sfuel g xyz direction pdgc ;;
      ray_loop sfuel n f xyz pdgc g' r' (note f xyz direction Length acc)
  end.

(** [igen=0; while(igen<maxPoints) { igen++; ... }]. *)
Fixpoint point_loop (sfuel points rays : nat) (f : face) (box : TGeoBBox)
         (pdgc : Z) (g : G) (r : R) (acc : L) : outcome (G * R * L) :=
  match points with
  | O => Ret (g, r, acc)
  | S n =>
      let '(xyz, r') := face_point f box r in
      '(g', r'', acc') <- ray_loop sfuel rays f xyz pdgc g r' acc ;;
      point_loop sfuel n rays f box pdgc g' r'' acc'
  end.

(** The six blocks, in the order of the source. *)
Fixpoint face_loop (sfuel points rays : nat) (fs : list face) (box : TGeoBBox)
         (pdgc : Z) (g : G) (r : R) (acc : L) : outcome (G * R * L) :=
  match fs with
  | [] => Ret (g, r, acc)
  | f :: fs' =>
      '(g', r', acc') <- point_loop sfuel points rays f box pdgc g r acc ;;
      face_loop sfuel points rays fs' box pdgc g' r' acc'
  end.
End Estimator.

(** [if(Length>MaxPath) MaxPath=Length;] *)
Definition keep_max (f : face) (xyz : cursor) (direction : fp * fp * fp)
           (Length MaxPath : fp) : fp :=
  if fltb MaxPath Length then Length else MaxPath.

(** A trial: the face, the point, the direction and the length found. *)
Definition trial : Type := (face * cursor * (fp * fp * fp) * fp)%type.
Definition log_trial (f : face) (xyz : cursor) (direction : fp * fp * fp)
           (Length : fp) (t : list trial) : list trial :=
  t ++ [(f, xyz, direction, Length)].

Section MaxPathEstimate.
Context {G : Type} {M : TGeoManager G} {R : Type} {T : TRandom R}.
Variable IonPdgCode : Z -> Z -> Z.

(** The search for the volume named World. *)
Fixpoint find_world (vols : list TGeoVolume) : option TGeoVolume :=
  match vols with
  | [] => None
  | TV :: vols' =>
      if String.eqb "World" (GetName TV) then Some TV else find_world vols'
  end.

Definition set_material (a : ROOTGeomAnalyzer G) (geo : option G) (m : Z)
  : ROOTGeomAnalyzer G :=
  mkAnalyzer geo (fCurrPathLengthList a) (fCurrPDGCodeList a)
             (fCurrVertex a) m.

(** [ROOTGeomAnalyzer::SetVtxMaterial]. *)
Definition SetVtxMaterial (sfuel : nat) (a : ROOTGeomAnalyzer G) (r : R)
           (pdgc : Z) : outcome (ROOTGeomAnalyzer G * R * fp) :=
  match fGeometry a with
  | None => Ret (set_material a None (-1), r, fz 0)
  | Some g =>
      if negb (ExistsInPDGCodeList pdgc (fCurrPDGCodeList a)) then
        Ret (set_material a (Some g) (-1), r, fz 0)
      else
        match find_world (GetListOfVolumes g) with
        | None => Ret (set_material a (Some g) (-1), r, fz 0)
        | Some TVWorld =>
            let box := GetShape TVWorld in
            '(g', r', MaxPath) <-
              face_loop IonPdgCode fp keep_max sfuel maxPoints maxRays faces
                        box pdgc g r (fz 0) ;;
            Ret (set_material a (Some g') pdgc, r', MaxPath)
        end
  end.

(** The trials [SetVtxMaterial] makes on a loaded geometry with a World
    volume of shape [box]. *)
Definition trials (sfuel : nat) (box : TGeoBBox) (pdgc : Z) (g : G) (r : R)
  : outcome (G * R * list trial) :=
  face_loop IonPdgCode (list trial) log_trial sfuel maxPoints maxRays faces
            box pdgc g r [].
End MaxPathEstimate.

(** ** A geometry of one box *)

(** Modelled from the spec: the Volume Hierarchy Accessor (the ROOT manager
    is not among the sources) for a geometry made of a single box-shaped
    volume, the top volume. A point is resolved inside the box or outside
    of it, the distance to the next boundary is the distance along the
    direction to the face the ray crosses next, and a point on a face
    belongs to the region the ray is entering there, so that moving by the
    distance to the next boundary takes the cursor past it. As in ROOT, the
    current volume of a point outside the top volume is the top volume. *)
Module Box.

Record nav : Type := mkNav {
  dir : fp * fp * fp;
  point : fp * fp * fp;
  step : fp;
  entering : bool;
  outside : bool
}.

(** [TGeoShape::Big()]. *)
Definition Big : fp := fz (10 ^ 30).

Definition fmax (a b : fp) : fp :=
  match a, b with
  | Fin x, Fin y => if Qle_bool x y then b else a
  | _, _ => NaN
  end.

Definition fmin (a b : fp) : fp :=
  match a, b with
  | Fin x, Fin y => if Qle_bool x y then a else b
  | _, _ => NaN
  end.

(** Along one axis: strictly between the two faces, or on the face the
    direction enters through. *)
Definition axis_inside (c o h d : fp) : bool :=
  let u := fsub c o in
  (fltb (fneg h) u && fltb u h)
  || (feqb u (fneg h) && fltb (fz 0) d)
  || (feqb u h && fltb d (fz 0)).

Definition contains (b : TGeoBBox) (pt d : fp * fp * fp) : bool :=
  let '(x, y, z) := pt in
  let '(d0, d1, d2) := d in
  let '(ox, oy, oz) := GetOrigin b in
  axis_inside x ox (GetDX b) d0
  && axis_inside y oy (GetDY b) d1
  && axis_inside z oz (GetDZ b) d2.

(** Along one axis: the ray parameters at which the ray enters and
    leaves the slab between the two faces. *)
Definition axis_span (c o h d : fp) : fp * fp :=
  let lo := fsub (fsub o h) c in
  let hi := fsub (fadd o h) c in
  if fltb (fz 0) d then (fdiv lo d, fdiv hi d)
  else if fltb d (fz 0) then (fdiv hi d, fdiv lo d)
  else if feqb d (fz 0) then
    if fltb lo (fz 0) && fltb (fz 0) hi then (fneg Big, Big) else (Big, fneg Big)
  else (NaN, NaN).

Definition distance (b : TGeoBBox) (pt d : fp * fp * fp) (out : bool) : fp :=
  let '(x, y, z) := pt in
  let '(d0, d1, d2) := d in
  let '(ox, oy, oz) := GetOrigin b in
  let sx := axis_span x ox (GetDX b) d0 in
  let sy := axis_span y oy (GetDY b) d1 in
  let sz := axis_span z oz (GetDZ b) d2 in
  let t_in := fmax (fmax (fst sx) (fst sy)) (fst sz) in
  let t_out := fmin (fmin (snd sx) (snd sy)) (snd sz) in
  if out then
    if fleb (fz 0) t_in && fltb t_in t_out then t_in else Big
  else t_out.

Definition shift (pt d : fp * fp * fp) (s : fp) : fp * fp * fp :=
  let '(x, y, z) := pt in
  let '(d0, d1, d2) := d in
  (fadd x (fmul s d0), fadd y (fmul s d1), fadd z (fmul s d2)).

Section Manager.
Variable world : TGeoVolume.

Definition find (pt : fp * fp * fp) (g : nav) : nav :=
  mkNav (dir g) pt (fz 0) false (negb (contains (GetShape world) pt (dir g))).

Definition manager : TGeoManager nav := {|
  SetCurrentDirection := fun d0 d1 d2 g =>
    mkNav (d0, d1, d2) (point g) (step g) (entering g) (outside g);
  SetCurrentPoint := fun pt g =>
    mkNav (dir g) pt (step g) (entering g) (outside g);
  FindNode := fun x y z g => find (x, y, z) g;
  GetCurrentVolume := fun _ => Some world;
  IsOutside := outside;
  FindNextBoundary := fun g =>
    mkNav (dir g) (point g)
          (distance (GetShape world) (point g) (dir g) (outside g))
          true (outside g);
  GetStep := step;
  IsEntering := entering;
  Step := fun g => find (shift (point g) (dir g) (step g)) g;
  GetListOfVolumes := fun _ => [world]
|}.
End Manager.

Definition start : nav :=
  mkNav (fz 0, fz 0, fz 0) (fz 0, fz 0, fz 0) (fz 0) false true.

Definition cube (h : Z) : TGeoBBox :=
  mkBBox (fz h) (fz h) (fz h) (fz 0, fz 0, fz 0).

Definition pure (A Zn density : Q) : TGeoMaterial :=
  mkMaterial A Zn density None.

Definition volume (name : string) (mat : TGeoMaterial) (b : TGeoBBox)
  : TGeoVolume :=
  mkVolume name (Some (mkMedium (Some mat))) b.
End Box.

(** Modelled from the spec: [pdg::IonPdgCode] (PDG/PDGUtils.h is not among
    the sources) derives the isotope identifier from (A, Z), one code per
    pair; here the digits 1AAAZZZ000. *)
Definition IonPdgCode (A Zn : Z) : Z := 1000000000 + A * 1000000 + Zn * 1000.

(** A random stream for examples: a linear congruential generator whose
    draws lie strictly between 0 and 1. *)
Module Lcg.
Definition modulus : Z := 2 ^ 31.
Definition next (s : Z) : Z := (1103515245 * s + 12345) mod modulus.
Definition draw (s : Z) : fp := Fin (Qred ((2 * s + 1) # (2 ^ 32))).
Definition random : TRandom Z := {| Rndm := fun s => (draw (next s), next s) |}.
End Lcg.

(** ** Scenarios *)

Definition vec (x y z : Z) : TLorentzVector := mkLorentz (fz x) (fz y) (fz z) (fz 0).

(** Oxygen 16, density 1. *)
Definition oxygen : TGeoMaterial := Box.pure 16 8 1.

Definition oxygen_cube : TGeoVolume := Box.volume "World" oxygen (Box.cube 10).

Definition loaded (world : TGeoVolume) : outcome (ROOTGeomAnalyzer Box.nav) :=
  Initialize (M := Box.manager world) IonPdgCode (Some Box.start) 0.

(** ** Notions the statements use *)

(** Applying a log of segments to an accumulator. *)
Definition replay {L : Type} (add : Z -> fp -> L -> L) (t : segment_log) (l : L) : L :=
  fold_left (fun acc e => add (fst e) (snd e) acc) t l.

(** The sum of the steps of a log. *)
Definition total_steps (t : segment_log) : fp :=
  fold_left (fun acc e => fadd acc (snd e)) t (fz 0).

Section Reaching.
Context {G : Type} {M : TGeoManager G}.
Variable ion : Z -> Z -> Z.
Variable L : Type.
Variable add : Z -> fp -> L -> L.

(** The state at the top of pass [n] of the loop of [ComputePathLengths],
    when the [n] passes before it went through without [break]. *)
Fixpoint CPL_after (sfuel : nat) (p : TLorentzVector) (n : nat) (w : walk G L)
  : option (walk G L) :=
  match n with
  | O => Some w
  | S k =>
      match CPL_body ion L add sfuel p w with
      | Ret (false, w1) => CPL_after sfuel p k w1
      | _ => None
      end
  end.

(** The cursor of [w] resolves to a point outside all volumes. *)
Definition resolves_outside (w : walk G L) : bool :=
  IsOutside (locate (w_cur w) (w_geo w)).

(** The state the loop is left in by [break] at the top of a pass [w]. *)
Definition left_at (w : walk G L) : walk G L :=
  mkWalk (locate (w_cur w) (w_geo w)) (w_acc w) (w_cur w) true false.
End Reaching.

Arguments resolves_outside {G M L} w.
Arguments left_at {G M L} w.

Definition outcome_map {A B : Type} (f : A -> B) (c : outcome A) : outcome B :=
  match c with
  | Ret a => Ret (f a)
  | Fault => Fault
  | OutOfFuel => OutOfFuel
  end.

(** A walk that logged its segments, seen as the walk that applied them
    to [l0]. *)
Definition relog {G L : Type} (add : Z -> fp -> L -> L) (l0 : L)
           (w : walk G segment_log) : walk G L :=
  mkWalk (w_geo w) (replay add (w_acc w) l0) (w_cur w) (FlagNotInYet w) (condition w).

(** The code a mixture element is recorded under. *)
Definition element_code (ion : Z -> Z -> Z) (ele : TGeoElement) : Z :=
  ion (trunc (ele_A ele)) (ele_Z ele).

(** The analyzer holds a loaded geometry and the code list built from its
    volumes. *)
Definition registered {G : Type} {M : TGeoManager G} (ion : Z -> Z -> Z)
           (a : ROOTGeomAnalyzer G) : Prop :=
  exists g, fGeometry a = Some g /\
            volume_loop ion (GetListOfVolumes g) [] = Ret (fCurrPDGCodeList a).

(** Hydrogen and oxygen in one mixture. *)
Definition water : TGeoMaterial :=
  mkMaterial 18 10 1 (Some [mkElement 1 1; mkElement 16 8]).

Definition water_tank : TGeoVolume := Box.volume "World" water (Box.cube 10).

(** The manager of a box at the entry face, on the ray of the scenarios. *)
Definition at_entry (world : TGeoVolume) : Box.nav :=
  locate (M := Box.manager world) (mkCursor (fz (-10)) (fz 0) (fz 0))
         (SetCurrentDirection (TGeoManager := Box.manager world)
                              (fz 1) (fz 0) (fz 0) Box.start).

(** Every code of the log is one of [codes]. *)
Definition log_within (codes : list Z) (t : segment_log) : Prop :=
  forall c s, In (c, s) t -> In c codes.

(** What the analyzer relies on from the manager about its volumes: it
    resolves only volumes of its list, and navigation leaves the list as it
    is. *)
Record volumes_contract {G : Type} (M : TGeoManager G) : Prop := {
  contract_resolved :
    forall g v, GetCurrentVolume g = Some v -> In v (GetListOfVolumes g);
  contract_direction :
    forall d0 d1 d2 g,
      GetListOfVolumes (SetCurrentDirection d0 d1 d2 g) = GetListOfVolumes g;
  contract_point :
    forall pt g, GetListOfVolumes (SetCurrentPoint pt g) = GetListOfVolumes g;
  contract_find :
    forall x y z g, GetListOfVolumes (FindNode x y z g) = GetListOfVolumes g;
  contract_boundary :
    forall g, GetListOfVolumes (FindNextBoundary g) = GetListOfVolumes g;
  contract_step :
    forall g, GetListOfVolumes (Step g) = GetListOfVolumes g
}.

(** What repeatable navigation relies on from the manager. [same_geometry]
    relates states over one unchanged geometry, [same_track] those that
    also have the same current direction, [same_nav] those no call tells
    apart. Navigation leaves the geometry as it is; setting a direction
    fixes the track; setting the point and finding the node fixes the rest
    of the navigation state. *)
Record navigation_contract {G : Type} (M : TGeoManager G)
       (same_geometry same_track same_nav : G -> G -> Prop) : Prop := {
  geometry_refl : forall g, same_geometry g g;
  geometry_trans : forall g1 g2 g3,
      same_geometry g1 g2 -> same_geometry g2 g3 -> same_geometry g1 g3;
  geometry_direction : forall d0 d1 d2 g,
      same_geometry g (SetCurrentDirection d0 d1 d2 g);
  geometry_point : forall pt g, same_geometry g (SetCurrentPoint pt g);
  geometry_find : forall x y z g, same_geometry g (FindNode x y z g);
  geometry_boundary : forall g, same_geometry g (FindNextBoundary g);
  geometry_step : forall g, same_geometry g (Step g);
  track_direction : forall d0 d1 d2 g g',
      same_geometry g g' ->
      same_track (SetCurrentDirection d0 d1 d2 g) (SetCurrentDirection d0 d1 d2 g');
  nav_locate : forall x y z pt g g',
      same_track g g' ->
      same_nav (FindNode x y z (SetCurrentPoint pt g))
               (FindNode x y z (SetCurrentPoint pt g'));
  nav_track : forall g g', same_nav g g' -> same_track g g';
  nav_boundary : forall g g',
      same_nav g g' -> same_nav (FindNextBoundary g) (FindNextBoundary g');
  nav_step : forall g g', same_nav g g' -> same_nav (Step g) (Step g');
  nav_volume : forall g g',
      same_nav g g' -> GetCurrentVolume g = GetCurrentVolume g';
  nav_outside : forall g g', same_nav g g' -> IsOutside g = IsOutside g';
  nav_get_step : forall g g', same_nav g g' -> GetStep g = GetStep g';
  nav_entering : forall g g', same_nav g g' -> IsEntering g = IsEntering g'
}.

(** Two outcomes of the same kind, with related results. *)
Definition outcome_rel {A : Type} (rel : A -> A -> Prop) (o o' : outcome A) : Prop :=
  match o, o' with
  | Ret a, Ret b => rel a b
  | Fault, Fault => True
  | OutOfFuel, OutOfFuel => True
  | _, _ => False
  end.

(** Two walks that differ at most in the manager, related by [rel]. *)
Definition walk_rel {G L : Type} (rel : G -> G -> Prop) (w w' : walk G L) : Prop :=
  rel (w_geo w) (w_geo w')
  /\ w_acc w = w_acc w' /\ w_cur w = w_cur w'
  /\ FlagNotInYet w = FlagNotInYet w' /\ condition w = condition w'.

(** A manager whose current direction can be read back
    ([TGeoManager::GetCurrentDirection]): it is what was set last, and
    navigation leaves it as it is. *)
Record direction_contract {G : Type} (M : TGeoManager G)
       (GetCurrentDirection : G -> fp * fp * fp) : Prop := {
  direction_set : forall d0 d1 d2 g,
      GetCurrentDirection (SetCurrentDirection d0 d1 d2 g) = (d0, d1, d2);
  direction_point : forall pt g,
      GetCurrentDirection (SetCurrentPoint pt g) = GetCurrentDirection g;
  direction_find : forall x y z g,
      GetCurrentDirection (FindNode x y z g) = GetCurrentDirection g;
  direction_boundary : forall g,
      GetCurrentDirection (FindNextBoundary g) = GetCurrentDirection g;
  direction_step : forall g,
      GetCurrentDirection (Step g) = GetCurrentDirection g
}.

(** The direction the manager of the analyzer is left with. *)
Definition left_direction {G : Type} (dirn : G -> fp * fp * fp)
           (a : ROOTGeomAnalyzer G) : option (fp * fp * fp) :=
  option_map dirn (fGeometry a).

(** Applying a log of scanned segments to an accumulator. *)
Definition replay_scan {L : Type} (visit : Z -> fp -> Q -> L -> L)
           (t : scan_log) (l : L) : L :=
  fold_left (fun acc e => visit (fst (fst e)) (snd (fst e)) (snd e) acc) t l.

Definition relog_scan {G L : Type} (visit : Z -> fp -> Q -> L -> L) (l0 : L)
           (w : walk G scan_log) : walk G L :=
  mkWalk (w_geo w) (replay_scan visit (w_acc w) l0) (w_cur w)
         (FlagNotInYet w) (condition w).

(** The ray went through a segment of the target isotope. *)
Definition encountered (tgtpdg : Z) (t : scan_log) : bool :=
  existsb (fun e => Z.eqb (fst (fst e)) tgtpdg) t.

(** The density-weighted length of the target isotope along the segments. *)
Definition weighted_length (tgtpdg : Z) (t : scan_log) : fp :=
  replay_scan (add_dist tgtpdg) t (fz 0).

(** Oxygen 16 of density zero. *)
Definition weightless_cube : TGeoVolume :=
  Box.volume "World" (Box.pure 16 8 0) (Box.cube 10).

(** Applying a log of probed segments to an accumulator. *)
Definition replay_probe {L : Type} (visit : TGeoMaterial -> Z -> fp -> L -> L)
           (t : probe_log) (l : L) : L :=
  fold_left (fun acc e => visit (fst (fst e)) (snd (fst e)) (snd e) acc) t l.

Definition relog_probe {G L : Type} (visit : TGeoMaterial -> Z -> fp -> L -> L)
           (l0 : L) (w : walk G probe_log) : walk G L :=
  mkWalk (w_geo w) (replay_probe visit (w_acc w) l0) (w_cur w)
         (FlagNotInYet w) (condition w).

(** The length of the segments of the target: the sum of their steps. *)
Definition plain_length (pdgc : Z) (t : probe_log) : fp :=
  replay_probe (add_length pdgc) t (fz 0).

(** The density-weighted length of the segments of the target: the sum of
    their steps, each multiplied by the density of its material. *)
Definition add_weighted (pdgc : Z) (mat : TGeoMaterial) (ion_pdgc : Z)
           (step : fp) (acc : fp) : fp :=
  if Z.eqb ion_pdgc pdgc then fadd acc (fmul step (Fin (GetDensity mat))) else acc.

Definition dense_length (pdgc : Z) (t : probe_log) : fp :=
  replay_probe (add_weighted pdgc) t (fz 0).

Definition trial_face (t : trial) : face := fst (fst (fst t)).
Definition trial_point (t : trial) : cursor := snd (fst (fst t)).
Definition trial_direction (t : trial) : fp * fp * fp := snd (fst t).
Definition trial_length (t : trial) : fp := snd t.

(** Applying a log of trials to an accumulator. *)
Definition replay_trials {L : Type}
           (note : face -> cursor -> fp * fp * fp -> fp -> L -> L)
           (ts : list trial) (l : L) : L :=
  fold_left (fun acc t => note (trial_face t) (trial_point t) (trial_direction t)
                               (trial_length t) acc) ts l.

(** The running maximum of the lengths of the trials, from zero. *)
Definition best (ts : list trial) : fp := replay_trials keep_max ts (fz 0).

(** Oxygen 16 of density 2. *)
Definition dense_cube : TGeoVolume :=
  Box.volume "World" (Box.pure 16 8 2) (Box.cube 10).

(** Not a negative number. *)
Definition nonneg (t : fp) : Prop :=
  match t with Fin y => (0 <= y)%Q | NaN => True end.

(** The point lies in the plane of the face. *)
Definition on_face (f : face) (box : TGeoBBox) (xyz : cursor) : Prop :=
  let '(ox, oy, oz) := GetOrigin box in
  match f with
  | top => yy xyz = fadd oy (GetDY box)
  | bottom => yy xyz = fsub oy (GetDY box)
  | left => xx xyz = fsub ox (GetDX box)
  | right => xx xyz = fadd ox (GetDX box)
  | back => zz xyz = fsub oz (GetDZ box)
  | front => zz xyz = fadd oz (GetDZ box)
  end.

(** The component of the direction along the normal of the face does not
    point out of the box. *)
Definition inward (f : face) (d : fp * fp * fp) : Prop :=
  let '(d0, d1, d2) := d in
  match f with
  | top => fltb (fz 0) d1 = false
  | bottom => fltb d1 (fz 0) = false
  | left => fltb d0 (fz 0) = false
  | right => fltb (fz 0) d0 = false
  | back => fltb d2 (fz 0) = false
  | front => fltb (fz 0) d2 = false
  end.

Section TrialShape.
Context {G : Type} {M : TGeoManager G}.
Variable ion : Z -> Z -> Z.
Variable sfuel : nat.
Variable pdgc : Z.
Variable box : TGeoBBox.

(** A trial of face [f] from the point [xyz]: its direction is inward and
    its length is what [ComputeMaxPathLength] returned for it. *)
Definition trial_ok (f : face) (xyz : cursor) (t : trial) : Prop :=
  trial_face t = f /\ trial_point t = xyz
  /\ inward f (trial_direction t)
  /\ exists g0 g1,
      ComputeMaxPathLength ion sfuel g0 xyz (trial_direction t) pdgc
      = Ret (g1, trial_length t).

(** The trials of one point of a face: [rays] of them, from one point of
    the face. *)
Definition point_block (rays : nat) (f : face) (b : list trial) : Prop :=
  exists xyz, on_face f box xyz /\ List.length b = rays /\ Forall (trial_ok f xyz) b.

(** The trials of one face: [points] blocks of [rays] trials. *)
Definition face_block (points rays : nat) (f : face) (bs : list (list trial)) : Prop :=
  List.length bs = points /\ Forall (point_block rays f) bs.
End TrialShape.

(** The draws of the stream are finite and not negative. *)
Definition draws_nonneg {R : Type} (T : TRandom R) : Prop :=
  forall r, exists q, fst (Rndm r) = Fin q /\ (0 <= q)%Q.

(** Looking for the next boundary always comes to an end. *)
Definition stepping_ends {G : Type} (M : TGeoManager G) (sfuel : nat) : Prop :=
  forall g, exists g' s, next_boundary sfuel g = Ret (g', s).

(** No volume the manager resolves has the code [pdgc] as the code of its
    material's own A and Z. *)
Definition never_matches {G : Type} (M : TGeoManager G) (ion : Z -> Z -> Z)
           (pdgc : Z) : Prop :=
  forall g cur med mat,
    GetCurrentVolume g = Some cur -> GetMedium cur = Some med ->
    GetMaterial med = Some mat ->
    ion (trunc (GetA mat)) (trunc (GetZ mat)) <> pdgc.

(** Two states of the manager of a box with the same current direction. *)
Definition box_same_track (g g' : Box.nav) : Prop := Box.dir g = Box.dir g'.

(** A volume whose medium, or whose medium's material, is a null pointer. *)
Definition bare (v : TGeoVolume) : bool :=
  match GetMedium v with
  | None => true
  | Some med => match GetMaterial med with None => true | Some _ => false end
  end.

(** A box volume without a medium. *)
Definition hollow_cube : TGeoVolume := mkVolume "World" None (Box.cube 10).

(** The walk [ComputePathLengths] starts its loop with. *)
Definition CPL_start {G L : Type} {M : TGeoManager G} (g : G) (l : L)
           (x p : TLorentzVector) : walk G L :=
  mkWalk (SetCurrentDirection (fdiv (Px p) (P p)) (fdiv (Py p) (P p))
                              (fdiv (Pz p) (P p)) g)
         l (mkCursor (lv_x x) (lv_y x) (lv_z x)) false true.

(** The pass at the top of which [w] stands dereferences a null pointer:
    no current volume, or a point inside a bare volume. *)
Definition faulty_pass {G L : Type} {M : TGeoManager G} (w : walk G L) : Prop :=
  let g := locate (w_cur w) (w_geo w) in
  match GetCurrentVolume g with
  | None => True
  | Some current => IsOutside g = false /\ bare current = true
  end.

(** The generator state after one draw. *)
Definition next_draw {R : Type} {T : TRandom R} (r : R) : R := snd (Rndm r).

(** No material the manager resolves is a mixture. *)
Definition no_mixtures {G : Type} (M : TGeoManager G) : Prop :=
  forall g cur med mat,
    GetCurrentVolume g = Some cur -> GetMedium cur = Some med ->
    GetMaterial med = Some mat -> mixture mat = None.

(** The path-length list the scanned segments give when each is recorded
    with [AddPathLength] under its code. *)
Definition scanned_lengths (t : scan_log) (l : PathLengthList) : PathLengthList :=
  replay_scan (fun c s _ => AddPathLength c s) t l.

(** * gNuMIExptEvGen: the exposure options and the event loop

    A shallow embedding of the exposure checks of [GetCommandLineArgs] and
    of the event generation loop of [main] in
    [src/support/numi/EvGen/gNuMIExptEvGen.cxx], the job that drives the
    analyzer. *)

(** The options the checks and the loop read. *)
Record options : Type := mkOptions {
  gOptUsingRootGeom : bool;
  gOptUsingHistFlux : bool;
  gOptNev : Z;
  gOptPOT : fp
}.

(** The 'sanity' checks on the exposure at the end of
    [GetCommandLineArgs]: [true] when none of them calls [exit(1)]. *)
Definition exposure_accepted (o : options) : bool :=
  let nset := (if fltb (fz 0) (gOptPOT o) then 1 else 0)
              + (if 0 <? gOptNev o then 1 else 0) in
  if negb (gOptUsingHistFlux o) && ((nset =? 0) || (1 <? nset)) then false
  else if gOptUsingHistFlux o && (gOptNev o <? 0) then false
  else if negb (gOptUsingRootGeom o) && fltb (fz 0) (gOptPOT o) then false
  else true.

(** The flux driver and the event generation driver of the job, with the
    state they share; [E] is an event record and [I] the pass-through info
    of the flux. *)
Class JobDrivers (D E I : Type) : Type := {
  (** [numi_flux_driver->POT_curr()] *)
  POT_curr : D -> fp;
  (** [mcj_driver->GlobProbScale()] *)
  GlobProbScale : D -> fp;
  (** [mcj_driver->GenerateEvent()]: an event or a null pointer *)
  GenerateEvent : D -> option E * D;
  (** [numi_flux_driver->End()] *)
  flux_End : D -> bool;
  (** [numi_flux_driver->PassThroughInfo()] *)
  PassThroughInfo : D -> I
}.

(** The state of the event loop: the drivers, [ievent], and what
    [ntpw.AddEventRecord(ievent, event)] was given so far together with the
    [flux_info] of the branch at that time (the job monitor is updated with
    the same pair). *)
Record job (D E I : Type) : Type := mkJob {
  j_drivers : D;
  ievent : Z;
  ntuple : list (Z * E * option I)
}.

Arguments mkJob {D E I}.
Arguments j_drivers {D E I}.
Arguments ievent {D E I}.
Arguments ntuple {D E I}.

Definition INT_MAX : Z := 2147483647.

Section EventLoop.
Context {D E I : Type} {J : JobDrivers D E I}.
(** [fpot / psc >= gOptPOT] on the doubles [fpot], [psc] and [gOptPOT]. *)
Variable pot_reached : fp -> fp -> fp -> bool.
Variable o : options.

(** One pass through the body of [while (1)]; the boolean is [true] when
    the body left through [break]. [numi_flux_driver] is a null pointer
    when the flux comes from histograms, and [ievent++] has no defined
    result at [INT_MAX]. *)
Definition loop_body (j : job D E I) : outcome (bool * job D E I) :=
  if ievent j =? gOptNev o then Ret (true, j)
  else
    stop <- (if fltb (fz 0) (gOptPOT o) then
               if gOptUsingHistFlux o then Fault   (* numi_flux_driver->POT_curr() *)
               else Ret (pot_reached (POT_curr (j_drivers j))
                                     (GlobProbScale (j_drivers j)) (gOptPOT o))
             else Ret false) ;;
    if (stop : bool) then Ret (true, j)
    else
      let '(event, d) := GenerateEvent (j_drivers j) in
      match event with
      | None =>
          if gOptUsingHistFlux o then Fault        (* numi_flux_driver->End() *)
          else if flux_End d then Ret (true, mkJob d (ievent j) (ntuple j))
          else Ret (false, mkJob d (ievent j) (ntuple j))
      | Some ev =>
          let flux_info :=
            if gOptUsingHistFlux o then None else Some (PassThroughInfo d) in
          if ievent j =? INT_MAX then Fault        (* ievent++ *)
          else Ret (false, mkJob d (ievent j + 1)
                                 (ntuple j ++ [(ievent j, ev, flux_info)]))
      end.

Fixpoint event_loop (fuel : nat) (j : job D E I) : outcome (job D E I) :=
  match fuel with
  | O => OutOfFuel
  | S f =>
      '(brk, j') <- loop_body j ;;
      if brk then Ret j' else event_loop f j'
  end.

(** [int ievent = 0; while (1) { ... }]. *)
Definition generate_events (fuel : nat) (d : D) : outcome (job D E I) :=
  event_loop fuel (mkJob d 0 []).
End EventLoop.

(** The numbers the records of an ntuple were added under. *)
Definition record_numbers {E I : Type} (t : list (Z * E * option I)) : list Z :=
  map (fun r => fst (fst r)) t.

(** The numbers 0, 1, ..., n - 1. *)
Definition first_numbers (n : nat) : list Z := map Z.of_nat (seq 0 n).

(** The double test of the loop with the arithmetic of [fp]. *)
Definition fp_pot_reached (fpot psc pot : fp) : bool := fleb pot (fdiv fpot psc).

(** Drivers for examples: a flux of [n] entries, from each of which an
    event is generated, the event and its pass-through info being the
    number of entries left; no protons on target are counted. *)
Module Countdown.
Definition generate (n : nat) : option nat * nat :=
  match n with
  | O => (None, O)
  | S k => (Some n, k)
  end.
Definition drivers : JobDrivers nat nat nat := {|
  POT_curr := fun _ => fz 0;
  GlobProbScale := fun _ => fz 1;
  GenerateEvent := generate;
  flux_End := fun n => Nat.eqb n 0;
  PassThroughInfo := fun n => n
|}.
End Countdown.

(** Drivers for examples: a generator that always returns an event, the
    number of the events generated before it. *)
Module Steady.
Definition drivers : JobDrivers nat nat nat := {|
  POT_curr := fun _ => fz 0;
  GlobProbScale := fun _ => fz 1;
  GenerateEvent := fun n => (Some n, S n);
  flux_End := fun _ => false;
  PassThroughInfo := fun n => n
|}.
End Steady.

(** The direction [ComputePathLengths] and [GenerateVertex] set for a
    momentum. *)
Definition direction_of (p : TLorentzVector) : fp * fp * fp :=
  (fdiv (Px p) (P p), fdiv (Py p) (P p), fdiv (Pz p) (P p)).

(** [if(ion_pdgc == pdgc) Length+=step;] on a scanned segment. *)
Definition add_step (pdgc : Z) (ion_pdgc : Z) (step : fp) (density : Q)
           (Length : fp) : fp :=
  if Z.eqb ion_pdgc pdgc then fadd Length step else Length.

(** The plain length of the target's segments of a scan: the sum of their
    steps. *)
Definition scanned_length (pdgc : Z) (t : scan_log) : fp :=
  replay_scan (add_step pdgc) t (fz 0).

(** ** A box behind a manager that steps *)

(** Modelled from the spec: the Volume Hierarchy Accessor (the ROOT manager
    is not among the sources) for the same single box, read with the
    hazard of its interface: the search for the next boundary only
    measures the distance and reports that nothing was crossed; [Step]
    moves the current point by that distance, over the boundary, resolves
    it again and reports that a new region was entered. The distance stays
    what the search found. *)
Module StepBox.
Section Manager.
Variable world : TGeoVolume.

Definition manager : TGeoManager Box.nav := {|
  SetCurrentDirection := fun d0 d1 d2 g =>
    Box.mkNav (d0, d1, d2) (Box.point g) (Box.step g) (Box.entering g)
              (Box.outside g);
  SetCurrentPoint := fun pt g =>
    Box.mkNav (Box.dir g) pt (Box.step g) (Box.entering g) (Box.outside g);
  FindNode := fun x y z g => Box.find world (x, y, z) g;
  GetCurrentVolume := fun _ => Some world;
  IsOutside := Box.outside;
  FindNextBoundary := fun g =>
    Box.mkNav (Box.dir g) (Box.point g)
              (Box.distance (GetShape world) (Box.point g) (Box.dir g)
                            (Box.outside g))
              false (Box.outside g);
  GetStep := Box.step;
  IsEntering := Box.entering;
  Step := fun g =>
    let g' := Box.find world (Box.shift (Box.point g) (Box.dir g) (Box.step g)) g in
    Box.mkNav (Box.dir g') (Box.point g') (Box.step g) true (Box.outside g');
  GetListOfVolumes := fun _ => [world]
|}.
End Manager.
End StepBox.

(** ** Searches in a row *)

Section Searches.
Context {G : Type} {M : TGeoManager G}.

(** [n] searches for the next boundary in a row, each from the state the
    search before it left the manager in, the current point not being set
    in between: the steps they return, in order, and the state after the
    last. *)
Fixpoint successive_searches (sfuel n : nat) (g : G) : outcome (list fp * G) :=
  match n with
  | O => Ret ([], g)
  | S k =>
      '(g1, s) <- next_boundary sfuel g ;;
      '(ss, g') <- successive_searches sfuel k g1 ;;
      Ret (s :: ss, g')
  end.
End Searches.

(** The number of searches a segment of the material is given: one for
    each element of a mixture, one for any other material. *)
Definition searches_of (mat : TGeoMaterial) : nat :=
  match mixture mat with
  | Some es => List.length es
  | None => 1%nat
  end.

(** The steps [ss] recorded under the codes [cs], pair by pair. *)
Definition add_each {L : Type} (add : Z -> fp -> L -> L) (cs : list Z)
           (ss : list fp) (l : L) : L :=
  fold_left (fun acc e => add (fst e) (snd e) acc) (combine cs ss) l.

(** The cursor advanced by each of the steps in turn. *)
Definition advance_each (p : TLorentzVector) (ss : list fp) (c : cursor) : cursor :=
  fold_left (fun acc s => advance p s acc) ss c.

(** The sum of the steps, from 0. *)
Definition sum_steps (ss : list fp) : fp := fold_left fadd ss (fz 0).

(** A search that leaves the manager where it is: it reports at once that
    the boundary is being entered, so that no [Step] is taken, and asked
    again it finds the same distance. *)
Definition search_stays {G : Type} (M : TGeoManager G) : Prop :=
  forall g,
    IsEntering (FindNextBoundary g) = true
    /\ GetStep (FindNextBoundary (FindNextBoundary g))
       = GetStep (FindNextBoundary g).

(** The analyzer loaded over the stepping manager of a box. *)
Definition stepped (world : TGeoVolume) : outcome (ROOTGeomAnalyzer Box.nav) :=
  Initialize (M := StepBox.manager world) IonPdgCode (Some Box.start) 0.

(** ** A ray that leaves the geometry *)

(** What it means, for the manager [M] and the momentum [p], that the rays
    through the states and cursors [on_ray] leave the geometry. [ahead]
    counts the boundaries a cursor still has before it. A cursor resolves
    to a volume, with medium and material when it is inside. From a cursor
    outside with boundaries ahead, the search for the next boundary takes
    the cursor over at least one of them and not beyond the geometry. From
    a cursor inside, the searches its material is given, made in a row,
    take the cursor over at least one boundary. And a cursor with no
    boundary ahead resolves outside. *)
Record ray_leaves {G : Type} (M : TGeoManager G) (sfuel : nat)
       (p : TLorentzVector) (ahead : cursor -> nat)
       (on_ray : G -> cursor -> Prop) : Prop := {
  leaves_resolved :
    forall g c, on_ray g c ->
      exists v, GetCurrentVolume (locate c g) = Some v
                /\ (IsOutside (locate c g) = false ->
                    exists med mat, GetMedium v = Some med
                                    /\ GetMaterial med = Some mat);
  leaves_before :
    forall g c, on_ray g c ->
      IsOutside (locate c g) = true -> (0 < ahead c)%nat ->
      exists g' s,
        next_boundary sfuel (locate c g) = Ret (g', s)
        /\ on_ray g' (advance p s c)
        /\ (ahead (advance p s c) < ahead c)%nat
        /\ (IsOutside (locate (advance p s c) g') = true ->
            (0 < ahead (advance p s c))%nat);
  leaves_inside :
    forall g c v med mat, on_ray g c ->
      IsOutside (locate c g) = false ->
      GetCurrentVolume (locate c g) = Some v ->
      GetMedium v = Some med -> GetMaterial med = Some mat ->
      exists ss g',
        successive_searches sfuel (searches_of mat) (locate c g) = Ret (ss, g')
        /\ on_ray g' (advance_each p ss c)
        /\ (ahead (advance_each p ss c) < ahead c)%nat;
  leaves_out :
    forall g c, on_ray g c -> ahead c = 0%nat -> IsOutside (locate c g) = true
}.

(** Along the x axis through the cube of half-length 10: two boundaries
    ahead before the cube, one inside it, none after it. *)
Definition ahead_x (c : cursor) : nat :=
  if fltb (xx c) (fz (-10)) then 2%nat
  else if fltb (xx c) (fz 10) then 1%nat
  else 0%nat.

(** The states and cursors at the top of the passes of the ray of the
    scenario through the tank of water, over the manager that steps:
    before the tank, at its entry face, and past it. *)
Definition before_tank : Box.nav * cursor :=
  (Box.mkNav (fz 1, fz 0, fz 0) (fz 0, fz 0, fz 0) (fz 0) false true,
   mkCursor (fz (-20)) (fz 0) (fz 0)).

Definition entering_tank : Box.nav * cursor :=
  (Box.mkNav (fz 1, fz 0, fz 0) (fz (-10), fz 0, fz 0) (fz 10) true false,
   mkCursor (fz (-10)) (fz 0) (fz 0)).

Definition past_tank : Box.nav * cursor :=
  (Box.mkNav (fz 1, fz 0, fz 0) (fadd (fz 10) Box.Big, fz 0, fz 0) Box.Big true true,
   mkCursor (fadd (fz 10) Box.Big) (fz 0) (fz 0)).

Definition tank_ray (g : Box.nav) (c : cursor) : Prop :=
  (g, c) = before_tank \/ (g, c) = entering_tank \/ (g, c) = past_tank.

(** ** What the estimate's trials are *)

(** The steps of the segments of a probe whose material has the code
    [pdgc] as the code of its own A and Z, in the order walked. *)
Definition target_steps (pdgc : Z) (t : probe_log) : list fp :=
  map snd (filter (fun e => Z.eqb (snd (fst e)) pdgc) t).

(** The geometric length of the target along a probe: the sum of those
    steps. Neither the density nor anything else of the material enters
    it. *)
Definition geometric_length (pdgc : Z) (t : probe_log) : fp :=
  sum_steps (target_steps pdgc t).

Section Marches.
Context {G : Type} {M : TGeoManager G}.
Variable ion : Z -> Z -> Z.
Variable sfuel : nat.

(** A bounded march, written after the Ray Marcher of the spec (4.1) with
    the cap of the estimator (4.4): at most [n] passes from the cursor [c]
    along [d]. In a pass the cursor is resolved. Outside all volumes, or
    with no current volume: the march ends if the ray has entered the
    geometry, otherwise the cursor is moved to the next boundary. In a
    volume without material information the march ends. Otherwise the ray
    has entered: the distance to the next boundary is found, a segment of
    that length is emitted for the material under the code of its own A and
    Z, and the cursor is moved on by it. *)
Fixpoint bounded_march (n : nat) (d : fp * fp * fp) (g : G) (c : cursor)
         (entered : bool) (t : probe_log) : outcome (G * probe_log) :=
  match n with
  | O => Ret (g, t)
  | S k =>
      let g1 := locate c g in
      let '(d0, d1, d2) := d in
      let material :=
        match GetCurrentVolume g1 with
        | None => None
        | Some v =>
            if IsOutside g1 then None
            else Some (match GetMedium v with
                       | None => None
                       | Some med => GetMaterial med
                       end)
        end in
      match material with
      | None =>
          if entered then Ret (g1, t)
          else
            '(g2, s) <- next_boundary sfuel g1 ;;
            bounded_march k d g2 (move s d0 d1 d2 c) false t
      | Some None => Ret (g1, t)
      | Some (Some mat) =>
          '(g2, s) <- next_boundary sfuel g1 ;;
          bounded_march k d g2 (move s d0 d1 d2 c) true
            (t ++ [(mat, ion (trunc (GetA mat)) (trunc (GetZ mat)), s)])
      end
  end.

(** The march of a probe: the direction is set, and at most 100 passes
    are made from the point, the ray not having entered yet. *)
Definition probe_march (g : G) (c : cursor) (d : fp * fp * fp)
  : outcome (G * probe_log) :=
  let '(d0, d1, d2) := d in
  bounded_march 100 d (SetCurrentDirection d0 d1 d2 g) c false [].

Variable pdgc : Z.

(** The trials [ts] are bounded marches made one after the other, the
    first from the state [g] of the manager, each from the state the one
    before left, the last leaving [g']: the march of a trial starts at the
    trial's point along the trial's direction, and the length of the trial
    is the geometric length of the target along its segments, of which
    there are at most 100. *)
Fixpoint marched (g : G) (ts : list trial) (g' : G) : Prop :=
  match ts with
  | [] => g' = g
  | t :: ts' =>
      exists g1 segments,
        probe_march g (trial_point t) (trial_direction t) = Ret (g1, segments)
        /\ (List.length segments <= 100)%nat
        /\ trial_length t = geometric_length pdgc segments
        /\ marched g1 ts' g'
  end.
End Marches.

(** [m] is the greatest of 0 and the lengths of the trials: it is not
    negative, no trial has a length that compares greater, and it is 0 or
    the length of one of the trials. *)
Definition greatest_length (ts : list trial) (m : fp) : Prop :=
  nonneg m
  /\ (forall t, In t ts -> fltb m (trial_length t) = false)
  /\ (m = fz 0 \/ exists t, In t ts /\ trial_length t = m).

(** A number between [o - d] and [o + d]. *)
Definition within (o d x : fp) : Prop :=
  match o, d, x with
  | Fin o', Fin d', Fin x' => (o' - d' <= x' <= o' + d')%Q
  | _, _, _ => False
  end.

(** The point lies on the face of the box: in the plane of the face, and
    within the extent of the box along the two other axes. *)
Definition in_face (f : face) (box : TGeoBBox) (xyz : cursor) : Prop :=
  let '(ox, oy, oz) := GetOrigin box in
  match f with
  | top => yy xyz = fadd oy (GetDY box)
           /\ within ox (GetDX box) (xx xyz) /\ within oz (GetDZ box) (zz xyz)
  | bottom => yy xyz = fsub oy (GetDY box)
              /\ within ox (GetDX box) (xx xyz) /\ within oz (GetDZ box) (zz xyz)
  | left => xx xyz = fsub ox (GetDX box)
            /\ within oy (GetDY box) (yy xyz) /\ within oz (GetDZ box) (zz xyz)
  | right => xx xyz = fadd ox (GetDX box)
             /\ within oy (GetDY box) (yy xyz) /\ within oz (GetDZ box) (zz xyz)
  | back => zz xyz = fsub oz (GetDZ box)
            /\ within ox (GetDX box) (xx xyz) /\ within oy (GetDY box) (yy xyz)
  | front => zz xyz = fadd oz (GetDZ box)
             /\ within ox (GetDX box) (xx xyz) /\ within oy (GetDY box) (yy xyz)
  end.

(** A box with a finite origin and finite half-lengths that are not
    negative. *)
Definition proper_box (box : TGeoBBox) : Prop :=
  exists ox oy oz dx dy dz,
    GetOrigin box = (Fin ox, Fin oy, Fin oz)
    /\ GetDX box = Fin dx /\ GetDY box = Fin dy /\ GetDZ box = Fin dz
    /\ (0 <= dx)%Q /\ (0 <= dy)%Q /\ (0 <= dz)%Q.

(** The draws of the stream lie between 0 and 1. *)
Definition draws_unit {R : Type} (T : TRandom R) : Prop :=
  forall r, exists q, fst (Rndm r) = Fin q /\ (0 <= q <= 1)%Q.

(** The trials of one point of a face: [rays] of them, all of the face
    [f] and from one point on it, each along an inward direction. *)
Definition point_trials (box : TGeoBBox) (rays : nat) (f : face)
           (b : list trial) : Prop :=
  exists xyz,
    in_face f box xyz /\ List.length b = rays
    /\ Forall (fun t => trial_face t = f /\ trial_point t = xyz
                        /\ inward f (trial_direction t)) b.

(** The trials of one face: [points] blocks of [rays] trials. *)
Definition face_trials (box : TGeoBBox) (points rays : nat) (f : face)
           (bs : list (list trial)) : Prop :=
  List.length bs = points /\ Forall (point_trials box rays f) bs.

(** * Properties *)

(** ** The outcome monad *)

Lemma bind_Ret_inv {A B : Type} (c : outcome A) (k : A -> outcome B) (b : B) :
  bind c k = Ret b -> exists a, c = Ret a /\ k a = Ret b.
Proof.
  destruct c as [a| |]; simpl; intros E; try discriminate.
  exists a; split; [reflexivity | exact E].
Qed.

Ltac bind_inv H :=
  let a := fresh "r" in
  let E := fresh "E" in
  apply bind_Ret_inv in H; destruct H as [a [E H]].

(** ** More fuel changes no result *)

Section Fuel.
Context {G : Type} {M : TGeoManager G}.
Variable ion : Z -> Z -> Z.
Variable L : Type.
Variable add : Z -> fp -> L -> L.

Lemma until_entering_mono (f f' : nat) :
  (f <= f')%nat ->
  forall g s r, until_entering f g s = Ret r -> until_entering f' g s = Ret r.
Proof.
  revert f'. induction f as [|f IH]; intros f' Hle g s r E.
  - destruct f'; simpl in *; destruct (IsEntering g); congruence.
  - destruct f' as [|f']; [lia|]. simpl in *.
    destruct (IsEntering g); [exact E|].
    apply IH; [lia | exact E].
Qed.

Lemma next_boundary_mono (f f' : nat) (g : G) r :
  (f <= f')%nat -> next_boundary f g = Ret r -> next_boundary f' g = Ret r.
Proof. unfold next_boundary. intros Hle. now apply until_entering_mono. Qed.

Lemma element_loop_mono (f f' : nat) p :
  (f <= f')%nat ->
  forall es g l c r,
    element_loop ion L add f p es g l c = Ret r ->
    element_loop ion L add f' p es g l c = Ret r.
Proof.
  intros Hle es. induction es as [|e es IH]; intros g l c r E; simpl in *.
  - exact E.
  - bind_inv E. destruct r0 as [g' s].
    rewrite (next_boundary_mono f f' g _ Hle E0). simpl. now apply IH.
Qed.

Lemma record_material_mono (f f' : nat) p mat g l c r :
  (f <= f')%nat ->
  record_material ion L add f p mat g l c = Ret r ->
  record_material ion L add f' p mat g l c = Ret r.
Proof.
  unfold record_material. intros Hle E.
  destruct (mixture mat) as [es|].
  - now apply (element_loop_mono f f').
  - bind_inv E. destruct r0 as [g' s].
    now rewrite (next_boundary_mono f f' g _ Hle E0).
Qed.

Lemma CPL_body_mono (f f' : nat) p w r :
  (f <= f')%nat ->
  CPL_body ion L add f p w = Ret r ->
  CPL_body ion L add f' p w = Ret r.
Proof.
  unfold CPL_body. intros Hle E.
  destruct (GetCurrentVolume _) as [cur|]; [|discriminate].
  destruct (IsOutside _).
  - destruct (FlagNotInYet w); [exact E|].
    bind_inv E. destruct r0 as [g' s].
    now rewrite (next_boundary_mono f f' _ _ Hle E0).
  - destruct (GetMedium cur) as [med|]; [|discriminate].
    destruct (GetMaterial med) as [mat|]; [|discriminate].
    bind_inv E. destruct r0 as [[g' l'] c'].
    now rewrite (record_material_mono f f' _ _ _ _ _ _ Hle E0).
Qed.

Lemma CPL_loop_mono (sf sf' : nat) p :
  (sf <= sf')%nat ->
  forall f f' w r,
    (f <= f')%nat ->
    CPL_loop ion L add sf f p w = Ret r ->
    CPL_loop ion L add sf' f' p w = Ret r.
Proof.
  intros Hs f. induction f as [|f IH]; intros f' w r Hle E.
  - destruct f'; simpl in *;
      destruct (negb (FlagNotInYet w) || condition w); congruence.
  - destruct f' as [|f']; [lia|]. simpl in *.
    destruct (negb (FlagNotInYet w) || condition w); [|exact E].
    bind_inv E. destruct r0 as [brk w'].
    rewrite (CPL_body_mono sf sf' _ _ _ Hs E0). simpl.
    destruct brk; [exact E|]. apply IH; [lia | exact E].
Qed.

Lemma CPL_march_mono (f f' : nat) g l x p r :
  (f <= f')%nat ->
  CPL_march ion L add f g l x p = Ret r ->
  CPL_march ion L add f' g l x p = Ret r.
Proof. unfold CPL_march. intros Hle. now apply CPL_loop_mono. Qed.
End Fuel.

Lemma ComputePathLengths_mono {G : Type} {M : TGeoManager G} (ion : Z -> Z -> Z)
      (f f' : nat) (a : ROOTGeomAnalyzer G) (x p : TLorentzVector) r :
  (f <= f')%nat ->
  ComputePathLengths ion f a x p = Ret r ->
  ComputePathLengths ion f' a x p = Ret r.
Proof.
  unfold ComputePathLengths. intros Hle E.
  destruct (fGeometry a) as [g|]; [|discriminate].
  bind_inv E.
  now rewrite (CPL_march_mono ion _ _ f f' _ _ _ _ _ Hle E0).
Qed.

(** ** The single cube of oxygen *)

(** C2. In the geometry of a single cube of isotope A=16, Z=8 and density 1,
    centred at the origin with half-extent 10, [ComputePathLengths] from
    (-20,0,0) along (1,0,0) returns, whenever three loop passes are allowed,
    a list whose entry for isotope(16,8) is 20 and all of whose other
    entries are zero. *)
Theorem cube_path_length :
  exists a,
    loaded oxygen_cube = Ret a /\
    forall fuel, (3 <= fuel)%nat ->
      exists a' l,
        ComputePathLengths (M := Box.manager oxygen_cube) IonPdgCode fuel a
                           (vec (-20) 0 0) (vec 1 0 0) = Ret (a', l) /\
        PathLength (IonPdgCode 16 8) l = fz 20 /\
        (forall c, c <> IonPdgCode 16 8 -> PathLength c l = fz 0) /\
        forall c v, In (c, v) l -> v <> fz 0 -> c = IonPdgCode 16 8 /\ v = fz 20.
Proof.
  eexists. split; [vm_compute; reflexivity|].
  intros fuel Hfuel.
  eexists. exists [(IonPdgCode 16 8, fz 20)]. split; [|split; [|split]].
  - apply (ComputePathLengths_mono IonPdgCode 3 fuel); [exact Hfuel|].
    vm_compute. reflexivity.
  - reflexivity.
  - intros c Hc. cbn [PathLength].
    destruct (Z.eqb_spec (IonPdgCode 16 8) c) as [E|E]; [congruence | reflexivity].
  - intros c v [E|[]] _. inversion E. split; reflexivity.
Qed.

(** ** Logged segments and the path-length list *)

Lemma replay_log {L : Type} (add : Z -> fp -> L -> L) t c s (l : L) :
  replay add (log_segment c s t) l = add c s (replay add t l).
Proof. unfold replay, log_segment. now rewrite fold_left_app. Qed.

Section Replay.
Context {G : Type} {M : TGeoManager G}.
Variable ion : Z -> Z -> Z.
Variable L : Type.
Variable add : Z -> fp -> L -> L.
Variable l0 : L.

Let relog3 (r : G * segment_log * cursor) : G * L * cursor :=
  let '(g, t, c) := r in (g, replay add t l0, c).

Lemma element_loop_replay sfuel p es :
  forall g t c,
    element_loop ion L add sfuel p es g (replay add t l0) c =
    outcome_map relog3 (element_loop ion segment_log log_segment sfuel p es g t c).
Proof.
  induction es as [|e es IH]; intros g t c; simpl.
  - reflexivity.
  - destruct (next_boundary sfuel g) as [[g' s]| |]; simpl; try reflexivity.
    rewrite <- replay_log. apply IH.
Qed.

Lemma record_material_replay sfuel p mat g t c :
  record_material ion L add sfuel p mat g (replay add t l0) c =
  outcome_map relog3 (record_material ion segment_log log_segment sfuel p mat g t c).
Proof.
  unfold record_material. destruct (mixture mat) as [es|].
  - apply element_loop_replay.
  - destruct (next_boundary sfuel g) as [[g' s]| |]; simpl; try reflexivity.
    now rewrite replay_log.
Qed.

Lemma CPL_body_replay sfuel p w :
  CPL_body ion L add sfuel p (relog add l0 w) =
  outcome_map (fun r => (fst r, relog add l0 (snd r)))
              (CPL_body ion segment_log log_segment sfuel p w).
Proof.
  unfold CPL_body. cbn [relog w_geo w_cur w_acc FlagNotInYet condition].
  destruct (GetCurrentVolume _) as [cur|]; [|reflexivity].
  destruct (IsOutside _).
  - destruct (FlagNotInYet w); [reflexivity|].
    destruct (next_boundary sfuel _) as [[g' s]| |]; reflexivity.
  - destruct (GetMedium cur) as [med|]; [|reflexivity].
    destruct (GetMaterial med) as [mat|]; [|reflexivity].
    rewrite record_material_replay.
    destruct (record_material ion segment_log log_segment sfuel p mat _ _ _)
      as [[[g' t'] c']| |]; reflexivity.
Qed.

Lemma CPL_loop_replay sfuel p fuel :
  forall w,
    CPL_loop ion L add sfuel fuel p (relog add l0 w) =
    outcome_map (relog add l0) (CPL_loop ion segment_log log_segment sfuel fuel p w).
Proof.
  induction fuel as [|f IH]; intros w; simpl.
  - destruct (negb (FlagNotInYet w) || condition w); reflexivity.
  - destruct (negb (FlagNotInYet w) || condition w); [|reflexivity].
    rewrite CPL_body_replay.
    destruct (CPL_body ion segment_log log_segment sfuel p w) as [[brk w']| |];
      simpl; try reflexivity.
    destruct brk; [reflexivity | apply IH].
Qed.

Lemma CPL_march_replay fuel g x p :
  CPL_march ion L add fuel g l0 x p =
  outcome_map (relog add l0) (CPL_march ion segment_log log_segment fuel g [] x p).
Proof. unfold CPL_march. now rewrite <- CPL_loop_replay. Qed.
End Replay.

(** ** Mixtures *)

Lemma fadd_step (n : Z) (s : fp) :
  (0 < n)%Z -> fadd (fmul (fz n) s) s = fmul (fz (n + 1)) s.
Proof.
  intros Hn. destruct s as [q|]; [|reflexivity].
  unfold fadd, fmul, fp_lift2, fz. f_equal.
  apply Qred_complete. rewrite Qred_correct, inject_Z_plus. ring.
Qed.

Lemma fadd_first (s : fp) : fadd (fz 0) s = fmul (fz 1) s.
Proof.
  destruct s as [q|]; [|reflexivity].
  unfold fadd, fmul, fp_lift2, fz. f_equal.
  apply Qred_complete. ring.
Qed.

Lemma total_steps_repeat (ion : Z -> Z -> Z) (s : fp) (es : list TGeoElement) :
  es <> [] ->
  total_steps (map (fun e => (element_code ion e, s)) es)
  = fmul (fz (Z.of_nat (List.length es))) s.
Proof.
  destruct es as [|e es]; [congruence|]. intros _.
  unfold total_steps. cbn [map fold_left snd]. rewrite fadd_first.
  change 1%Z with (Z.of_nat 1).
  assert (H : forall n, (0 < n)%nat ->
            fold_left (fun acc e0 => fadd acc (snd e0))
                      (map (fun e0 => (element_code ion e0, s)) es)
                      (fmul (fz (Z.of_nat n)) s)
            = fmul (fz (Z.of_nat (n + List.length es))) s).
  { induction es as [|e' es IH]; intros n Hn; cbn [map fold_left snd List.length].
    - now rewrite Nat.add_0_r.
    - rewrite fadd_step by lia.
      replace (Z.of_nat n + 1)%Z with (Z.of_nat (S n)) by lia.
      rewrite IH by lia. f_equal. f_equal. lia. }
  rewrite (H 1%nat) by lia. reflexivity.
Qed.

(** ** The registered isotopes *)

Lemma push_all_incl (cs : list Z) :
  forall l, incl l (fold_left (fun l c => push_back c l) cs l)
            /\ incl cs (fold_left (fun l c => push_back c l) cs l).
Proof.
  induction cs as [|c cs IH]; intros l; simpl.
  - split; [apply incl_refl | intros x []].
  - destruct (IH (push_back c l)) as [H1 H2]. split.
    + intros x Hx. apply H1. unfold push_back. apply in_or_app. now left.
    + intros x [<-|Hx]; [|now apply H2].
      apply H1. unfold push_back. apply in_or_app. right. now left.
Qed.

Lemma volume_loop_registers (ion : Z -> Z -> Z) (vols : list TGeoVolume) :
  forall l codes,
    volume_loop ion vols l = Ret codes ->
    incl l codes /\
    forall v med mat,
      In v vols -> GetMedium v = Some med -> GetMaterial med = Some mat ->
      incl (material_codes ion mat) codes.
Proof.
  induction vols as [|v vols IH]; intros l codes E; simpl in E.
  - inversion E; subst. split; [apply incl_refl | intros ? ? ? []].
  - destruct (GetMedium v) as [med|] eqn:Emed; [|discriminate].
    destruct (GetMaterial med) as [mat|] eqn:Emat; [|discriminate].
    destruct (IH _ _ E) as [H1 H2].
    destruct (push_all_incl (material_codes ion mat) l) as [P1 P2].
    split.
    + intros x Hx. apply H1, P1, Hx.
    + intros v' med' mat' [<-|Hin] Hm Hmat.
      * rewrite Emed in Hm. inversion Hm; subst med'.
        rewrite Emat in Hmat. inversion Hmat; subst mat'.
        intros x Hx. apply H1, P2, Hx.
      * now apply (H2 v' med' mat').
Qed.

Section Registered.
Context {G : Type} {M : TGeoManager G}.
Variable ion : Z -> Z -> Z.

(** The manager resolves only volumes of its list, and navigation leaves
    the list as it is. *)
Hypothesis resolved_listed :
  forall g v, GetCurrentVolume g = Some v -> In v (GetListOfVolumes g).
Hypothesis direction_keeps_volumes :
  forall d0 d1 d2 g, GetListOfVolumes (SetCurrentDirection d0 d1 d2 g) = GetListOfVolumes g.
Hypothesis point_keeps_volumes :
  forall pt g, GetListOfVolumes (SetCurrentPoint pt g) = GetListOfVolumes g.
Hypothesis find_keeps_volumes :
  forall x y z g, GetListOfVolumes (FindNode x y z g) = GetListOfVolumes g.
Hypothesis boundary_keeps_volumes :
  forall g, GetListOfVolumes (FindNextBoundary g) = GetListOfVolumes g.
Hypothesis step_keeps_volumes :
  forall g, GetListOfVolumes (Step g) = GetListOfVolumes g.

Lemma until_entering_volumes fuel :
  forall g s g' s',
    until_entering fuel g s = Ret (g', s') ->
    GetListOfVolumes g' = GetListOfVolumes g.
Proof.
  induction fuel as [|f IH]; intros g s g' s' E; simpl in E.
  - destruct (IsEntering g); inversion E; reflexivity.
  - destruct (IsEntering g); [inversion E; reflexivity|].
    rewrite (IH _ _ _ _ E). apply step_keeps_volumes.
Qed.

Lemma next_boundary_volumes fuel g g' s :
  next_boundary fuel g = Ret (g', s) ->
  GetListOfVolumes g' = GetListOfVolumes g.
Proof.
  unfold next_boundary. intros E.
  rewrite (until_entering_volumes _ _ _ _ _ E). apply boundary_keeps_volumes.
Qed.

Lemma locate_volumes c g : GetListOfVolumes (locate c g) = GetListOfVolumes g.
Proof. unfold locate. now rewrite find_keeps_volumes, point_keeps_volumes. Qed.

Lemma log_within_snoc codes t c s :
  log_within codes t -> In c codes -> log_within codes (log_segment c s t).
Proof.
  intros Ht Hc c' s' Hin. unfold log_segment in Hin.
  apply in_app_or in Hin. destruct Hin as [Hin|[E|[]]].
  - now apply (Ht c' s').
  - inversion E; subst. exact Hc.
Qed.

Lemma element_loop_within sfuel p codes es :
  incl (map (element_code ion) es) codes ->
  forall g t c g' t' c',
    log_within codes t ->
    element_loop ion segment_log log_segment sfuel p es g t c = Ret (g', t', c') ->
    log_within codes t' /\ GetListOfVolumes g' = GetListOfVolumes g.
Proof.
  induction es as [|e es IH]; intros Hes g t c g' t' c' Ht E; simpl in E.
  - inversion E; subst. split; [exact Ht | reflexivity].
  - bind_inv E. destruct r as [g1 s].
    assert (He : In (element_code ion e) codes) by (apply Hes; now left).
    assert (Hes' : incl (map (element_code ion) es) codes)
      by (intros x Hx; apply Hes; now right).
    destruct (IH Hes' _ _ _ _ _ _ (log_within_snoc codes t _ s Ht He) E) as [H1 H2].
    split; [exact H1|]. rewrite H2. now apply (next_boundary_volumes sfuel g g1 s).
Qed.

Lemma record_material_within sfuel p codes mat g t c g' t' c' :
  incl (material_codes ion mat) codes ->
  log_within codes t ->
  record_material ion segment_log log_segment sfuel p mat g t c = Ret (g', t', c') ->
  log_within codes t' /\ GetListOfVolumes g' = GetListOfVolumes g.
Proof.
  unfold record_material, material_codes. intros Hm Ht E.
  destruct (mixture mat) as [es|].
  - now apply (element_loop_within sfuel p codes es Hm g t c g' t' c').
  - bind_inv E. destruct r as [g1 s]. inversion E; subst.
    split.
    + apply log_within_snoc; [exact Ht | apply Hm; now left].
    + now apply (next_boundary_volumes sfuel g g' s).
Qed.

Lemma CPL_body_within sfuel p codes w brk w' :
  volume_loop ion (GetListOfVolumes (w_geo w)) [] = Ret codes ->
  log_within codes (w_acc w) ->
  CPL_body ion segment_log log_segment sfuel p w = Ret (brk, w') ->
  log_within codes (w_acc w')
  /\ GetListOfVolumes (w_geo w') = GetListOfVolumes (w_geo w).
Proof.
  unfold CPL_body. intros Hreg Ht E.
  destruct (GetCurrentVolume _) as [cur|] eqn:Ecur; [|discriminate].
  destruct (IsOutside _).
  - destruct (FlagNotInYet w).
    + inversion E; subst; cbn. split; [exact Ht | apply locate_volumes].
    + bind_inv E. destruct r as [g1 s]. inversion E; subst; cbn.
      split; [exact Ht|].
      rewrite (next_boundary_volumes _ _ _ _ E0). apply locate_volumes.
  - destruct (GetMedium cur) as [med|] eqn:Emed; [|discriminate].
    destruct (GetMaterial med) as [mat|] eqn:Emat; [|discriminate].
    bind_inv E. destruct r as [[g1 t1] c1]. inversion E; subst; cbn.
    apply resolved_listed in Ecur. rewrite locate_volumes in Ecur.
    destruct (volume_loop_registers ion _ _ _ Hreg) as [_ Hvol].
    destruct (record_material_within sfuel p codes mat _ _ _ _ _ _
                (Hvol cur med mat Ecur Emed Emat) Ht E0) as [H1 H2].
    split; [exact H1|]. rewrite H2. apply locate_volumes.
Qed.

Lemma CPL_loop_within sfuel p codes fuel :
  forall w w',
    volume_loop ion (GetListOfVolumes (w_geo w)) [] = Ret codes ->
    log_within codes (w_acc w) ->
    CPL_loop ion segment_log log_segment sfuel fuel p w = Ret w' ->
    log_within codes (w_acc w')
    /\ GetListOfVolumes (w_geo w') = GetListOfVolumes (w_geo w).
Proof.
  induction fuel as [|f IH]; intros w w' Hreg Ht E; simpl in E.
  - destruct (negb (FlagNotInYet w) || condition w); [discriminate|].
    inversion E; subst. split; [exact Ht | reflexivity].
  - destruct (negb (FlagNotInYet w) || condition w);
      [|inversion E; subst; split; [exact Ht | reflexivity]].
    bind_inv E. destruct r as [brk w1].
    destruct (CPL_body_within sfuel p codes w brk w1 Hreg Ht E0) as [H1 H2].
    destruct brk.
    + inversion E; subst. split; [exact H1 | exact H2].
    + rewrite <- H2 in Hreg.
      destruct (IH w1 w' Hreg H1 E) as [H3 H4].
      split; [exact H3|]. now rewrite H4.
Qed.

Lemma Initialize_registered g0 m0 a :
  Initialize ion (Some g0) m0 = Ret a -> registered ion a.
Proof.
  unfold Initialize, BuildListOfTargetNuclei. intros E.
  bind_inv E. inversion E; subst. exists g0. split; [reflexivity | exact E0].
Qed.

Lemma ComputePathLengths_registered fuel a x p a' l :
  registered ion a ->
  ComputePathLengths ion fuel a x p = Ret (a', l) ->
  registered ion a'
  /\ fCurrPDGCodeList a' = fCurrPDGCodeList a
  /\ exists g w,
      fGeometry a = Some g
      /\ CPL_march ion segment_log log_segment fuel g [] x p = Ret w
      /\ l = replay AddPathLength (w_acc w) (SetAllToZero (fCurrPathLengthList a))
      /\ forall c s, In (c, s) (w_acc w) -> In c (fCurrPDGCodeList a).
Proof.
  intros [g [Hg Hreg]] E. unfold ComputePathLengths in E. rewrite Hg in E.
  rewrite (CPL_march_replay ion PathLengthList AddPathLength) in E.
  destruct (CPL_march ion segment_log log_segment fuel g [] x p) as [w| |] eqn:Ew;
    simpl in E; try discriminate.
  inversion E; subst; cbn. clear E.
  pose proof Ew as Hw. unfold CPL_march in Hw.
  apply (CPL_loop_within fuel p (fCurrPDGCodeList a)) in Hw; cbn.
  - destruct Hw as [H1 H2]. cbn in H2. rewrite direction_keeps_volumes in H2.
    split; [|split; [reflexivity|]].
    + exists (w_geo w). split; [reflexivity|]. cbn. now rewrite H2.
    + exists g, w. split; [exact Hg|]. split; [exact Ew|].
      split; [reflexivity | exact H1].
  - now rewrite direction_keeps_volumes.
  - intros c s [].
Qed.
End Registered.

(** ** What navigation leaves as it is

    [vols] is anything read off the manager that setting the point, finding
    the node, finding the next boundary and stepping do not change: the
    list of volumes, or the current direction. *)
Section Kept.
Context {G : Type} {M : TGeoManager G}.
Variable ion : Z -> Z -> Z.
Variable X : Type.
Variable vols : G -> X.
Hypothesis point_keeps : forall pt g, vols (SetCurrentPoint pt g) = vols g.
Hypothesis find_keeps : forall x y z g, vols (FindNode x y z g) = vols g.
Hypothesis boundary_keeps : forall g, vols (FindNextBoundary g) = vols g.
Hypothesis step_keeps : forall g, vols (Step g) = vols g.

Lemma next_boundary_keeps fuel g g' s :
  next_boundary fuel g = Ret (g', s) -> vols g' = vols g.
Proof.
  unfold next_boundary. intros E.
  assert (H : forall f g0 s0 g1 s1,
             until_entering f g0 s0 = Ret (g1, s1) -> vols g1 = vols g0).
  { induction f as [|f IH]; intros g0 s0 g1 s1 E1; simpl in E1.
    - destruct (IsEntering g0); inversion E1; reflexivity.
    - destruct (IsEntering g0); [inversion E1; reflexivity|].
      rewrite (IH _ _ _ _ E1). apply step_keeps. }
  rewrite (H _ _ _ _ _ E). apply boundary_keeps.
Qed.

Lemma locate_keeps c g : vols (locate c g) = vols g.
Proof. unfold locate. now rewrite find_keeps, point_keeps. Qed.

Lemma element_loop_keeps (L : Type) (add : Z -> fp -> L -> L) sfuel p es :
  forall g l c g' l' c',
    element_loop ion L add sfuel p es g l c = Ret (g', l', c') ->
    vols g' = vols g.
Proof.
  induction es as [|e es IH]; intros g l c g' l' c' E; simpl in E.
  - now inversion E.
  - bind_inv E. destruct r as [g2 s].
    rewrite (IH _ _ _ _ _ _ E). apply (next_boundary_keeps _ _ _ _ E0).
Qed.

Lemma CPL_body_keeps (L : Type) (add : Z -> fp -> L -> L) sfuel p w brk w' :
  CPL_body ion L add sfuel p w = Ret (brk, w') ->
  vols (w_geo w') = vols (w_geo w).
Proof.
  unfold CPL_body. intros E.
  destruct (GetCurrentVolume _) as [cur|]; [|discriminate].
  destruct (IsOutside _).
  - destruct (FlagNotInYet w).
    + inversion E; subst; cbn. apply locate_keeps.
    + bind_inv E. destruct r as [g1 s]. inversion E; subst; cbn.
      rewrite (next_boundary_keeps _ _ _ _ E0). apply locate_keeps.
  - destruct (GetMedium cur) as [med|]; [|discriminate].
    destruct (GetMaterial med) as [mat|]; [|discriminate].
    bind_inv E. destruct r as [[g1 l1] c1]. inversion E; subst; cbn.
    rewrite <- (locate_keeps (w_cur w) (w_geo w)).
    unfold record_material in E0. destruct (mixture mat) as [es|].
    + apply (element_loop_keeps _ _ _ _ _ _ _ _ _ _ _ E0).
    + bind_inv E0. destruct r as [g2 s]. inversion E0; subst.
      apply (next_boundary_keeps _ _ _ _ E1).
Qed.

Lemma CPL_loop_keeps (L : Type) (add : Z -> fp -> L -> L) sfuel p fuel :
  forall w w',
    CPL_loop ion L add sfuel fuel p w = Ret w' ->
    vols (w_geo w') = vols (w_geo w).
Proof.
  induction fuel as [|f IH]; intros w w' E; simpl in E.
  - destruct (negb (FlagNotInYet w) || condition w); [discriminate|].
    now inversion E.
  - destruct (negb (FlagNotInYet w) || condition w); [|now inversion E].
    bind_inv E. destruct r as [brk w1].
    pose proof (CPL_body_keeps _ _ _ _ _ _ _ E0) as H1.
    destruct brk; [inversion E; subst; exact H1|].
    rewrite (IH _ _ E). exact H1.
Qed.

Lemma GV_scan_body_keeps (L : Type) (visit : Z -> fp -> Q -> L -> L) sfuel p w brk w' :
  GV_scan_body ion L visit sfuel p w = Ret (brk, w') ->
  vols (w_geo w') = vols (w_geo w).
Proof.
  unfold GV_scan_body. intros E.
  destruct (GetCurrentVolume _) as [cur|]; [|discriminate].
  destruct (IsOutside _).
  - destruct (FlagNotInYet w).
    + inversion E; subst; cbn. apply locate_keeps.
    + bind_inv E. destruct r as [g1 s]. inversion E; subst; cbn.
      rewrite (next_boundary_keeps _ _ _ _ E0). apply locate_keeps.
  - destruct (GetMedium cur) as [med|]; [|discriminate].
    destruct (GetMaterial med) as [mat|]; [|discriminate].
    bind_inv E. destruct r as [g1 s]. inversion E; subst; cbn.
    rewrite (next_boundary_keeps _ _ _ _ E0). apply locate_keeps.
Qed.

Lemma GV_scan_loop_keeps (L : Type) (visit : Z -> fp -> Q -> L -> L) sfuel p fuel :
  forall w w',
    GV_scan_loop ion L visit sfuel fuel p w = Ret w' ->
    vols (w_geo w') = vols (w_geo w).
Proof.
  induction fuel as [|f IH]; intros w w' E; simpl in E.
  - destruct (negb (FlagNotInYet w) || condition w); [discriminate|].
    now inversion E.
  - destruct (negb (FlagNotInYet w) || condition w); [|now inversion E].
    bind_inv E. destruct r as [brk w1].
    pose proof (GV_scan_body_keeps _ _ _ _ _ _ _ E0) as H1.
    destruct brk; [inversion E; subst; exact H1|].
    rewrite (IH _ _ E). exact H1.
Qed.

Lemma GV_place_body_keeps p tgt w brk w' :
  GV_place_body ion p tgt w = Ret (brk, w') ->
  vols (w_geo w') = vols (w_geo w).
Proof.
  unfold GV_place_body. intros E.
  destruct (GetCurrentVolume _) as [cur|]; [|discriminate].
  destruct (IsOutside _).
  - inversion E; subst; cbn. apply locate_keeps.
  - destruct (GetMedium cur) as [med|]; [|discriminate].
    destruct (GetMaterial med) as [mat|]; [|discriminate].
    inversion E; subst; cbn. apply locate_keeps.
Qed.

Lemma GV_place_loop_keeps p tgt dv fuel :
  forall w w',
    GV_place_loop ion fuel p tgt dv w = Ret w' ->
    vols (w_geo w') = vols (w_geo w).
Proof.
  induction fuel as [|f IH]; intros w w' E; simpl in E.
  - destruct ((negb (FlagNotInYet w) || condition w) && fltb (w_acc w) dv);
      [discriminate | now inversion E].
  - destruct ((negb (FlagNotInYet w) || condition w) && fltb (w_acc w) dv);
      [|now inversion E].
    bind_inv E. destruct r as [brk w1].
    pose proof (GV_place_body_keeps _ _ _ _ _ E0) as H1.
    destruct brk; [inversion E; subst; exact H1|].
    rewrite (IH _ _ E). exact H1.
Qed.

Lemma CMPL_body_keeps (L : Type) (visit : TGeoMaterial -> Z -> fp -> L -> L)
      sfuel d0 d1 d2 w brk w' :
  CMPL_body ion L visit sfuel d0 d1 d2 w = Ret (brk, w') ->
  vols (w_geo w') = vols (w_geo w).
Proof.
  unfold CMPL_body. intros E.
  assert (Hout : forall o,
             o = (if FlagNotInYet w
                  then Ret (true, mkWalk (locate (w_cur w) (w_geo w)) (w_acc w)
                                         (w_cur w) (FlagNotInYet w) false)
                  else '(g', step) <- next_boundary sfuel (locate (w_cur w) (w_geo w)) ;;
                       Ret (false, mkWalk g' (w_acc w) (move step d0 d1 d2 (w_cur w))
                                          (FlagNotInYet w) false)) ->
             o = Ret (brk, w') -> vols (w_geo w') = vols (w_geo w)).
  { intros o -> Eo. destruct (FlagNotInYet w).
    - inversion Eo; subst; cbn. apply locate_keeps.
    - bind_inv Eo. destruct r as [g1 s]. inversion Eo; subst; cbn.
      rewrite (next_boundary_keeps _ _ _ _ E0). apply locate_keeps. }
  destruct (GetCurrentVolume _) as [cur|]; [|now apply (Hout _ eq_refl)].
  destruct (IsOutside _); [now apply (Hout _ eq_refl)|].
  destruct (GetMedium cur) as [med|];
    [|inversion E; subst; cbn; apply locate_keeps].
  destruct (GetMaterial med) as [mat|];
    [|inversion E; subst; cbn; apply locate_keeps].
  bind_inv E. destruct r as [g1 s]. inversion E; subst; cbn.
  rewrite (next_boundary_keeps _ _ _ _ E0). apply locate_keeps.
Qed.

Lemma CMPL_loop_keeps (L : Type) (visit : TGeoMaterial -> Z -> fp -> L -> L)
      sfuel d0 d1 d2 n :
  forall w w',
    CMPL_loop ion L visit sfuel n d0 d1 d2 w = Ret w' ->
    vols (w_geo w') = vols (w_geo w).
Proof.
  induction n as [|n IH]; intros w w' E; simpl in E.
  - destruct (negb (FlagNotInYet w) || condition w); now inversion E.
  - destruct (negb (FlagNotInYet w) || condition w); [|now inversion E].
    bind_inv E. destruct r as [brk w1].
    pose proof (CMPL_body_keeps _ _ _ _ _ _ _ _ _ E0) as H1.
    destruct brk; [inversion E; subst; exact H1|].
    rewrite (IH _ _ E). exact H1.
Qed.

End Kept.

Section VolumesKept.
Context {G : Type} {M : TGeoManager G} {R : Type} {T : TRandom R}.
Variable ion : Z -> Z -> Z.
Hypothesis contract : volumes_contract M.

Let vols (g : G) : list TGeoVolume := GetListOfVolumes g.
Let scan_keeps :=
  GV_scan_loop_keeps ion _ vols (contract_point M contract) (contract_find M contract)
                     (contract_boundary M contract) (contract_step M contract).
Let place_keeps :=
  GV_place_loop_keeps ion _ vols (contract_point M contract) (contract_find M contract).
Let probe_keeps :=
  CMPL_loop_keeps ion _ vols (contract_point M contract) (contract_find M contract)
                  (contract_boundary M contract) (contract_step M contract).

Lemma GenerateVertex_keeps fuel a r x p tgt a' r' v :
  GenerateVertex ion fuel a r x p tgt = Ret (a', r', v) ->
  fCurrPDGCodeList a' = fCurrPDGCodeList a
  /\ (registered ion a -> registered ion a').
Proof.
  unfold GenerateVertex. intros E.
  destruct (fGeometry a) as [g|] eqn:Eg.
  - bind_inv E. rename r0 into w.
    unfold GV_scan in E0. apply scan_keeps in E0. cbn in E0.
    assert (Hg : vols (w_geo w) = vols g).
    { rewrite E0. apply (contract_direction M contract). }
    destruct (feqb (w_acc w) (fz 0)).
    + inversion E; subst; cbn. split; [reflexivity|].
      intros [g0 [H0 Hreg]]. rewrite Eg in H0. inversion H0; subst g0.
      exists (w_geo w). split; [reflexivity|]. cbn. unfold vols in Hg.
      now rewrite Hg.
    + destruct (Rndm r) as [u r1].
      bind_inv E. rename r0 into w2. apply place_keeps in E1. cbn in E1.
      inversion E; subst; cbn. split; [reflexivity|].
      intros [g0 [H0 Hreg]]. rewrite Eg in H0. inversion H0; subst g0.
      exists (w_geo w2). split; [reflexivity|]. cbn. unfold vols in *.
      now rewrite E1, Hg.
  - inversion E; subst; cbn. split; [reflexivity|].
    intros [g0 [H0 _]]. rewrite Eg in H0. discriminate.
Qed.

Lemma ComputeMaxPathLength_keeps sfuel g xyz d pdgc g' len :
  ComputeMaxPathLength ion sfuel g xyz d pdgc = Ret (g', len) ->
  vols g' = vols g.
Proof.
  unfold ComputeMaxPathLength, CMPL_march. intros E.
  destruct d as [[d0 d1] d2]. bind_inv E. inversion E; subst.
  apply probe_keeps in E0. cbn in E0. rewrite E0.
  apply (contract_direction M contract).
Qed.

Lemma face_loop_keeps (L : Type) (note : face -> cursor -> fp * fp * fp -> fp -> L -> L)
      sfuel points rays box pdgc fs :
  forall g r acc g' r' acc',
    face_loop ion L note sfuel points rays fs box pdgc g r acc = Ret (g', r', acc') ->
    vols g' = vols g.
Proof.
  assert (Hray : forall f xyz n g r acc g' r' acc',
             ray_loop ion L note sfuel n f xyz pdgc g r acc = Ret (g', r', acc') ->
             vols g' = vols g).
  { intros f xyz n. induction n as [|n IH]; intros g r acc g' r' acc' E; simpl in E.
    - now inversion E.
    - destruct (face_direction f r) as [d r1].
      bind_inv E. destruct r0 as [g1 len].
      rewrite (IH _ _ _ _ _ _ E). now apply ComputeMaxPathLength_keeps in E0. }
  assert (Hpoint : forall f n g r acc g' r' acc',
             point_loop ion L note sfuel n rays f box pdgc g r acc = Ret (g', r', acc') ->
             vols g' = vols g).
  { intros f n. induction n as [|n IH]; intros g r acc g' r' acc' E; simpl in E.
    - now inversion E.
    - destruct (face_point f box r) as [xyz r1].
      bind_inv E. destruct r0 as [[g1 r2] acc1].
      rewrite (IH _ _ _ _ _ _ E). now apply Hray in E0. }
  induction fs as [|f fs IH]; intros g r acc g' r' acc' E; simpl in E.
  - now inversion E.
  - bind_inv E. destruct r0 as [[g1 r1] acc1].
    rewrite (IH _ _ _ _ _ _ E). now apply Hpoint in E0.
Qed.

Lemma SetVtxMaterial_keeps sfuel a r pdgc a' r' m :
  SetVtxMaterial ion sfuel a r pdgc = Ret (a', r', m) ->
  fCurrPDGCodeList a' = fCurrPDGCodeList a
  /\ (registered ion a -> registered ion a').
Proof.
  unfold SetVtxMaterial. intros E.
  destruct (fGeometry a) as [g|] eqn:Eg.
  - assert (Hsame : forall m0, registered ion a ->
                               registered ion (set_material a (Some g) m0)).
    { intros m0 [g0 [H0 Hreg]]. rewrite Eg in H0. inversion H0; subst g0.
      exists g. split; [reflexivity | exact Hreg]. }
    destruct (negb (ExistsInPDGCodeList pdgc (fCurrPDGCodeList a))).
    { inversion E; subst. split; [reflexivity | apply Hsame]. }
    destruct (find_world (GetListOfVolumes g)) as [W|].
    + bind_inv E. destruct r0 as [[g1 r1] mp]. inversion E; subst; cbn.
      apply face_loop_keeps in E0. split; [reflexivity|].
      intros [g0 [H0 Hreg]]. rewrite Eg in H0. inversion H0; subst g0.
      exists g1. split; [reflexivity|]. cbn. unfold vols in E0. now rewrite E0.
    + inversion E; subst. split; [reflexivity | apply Hsame].
  - inversion E; subst; cbn. split; [reflexivity|].
    intros [g0 [H0 _]]. rewrite Eg in H0. discriminate.
Qed.

(** C7. Under the manager's contract on its volumes: the list built at load
    time registers every isotope of every volume; every isotope identifier
    [ComputePathLengths] adds to the path-length list is a member of that
    list; and no call ([ComputePathLengths], [GenerateVertex],
    [SetVtxMaterial]) changes the list or the fact that it is the list of
    the loaded geometry. *)
Theorem added_isotopes_are_registered :
  (forall g0 m0 a, Initialize ion (Some g0) m0 = Ret a -> registered ion a)
  /\ (forall fuel a x p a' l,
         registered ion a ->
         ComputePathLengths ion fuel a x p = Ret (a', l) ->
         registered ion a'
         /\ fCurrPDGCodeList a' = fCurrPDGCodeList a
         /\ exists g w,
             fGeometry a = Some g
             /\ CPL_march ion segment_log log_segment fuel g [] x p = Ret w
             /\ l = replay AddPathLength (w_acc w)
                           (SetAllToZero (fCurrPathLengthList a))
             /\ forall c s, In (c, s) (w_acc w) -> In c (fCurrPDGCodeList a))
  /\ (forall fuel a r x p tgt a' r' v,
         GenerateVertex ion fuel a r x p tgt = Ret (a', r', v) ->
         fCurrPDGCodeList a' = fCurrPDGCodeList a
         /\ (registered ion a -> registered ion a'))
  /\ (forall sfuel a r pdgc a' r' m,
         SetVtxMaterial ion sfuel a r pdgc = Ret (a', r', m) ->
         fCurrPDGCodeList a' = fCurrPDGCodeList a
         /\ (registered ion a -> registered ion a')).
Proof.
  split; [|split; [|split]].
  - intros g0 m0 a. apply Initialize_registered.
  - intros fuel a x p a' l. destruct contract.
    now apply ComputePathLengths_registered.
  - intros fuel a r x p tgt a' r' v. apply GenerateVertex_keeps.
  - intros sfuel a r pdgc a' r' m. apply SetVtxMaterial_keeps.
Qed.
End VolumesKept.

(** ** Repeated calls *)

Lemma SetAllToZero_add c s l : SetAllToZero (AddPathLength c s l) = SetAllToZero l.
Proof.
  unfold SetAllToZero, AddPathLength. rewrite map_map. apply map_ext.
  intros [k v]; cbn. now destruct (k =? c)%Z.
Qed.

Lemma SetAllToZero_replay t : forall l,
  SetAllToZero (replay AddPathLength t l) = SetAllToZero l.
Proof.
  unfold replay. induction t as [|[c s] t IH]; intros l; cbn.
  - reflexivity.
  - rewrite IH. apply SetAllToZero_add.
Qed.

Lemma SetAllToZero_idem l : SetAllToZero (SetAllToZero l) = SetAllToZero l.
Proof. unfold SetAllToZero. rewrite map_map. now apply map_ext. Qed.

Section Repeat.
Context {G : Type} {M : TGeoManager G}.
Variable ion : Z -> Z -> Z.
Variables same_geometry same_track same_nav : G -> G -> Prop.
Hypothesis contract : navigation_contract M same_geometry same_track same_nav.
Variable L : Type.
Variable add : Z -> fp -> L -> L.

Let step_rel (r r' : G * fp) : Prop := same_nav (fst r) (fst r') /\ snd r = snd r'.

Lemma until_entering_sim fuel :
  forall g g' s,
    same_nav g g' ->
    outcome_rel step_rel (until_entering fuel g s) (until_entering fuel g' s).
Proof.
  induction fuel as [|f IH]; intros g g' s H; simpl;
    rewrite <- (nav_entering _ _ _ _ contract g g' H);
    destruct (IsEntering g); try (split; [exact H | reflexivity]).
  - exact I.
  - rewrite <- (nav_get_step _ _ _ _ contract _ _ (nav_step _ _ _ _ contract g g' H)).
    apply IH. now apply (nav_step _ _ _ _ contract).
Qed.

Lemma next_boundary_sim fuel g g' :
  same_nav g g' ->
  outcome_rel step_rel (next_boundary fuel g) (next_boundary fuel g').
Proof.
  intros H. unfold next_boundary.
  pose proof (nav_boundary _ _ _ _ contract g g' H) as Hb.
  rewrite <- (nav_get_step _ _ _ _ contract _ _ Hb).
  now apply until_entering_sim.
Qed.

Let seg_rel (r r' : G * L * cursor) : Prop :=
  same_nav (fst (fst r)) (fst (fst r')) /\ snd (fst r) = snd (fst r') /\ snd r = snd r'.

Lemma element_loop_sim sfuel p es :
  forall g g' l c,
    same_nav g g' ->
    outcome_rel seg_rel (element_loop ion L add sfuel p es g l c)
                        (element_loop ion L add sfuel p es g' l c).
Proof.
  induction es as [|e es IH]; intros g g' l c H; simpl.
  - repeat split. exact H.
  - pose proof (next_boundary_sim sfuel g g' H) as Hn.
    destruct (next_boundary sfuel g) as [[g1 s1]| |],
             (next_boundary sfuel g') as [[g2 s2]| |]; simpl in *;
      try contradiction; try exact I.
    destruct Hn as [Hg Hs]. cbn in Hg, Hs. subst s2. now apply IH.
Qed.

Lemma record_material_sim sfuel p mat g g' l c :
  same_nav g g' ->
  outcome_rel seg_rel (record_material ion L add sfuel p mat g l c)
                      (record_material ion L add sfuel p mat g' l c).
Proof.
  intros H. unfold record_material. destruct (mixture mat) as [es|].
  - now apply element_loop_sim.
  - pose proof (next_boundary_sim sfuel g g' H) as Hn.
    destruct (next_boundary sfuel g) as [[g1 s1]| |],
             (next_boundary sfuel g') as [[g2 s2]| |]; simpl in *;
      try contradiction; try exact I.
    destruct Hn as [Hg Hs]. cbn in Hg, Hs. subst s2. repeat split. exact Hg.
Qed.

Let body_rel (r r' : bool * walk G L) : Prop :=
  fst r = fst r' /\ walk_rel same_nav (snd r) (snd r').

Lemma CPL_body_sim sfuel p w w' :
  walk_rel same_track w w' ->
  outcome_rel body_rel (CPL_body ion L add sfuel p w) (CPL_body ion L add sfuel p w').
Proof.
  intros [Hg [Ha [Hc [Hf Hcd]]]]. unfold CPL_body.
  rewrite <- Ha, <- Hc, <- Hf.
  assert (Hloc : same_nav (locate (w_cur w) (w_geo w)) (locate (w_cur w) (w_geo w')))
    by (unfold locate; now apply (nav_locate _ _ _ _ contract)).
  rewrite <- (nav_volume _ _ _ _ contract _ _ Hloc).
  rewrite <- (nav_outside _ _ _ _ contract _ _ Hloc).
  destruct (GetCurrentVolume _) as [cur|]; [|exact I].
  destruct (IsOutside _).
  - destruct (FlagNotInYet w).
    + repeat split. exact Hloc.
    + pose proof (next_boundary_sim sfuel _ _ Hloc) as Hn.
      destruct (next_boundary sfuel (locate (w_cur w) (w_geo w))) as [[g1 s1]| |],
               (next_boundary sfuel (locate (w_cur w) (w_geo w'))) as [[g2 s2]| |];
        simpl in *; try contradiction; try exact I.
      destruct Hn as [Hg1 Hs]. cbn in Hg1, Hs. subst s2. repeat split. exact Hg1.
  - destruct (GetMedium cur) as [med|]; [|exact I].
    destruct (GetMaterial med) as [mat|]; [|exact I].
    pose proof (record_material_sim sfuel p mat _ _ (w_acc w) (w_cur w) Hloc) as Hn.
    destruct (record_material ion L add sfuel p mat (locate (w_cur w) (w_geo w)) _ _)
      as [[[g1 l1] c1]| |],
      (record_material ion L add sfuel p mat (locate (w_cur w) (w_geo w')) _ _)
      as [[[g2 l2] c2]| |]; simpl in *; try contradiction; try exact I.
    destruct Hn as [Hg1 [Hl Hcc]]. cbn in Hg1, Hl, Hcc. subst. repeat split.
    exact Hg1.
Qed.

Lemma CPL_loop_sim sfuel p fuel :
  forall w w',
    walk_rel same_track w w' ->
    outcome_rel (walk_rel same_track)
                (CPL_loop ion L add sfuel fuel p w) (CPL_loop ion L add sfuel fuel p w').
Proof.
  induction fuel as [|f IH]; intros w w' Hw;
    pose proof Hw as [Hg [Ha [Hc [Hf Hcd]]]]; simpl; rewrite <- Hf, <- Hcd.
  - destruct (negb (FlagNotInYet w) || condition w); [exact I | exact Hw].
  - destruct (negb (FlagNotInYet w) || condition w); [|exact Hw].
    pose proof (CPL_body_sim sfuel p w w' Hw) as Hb.
    destruct (CPL_body ion L add sfuel p w) as [[brk w1]| |],
             (CPL_body ion L add sfuel p w') as [[brk' w1']| |];
      simpl in *; try contradiction; try exact I.
    destruct Hb as [Hbrk Hrel]. cbn in Hbrk, Hrel. subst brk'.
    assert (Ht : walk_rel same_track w1 w1').
    { destruct Hrel as [H1 H2]. split; [|exact H2].
      now apply (nav_track _ _ _ _ contract). }
    destruct brk; [exact Ht | now apply IH].
Qed.

Lemma CPL_march_sim fuel g g' l x p :
  same_geometry g g' ->
  outcome_rel (walk_rel same_track)
              (CPL_march ion L add fuel g l x p) (CPL_march ion L add fuel g' l x p).
Proof.
  intros H. unfold CPL_march. apply CPL_loop_sim.
  repeat split. cbn. now apply (track_direction _ _ _ _ contract).
Qed.

(** Navigation never leaves the geometry it started on. *)
Lemma until_entering_geometry fuel :
  forall g s g' s', until_entering fuel g s = Ret (g', s') -> same_geometry g g'.
Proof.
  induction fuel as [|f IH]; intros g s g' s' E; simpl in E.
  - destruct (IsEntering g); inversion E; subst. apply (geometry_refl _ _ _ _ contract).
  - destruct (IsEntering g).
    + inversion E; subst. apply (geometry_refl _ _ _ _ contract).
    + apply (geometry_trans _ _ _ _ contract _ (Step g));
        [apply (geometry_step _ _ _ _ contract) | now apply IH in E].
Qed.

Lemma next_boundary_geometry fuel g g' s :
  next_boundary fuel g = Ret (g', s) -> same_geometry g g'.
Proof.
  unfold next_boundary. intros E.
  apply (geometry_trans _ _ _ _ contract _ (FindNextBoundary g));
    [apply (geometry_boundary _ _ _ _ contract) | now apply until_entering_geometry in E].
Qed.

Lemma locate_geometry c g : same_geometry g (locate c g).
Proof.
  unfold locate.
  apply (geometry_trans _ _ _ _ contract _ (SetCurrentPoint (xx c, yy c, zz c) g));
    [apply (geometry_point _ _ _ _ contract) | apply (geometry_find _ _ _ _ contract)].
Qed.

Lemma element_loop_geometry sfuel p es :
  forall g l c g' l' c',
    element_loop ion L add sfuel p es g l c = Ret (g', l', c') -> same_geometry g g'.
Proof.
  induction es as [|e es IH]; intros g l c g' l' c' E; simpl in E.
  - inversion E; subst. apply (geometry_refl _ _ _ _ contract).
  - bind_inv E. destruct r as [g1 s].
    apply (geometry_trans _ _ _ _ contract _ g1);
      [now apply next_boundary_geometry in E0 | now apply IH in E].
Qed.

Lemma CPL_body_geometry sfuel p w brk w' :
  CPL_body ion L add sfuel p w = Ret (brk, w') -> same_geometry (w_geo w) (w_geo w').
Proof.
  unfold CPL_body. intros E.
  apply (geometry_trans _ _ _ _ contract _ (locate (w_cur w) (w_geo w)));
    [apply locate_geometry|].
  destruct (GetCurrentVolume _) as [cur|]; [|discriminate].
  destruct (IsOutside _).
  - destruct (FlagNotInYet w).
    + inversion E; subst; cbn. apply (geometry_refl _ _ _ _ contract).
    + bind_inv E. destruct r as [g1 s]. inversion E; subst; cbn.
      now apply next_boundary_geometry in E0.
  - destruct (GetMedium cur) as [med|]; [|discriminate].
    destruct (GetMaterial med) as [mat|]; [|discriminate].
    bind_inv E. destruct r as [[g1 l1] c1]. inversion E; subst; cbn.
    unfold record_material in E0. destruct (mixture mat) as [es|].
    + now apply element_loop_geometry in E0.
    + bind_inv E0. destruct r as [g2 s]. inversion E0; subst.
      now apply next_boundary_geometry in E1.
Qed.

Lemma CPL_loop_geometry sfuel p fuel :
  forall w w',
    CPL_loop ion L add sfuel fuel p w = Ret w' -> same_geometry (w_geo w) (w_geo w').
Proof.
  induction fuel as [|f IH]; intros w w' E; simpl in E.
  - destruct (negb (FlagNotInYet w) || condition w); [discriminate|].
    inversion E; subst. apply (geometry_refl _ _ _ _ contract).
  - destruct (negb (FlagNotInYet w) || condition w);
      [|inversion E; subst; apply (geometry_refl _ _ _ _ contract)].
    bind_inv E. destruct r as [brk w1].
    apply CPL_body_geometry in E0.
    destruct brk; [now inversion E; subst|].
    apply (geometry_trans _ _ _ _ contract _ (w_geo w1)); [exact E0 | now apply IH].
Qed.

Lemma CPL_march_geometry fuel g l x p w :
  CPL_march ion L add fuel g l x p = Ret w -> same_geometry g (w_geo w).
Proof.
  unfold CPL_march. intros E. apply CPL_loop_geometry in E. cbn in E.
  apply (geometry_trans _ _ _ _ contract _ _ _ (geometry_direction _ _ _ _ contract _ _ _ g) E).
Qed.
End Repeat.

Section Idempotence.
Context {G : Type} {M : TGeoManager G}.
Variable ion : Z -> Z -> Z.
Variables same_geometry same_track same_nav : G -> G -> Prop.
Hypothesis contract : navigation_contract M same_geometry same_track same_nav.

Lemma ComputePathLengths_from_zero fuel a x p a1 l1 :
  ComputePathLengths ion fuel a x p = Ret (a1, l1) ->
  fCurrPathLengthList a1 = l1
  /\ SetAllToZero l1 = SetAllToZero (fCurrPathLengthList a)
  /\ exists g, fGeometry a = Some g
               /\ exists g1, fGeometry a1 = Some g1 /\ same_geometry g g1.
Proof.
  unfold ComputePathLengths. intros E.
  destruct (fGeometry a) as [g|]; [|discriminate].
  bind_inv E. rename r into w. inversion E; subst; cbn. clear E.
  split; [reflexivity|]. split.
  - rewrite (CPL_march_replay ion PathLengthList AddPathLength) in E0.
    destruct (CPL_march ion segment_log log_segment fuel g [] x p) as [wl| |];
      simpl in E0; try discriminate.
    inversion E0; subst; cbn.
    rewrite SetAllToZero_replay. apply SetAllToZero_idem.
  - exists g. split; [reflexivity|]. exists (w_geo w). split; [reflexivity|].
    exact (CPL_march_geometry ion same_geometry same_track same_nav contract
             PathLengthList AddPathLength fuel g _ x p w E0).
Qed.

Lemma ComputePathLengths_same_start fuel a b x p a1 l1 g gb :
  fGeometry a = Some g -> fGeometry b = Some gb ->
  same_geometry g gb ->
  SetAllToZero (fCurrPathLengthList b) = SetAllToZero (fCurrPathLengthList a) ->
  ComputePathLengths ion fuel a x p = Ret (a1, l1) ->
  exists b1, ComputePathLengths ion fuel b x p = Ret (b1, l1).
Proof.
  unfold ComputePathLengths. intros Ha Hb Hg Hl E.
  rewrite Ha in E. rewrite Hb, Hl.
  bind_inv E. rename r into w. inversion E; subst. clear E.
  pose proof (CPL_march_sim ion same_geometry same_track same_nav contract
                PathLengthList AddPathLength fuel g gb
                (SetAllToZero (fCurrPathLengthList a)) x p Hg) as Hsim.
  rewrite E0 in Hsim.
  destruct (CPL_march ion PathLengthList AddPathLength fuel gb _ x p) as [w'| |];
    simpl in Hsim; try contradiction.
  destruct Hsim as [_ [Hacc _]]. simpl. rewrite <- Hacc. eexists. reflexivity.
Qed.

(** C8. Over a manager whose navigation state is fixed by the geometry, the
    direction and the point set on it: a call of [ComputePathLengths] starts
    from the zeroed list whatever the list held; a second call with the same
    origin and direction, made on the state the first one left, returns the
    same list; and so does a call made on any other state over the same
    geometry with the same registered isotopes. *)
Theorem ComputePathLengths_repeatable
        (fuel : nat) (a : ROOTGeomAnalyzer G) (x p : TLorentzVector)
        (a1 : ROOTGeomAnalyzer G) (l1 : PathLengthList) :
  ComputePathLengths ion fuel a x p = Ret (a1, l1) ->
  (exists a2, ComputePathLengths ion fuel a1 x p = Ret (a2, l1))
  /\ (forall b g gb,
         fGeometry a = Some g -> fGeometry b = Some gb -> same_geometry g gb ->
         SetAllToZero (fCurrPathLengthList b) = SetAllToZero (fCurrPathLengthList a) ->
         exists b1, ComputePathLengths ion fuel b x p = Ret (b1, l1))
  /\ (exists g w,
         fGeometry a = Some g
         /\ CPL_march ion segment_log log_segment fuel g [] x p = Ret w
         /\ l1 = replay AddPathLength (w_acc w) (SetAllToZero (fCurrPathLengthList a))).
Proof.
  intros E.
  destruct (ComputePathLengths_from_zero fuel a x p a1 l1 E)
    as [Hl [Hz [g [Hg [g1 [Hg1 Hsame]]]]]].
  split; [|split].
  - apply (ComputePathLengths_same_start fuel a a1 x p a1 l1 g g1 Hg Hg1 Hsame);
      [now rewrite Hl | exact E].
  - intros b g' gb Hg' Hb Hgeo Hkeys. rewrite Hg in Hg'. inversion Hg'; subst g'.
    now apply (ComputePathLengths_same_start fuel a b x p a1 l1 g gb).
  - unfold ComputePathLengths in E. rewrite Hg in E.
    rewrite (CPL_march_replay ion PathLengthList AddPathLength) in E.
    destruct (CPL_march ion segment_log log_segment fuel g [] x p) as [w| |] eqn:Ew;
      simpl in E; try discriminate.
    inversion E; subst. exists g, w.
    split; [exact Hg|]. split; [exact Ew | reflexivity].
Qed.
End Idempotence.

(** The manager of one box, against the contracts. *)
Lemma box_volumes_contract (world : TGeoVolume) :
  volumes_contract (Box.manager world).
Proof.
  constructor; cbn; try reflexivity.
  intros g v E. inversion E. now left.
Qed.

Lemma box_navigation_contract (world : TGeoVolume) :
  navigation_contract (Box.manager world) (fun _ _ => True) box_same_track eq.
Proof.
  constructor; cbn; unfold box_same_track; try (intros; subst; reflexivity);
    try (intros; exact I).
  intros x y z pt g g' H. unfold Box.find. cbn. now rewrite H.
Qed.

Lemma added_isotopes_are_registered_witness :
  exists a a' l,
    loaded oxygen_cube = Ret a
    /\ ComputePathLengths (M := Box.manager oxygen_cube) IonPdgCode 3 a
                          (vec (-20) 0 0) (vec 1 0 0) = Ret (a', l)
    /\ registered (M := Box.manager oxygen_cube) IonPdgCode a'
    /\ fCurrPDGCodeList a' = fCurrPDGCodeList a.
Proof.
  destruct (added_isotopes_are_registered (M := Box.manager oxygen_cube)
              (T := Lcg.random) IonPdgCode (box_volumes_contract oxygen_cube))
    as [H1 [H2 _]].
  destruct (loaded oxygen_cube) as [a| |] eqn:Ea; try (vm_compute in Ea; discriminate).
  destruct (ComputePathLengths (M := Box.manager oxygen_cube) IonPdgCode 3 a
                               (vec (-20) 0 0) (vec 1 0 0)) as [[a' l]| |] eqn:Ec.
  - exists a, a', l. split; [reflexivity|]. split; [exact Ec|].
    destruct (H2 3%nat a (vec (-20) 0 0) (vec 1 0 0) a' l (H1 _ _ _ Ea) Ec)
      as [Hr [Hc _]].
    split; [exact Hr | exact Hc].
  - exfalso. vm_compute in Ea. inversion Ea; subst. vm_compute in Ec. discriminate.
  - exfalso. vm_compute in Ea. inversion Ea; subst. vm_compute in Ec. discriminate.
Defined.

Lemma ComputePathLengths_repeatable_witness :
  exists a a1 a2 l,
    loaded oxygen_cube = Ret a
    /\ ComputePathLengths (M := Box.manager oxygen_cube) IonPdgCode 3 a
                          (vec (-20) 0 0) (vec 1 0 0) = Ret (a1, l)
    /\ ComputePathLengths (M := Box.manager oxygen_cube) IonPdgCode 3 a1
                          (vec (-20) 0 0) (vec 1 0 0) = Ret (a2, l).
Proof.
  destruct (loaded oxygen_cube) as [a| |] eqn:Ea; try (vm_compute in Ea; discriminate).
  destruct (ComputePathLengths (M := Box.manager oxygen_cube) IonPdgCode 3 a
                               (vec (-20) 0 0) (vec 1 0 0)) as [[a1 l]| |] eqn:Ec.
  - destruct (ComputePathLengths_repeatable (M := Box.manager oxygen_cube) IonPdgCode
                _ _ _ (box_navigation_contract oxygen_cube) 3 a
                (vec (-20) 0 0) (vec 1 0 0) a1 l Ec) as [[a2 H2] _].
    exists a, a1, a2, l. split; [reflexivity|]. split; [exact Ec | exact H2].
  - exfalso. vm_compute in Ea. inversion Ea; subst. vm_compute in Ec. discriminate.
  - exfalso. vm_compute in Ea. inversion Ea; subst. vm_compute in Ec. discriminate.
Defined.

(** ** Leaving the traversal loop *)

Section Leaving.
Context {G : Type} {M : TGeoManager G}.
Variable ion : Z -> Z -> Z.
Variable L : Type.
Variable add : Z -> fp -> L -> L.

Let body := CPL_body ion L add.
Let loop := CPL_loop ion L add.
Let after := CPL_after ion L add.

Lemma body_break_inv sfuel p w w' :
  body sfuel p w = Ret (true, w') ->
  FlagNotInYet w = true /\ resolves_outside w = true /\ w' = left_at w.
Proof.
  unfold body, CPL_body, resolves_outside, left_at. intros E.
  destruct (GetCurrentVolume _) as [cur|]; [|discriminate].
  destruct (IsOutside _).
  - destruct (FlagNotInYet w) eqn:Ef.
    + inversion E; subst. repeat split.
    + bind_inv E. destruct r as [g1 s]. discriminate.
  - destruct (GetMedium cur) as [med|]; [|discriminate].
    destruct (GetMaterial med) as [mat|]; [|discriminate].
    bind_inv E. destruct r as [[g1 l1] c1]. discriminate.
Qed.

Lemma body_break_intro sfuel p w :
  GetCurrentVolume (locate (w_cur w) (w_geo w)) <> None ->
  FlagNotInYet w = true -> resolves_outside w = true ->
  body sfuel p w = Ret (true, left_at w).
Proof.
  unfold body, CPL_body, resolves_outside, left_at. intros Hc Hf Ho.
  destruct (GetCurrentVolume _) as [cur|]; [|congruence].
  rewrite Ho, Hf. reflexivity.
Qed.

Lemma body_continue sfuel p w w' :
  body sfuel p w = Ret (false, w') ->
  negb (FlagNotInYet w') || condition w' = true
  /\ FlagNotInYet w && resolves_outside w = false.
Proof.
  unfold body, CPL_body, resolves_outside. intros E.
  destruct (GetCurrentVolume _) as [cur|]; [|discriminate].
  destruct (IsOutside _).
  - destruct (FlagNotInYet w) eqn:Ef; [discriminate|].
    bind_inv E. destruct r as [g1 s]. inversion E; subst; cbn.
    split; reflexivity.
  - destruct (GetMedium cur) as [med|]; [|discriminate].
    destruct (GetMaterial med) as [mat|]; [|discriminate].
    bind_inv E. destruct r as [[g1 l1] c1]. inversion E; subst; cbn.
    split; [reflexivity | apply andb_false_r].
Qed.

(** Before the ray has entered, an outside cursor is moved on. *)
Lemma body_outside_before_entering sfuel p w g' step :
  GetCurrentVolume (locate (w_cur w) (w_geo w)) <> None ->
  FlagNotInYet w = false -> resolves_outside w = true ->
  next_boundary sfuel (locate (w_cur w) (w_geo w)) = Ret (g', step) ->
  body sfuel p w
  = Ret (false, mkWalk g' (w_acc w) (advance p step (w_cur w)) false false).
Proof.
  unfold body, CPL_body, resolves_outside. intros Hc Hf Ho Hn.
  destruct (GetCurrentVolume _) as [cur|]; [|congruence].
  rewrite Ho, Hf, Hn. reflexivity.
Qed.

Lemma loop_leaves sfuel p n :
  forall w wn w' fuel,
    negb (FlagNotInYet w) || condition w = true ->
    after sfuel p n w = Some wn ->
    body sfuel p wn = Ret (true, w') ->
    (n < fuel)%nat ->
    loop sfuel fuel p w = Ret w'.
Proof.
  unfold loop, after, body.
  induction n as [|n IH]; intros w wn w' fuel Hg Ha Hb Hlt;
    (destruct fuel as [|fuel]; [lia|]); simpl in *; rewrite Hg.
  - inversion Ha; subst. rewrite Hb. reflexivity.
  - destruct (CPL_body ion L add sfuel p w) as [[[|] w1]| |] eqn:E1; try discriminate.
    simpl. apply (IH w1 wn); try assumption; [|lia].
    now apply (body_continue sfuel p w w1).
Qed.

Lemma loop_left sfuel p fuel :
  forall w w',
    negb (FlagNotInYet w) || condition w = true ->
    loop sfuel fuel p w = Ret w' ->
    exists n wn,
      (n < fuel)%nat /\ after sfuel p n w = Some wn
      /\ body sfuel p wn = Ret (true, w').
Proof.
  unfold loop, after, body.
  induction fuel as [|fuel IH]; intros w w' Hg E; simpl in E; rewrite Hg in E.
  - discriminate.
  - bind_inv E. destruct r as [brk w1]. destruct brk.
    + inversion E; subst. exists 0%nat, w. split; [lia|]. split; [reflexivity|].
      exact E0.
    + destruct (IH w1 w' (proj1 (body_continue sfuel p w w1 E0)) E)
        as [n [wn [Hlt [Ha Hb]]]].
      exists (S n), wn. split; [lia|]. split; [|exact Hb].
      simpl. unfold body in E0. now rewrite E0.
Qed.

Lemma after_earlier sfuel p k :
  forall n w wn wk,
    (k < n)%nat ->
    after sfuel p n w = Some wn -> after sfuel p k w = Some wk ->
    FlagNotInYet wk && resolves_outside wk = false.
Proof.
  unfold after.
  induction k as [|k IH]; intros n w wn wk Hlt Hn Hk;
    (destruct n as [|n]; [lia|]); simpl in *.
  - inversion Hk; subst.
    destruct (CPL_body ion L add sfuel p wk) as [[[|] w1]| |] eqn:E1; try discriminate.
    now apply (body_continue sfuel p wk w1).
  - destruct (CPL_body ion L add sfuel p w) as [[[|] w1]| |] eqn:E1; try discriminate.
    apply (IH n w1 wn wk); [lia | exact Hn | exact Hk].
Qed.

End Leaving.

(** ** Zero momentum *)

Lemma fdiv_by_zero (a b : fp) : feqb b (fz 0) = true -> fdiv a b = NaN.
Proof.
  destruct b as [y|]; [|discriminate]. unfold feqb, fz, fdiv. intros H.
  change (inject_Z 0) with 0%Q in H.
  destruct a as [x|]; [|reflexivity]. now rewrite H.
Qed.

Section ZeroMomentum.
Context {G : Type} {M : TGeoManager G} {R : Type} {T : TRandom R}.
Variable ion : Z -> Z -> Z.
Variable GetCurrentDirection : G -> fp * fp * fp.
Hypothesis contract : direction_contract M GetCurrentDirection.

Let dir_point := direction_point M _ contract.
Let dir_find := direction_find M _ contract.
Let dir_boundary := direction_boundary M _ contract.
Let dir_step := direction_step M _ contract.

(** C9, as the code has it. Nothing guards the division by the magnitude:
    with a geometry loaded and a momentum of magnitude zero, the three
    quotients handed to [SetCurrentDirection] are not finite, and whenever
    [ComputePathLengths] or [GenerateVertex] returns, it returns normally
    from a traversal made along that direction, which the manager still
    holds. *)
Theorem normalisation_is_not_guarded
        (fuel : nat) (a : ROOTGeomAnalyzer G) (g : G) (x p : TLorentzVector) :
  fGeometry a = Some g ->
  feqb (P p) (fz 0) = true ->
  (fdiv (Px p) (P p) = NaN /\ fdiv (Py p) (P p) = NaN /\ fdiv (Pz p) (P p) = NaN)
  /\ (forall a' l,
         ComputePathLengths ion fuel a x p = Ret (a', l) ->
         left_direction GetCurrentDirection a' = Some (NaN, NaN, NaN))
  /\ (forall r tgt a' r' v,
         GenerateVertex ion fuel a r x p tgt = Ret (a', r', v) ->
         left_direction GetCurrentDirection a' = Some (NaN, NaN, NaN)).
Proof.
  intros Hg Hp.
  pose proof (fdiv_by_zero (Px p) (P p) Hp) as H0.
  pose proof (fdiv_by_zero (Py p) (P p) Hp) as H1.
  pose proof (fdiv_by_zero (Pz p) (P p) Hp) as H2.
  split; [repeat split; assumption|]. split.
  - intros a' l E. unfold ComputePathLengths in E. rewrite Hg in E.
    bind_inv E. rename r into w. inversion E; subst. clear E.
    unfold CPL_march in E0. rewrite H0, H1, H2 in E0.
    apply (CPL_loop_keeps ion _ GetCurrentDirection dir_point dir_find
                          dir_boundary dir_step) in E0.
    cbn in E0. unfold left_direction; cbn. rewrite E0.
    now rewrite (direction_set M _ contract).
  - intros r tgt a' r' v E. unfold GenerateVertex in E. rewrite Hg in E.
    bind_inv E. rename r0 into w.
    unfold GV_scan in E0. rewrite H0, H1, H2 in E0.
    apply (GV_scan_loop_keeps ion _ GetCurrentDirection dir_point dir_find
                              dir_boundary dir_step) in E0.
    cbn in E0. rewrite (direction_set M _ contract) in E0.
    destruct (feqb (w_acc w) (fz 0)).
    + inversion E; subst. unfold left_direction; cbn. now rewrite E0.
    + destruct (Rndm r) as [u r1]. bind_inv E. rename r0 into w2.
      apply (GV_place_loop_keeps ion _ GetCurrentDirection dir_point dir_find) in E1.
      cbn in E1. inversion E; subst. unfold left_direction; cbn.
      now rewrite E1, E0.
Qed.
End ZeroMomentum.

Lemma box_direction_contract (world : TGeoVolume) :
  direction_contract (Box.manager world) Box.dir.
Proof. constructor; reflexivity. Qed.

Lemma normalisation_is_not_guarded_witness :
  exists a a' l,
    loaded oxygen_cube = Ret a
    /\ ComputePathLengths (M := Box.manager oxygen_cube) IonPdgCode 2 a
                          (vec 0 0 0) (vec 0 0 0) = Ret (a', l)
    /\ left_direction Box.dir a' = Some (NaN, NaN, NaN).
Proof.
  destruct (loaded oxygen_cube) as [a| |] eqn:Ea; try (vm_compute in Ea; discriminate).
  destruct (ComputePathLengths (M := Box.manager oxygen_cube) IonPdgCode 2 a
                               (vec 0 0 0) (vec 0 0 0)) as [[a' l]| |] eqn:Ec.
  - exists a, a', l. split; [reflexivity|]. split; [exact Ec|].
    destruct (normalisation_is_not_guarded (M := Box.manager oxygen_cube)
                (T := Lcg.random) IonPdgCode Box.dir
                (box_direction_contract oxygen_cube) 2 a Box.start
                (vec 0 0 0) (vec 0 0 0)) as [_ [H _]].
    + vm_compute in Ea. inversion Ea. reflexivity.
    + reflexivity.
    + exact (H a' l Ec).
  - exfalso. vm_compute in Ea. inversion Ea; subst. vm_compute in Ec. discriminate.
  - exfalso. vm_compute in Ea. inversion Ea; subst. vm_compute in Ec. discriminate.
Defined.

(** C9, as stated, fails: in the cube of oxygen, from its centre and with
    zero momentum, the magnitude is zero, and both [ComputePathLengths] and
    [GenerateVertex] return normally, having navigated along a non-finite
    direction; the path length and the vertex they return are not finite. *)
Lemma zero_momentum_is_divided_by :
  feqb (P (vec 0 0 0)) (fz 0) = true
  /\ exists a a1 a2 r2,
      loaded oxygen_cube = Ret a
      /\ ComputePathLengths (M := Box.manager oxygen_cube) IonPdgCode 2 a
                            (vec 0 0 0) (vec 0 0 0)
         = Ret (a1, [(IonPdgCode 16 8, NaN)])
      /\ left_direction Box.dir a1 = Some (NaN, NaN, NaN)
      /\ GenerateVertex (M := Box.manager oxygen_cube) (T := Lcg.random)
                        IonPdgCode 2 a 1%Z (vec 0 0 0) (vec 0 0 0) (IonPdgCode 16 8)
         = Ret (a2, r2, (NaN, NaN, NaN))
      /\ left_direction Box.dir a2 = Some (NaN, NaN, NaN).
Proof.
  split; [reflexivity|].
  do 4 eexists. split; [vm_compute; reflexivity|].
  split; [vm_compute; reflexivity|].
  split; [vm_compute; reflexivity|].
  split; vm_compute; reflexivity.
Qed.

(** ** Sampling misses *)

Section ScanReplay.
Context {G : Type} {M : TGeoManager G}.
Variable ion : Z -> Z -> Z.
Variable L : Type.
Variable visit : Z -> fp -> Q -> L -> L.
Variable l0 : L.

Lemma replay_scan_log t c s d :
  replay_scan visit (log_scan c s d t) l0 = visit c s d (replay_scan visit t l0).
Proof. unfold replay_scan, log_scan. now rewrite fold_left_app. Qed.

Lemma GV_scan_body_replay sfuel p w :
  GV_scan_body ion L visit sfuel p (relog_scan visit l0 w) =
  outcome_map (fun r => (fst r, relog_scan visit l0 (snd r)))
              (GV_scan_body ion scan_log log_scan sfuel p w).
Proof.
  unfold GV_scan_body. cbn [relog_scan w_geo w_cur w_acc FlagNotInYet condition].
  destruct (GetCurrentVolume _) as [cur|]; [|reflexivity].
  destruct (IsOutside _).
  - destruct (FlagNotInYet w); [reflexivity|].
    destruct (next_boundary sfuel _) as [[g' s]| |]; reflexivity.
  - destruct (GetMedium cur) as [med|]; [|reflexivity].
    destruct (GetMaterial med) as [mat|]; [|reflexivity].
    destruct (next_boundary sfuel _) as [[g' s]| |]; try reflexivity.
    cbn [bind outcome_map fst snd].
    unfold relog_scan; cbn [w_geo w_acc w_cur FlagNotInYet condition].
    now rewrite replay_scan_log.
Qed.

Lemma GV_scan_loop_replay sfuel p fuel :
  forall w,
    GV_scan_loop ion L visit sfuel fuel p (relog_scan visit l0 w) =
    outcome_map (relog_scan visit l0)
                (GV_scan_loop ion scan_log log_scan sfuel fuel p w).
Proof.
  induction fuel as [|f IH]; intros w; simpl.
  - destruct (negb (FlagNotInYet w) || condition w); reflexivity.
  - destruct (negb (FlagNotInYet w) || condition w); [|reflexivity].
    rewrite GV_scan_body_replay.
    destruct (GV_scan_body ion scan_log log_scan sfuel p w) as [[brk w']| |];
      simpl; try reflexivity.
    destruct brk; [reflexivity | apply IH].
Qed.

Lemma GV_scan_replay fuel g x p :
  GV_scan ion L visit fuel g l0 x p =
  outcome_map (relog_scan visit l0) (GV_scan ion scan_log log_scan fuel g [] x p).
Proof. unfold GV_scan. now rewrite <- GV_scan_loop_replay. Qed.
End ScanReplay.

Lemma never_encountered_weighs_nothing (tgt : Z) (t : scan_log) :
  encountered tgt t = false -> weighted_length tgt t = fz 0.
Proof.
  unfold encountered, weighted_length, replay_scan.
  generalize (fz 0). induction t as [|[[c s] d] t IH]; intros acc H; cbn in *.
  - reflexivity.
  - apply orb_false_elim in H. destruct H as [Hc Ht].
    unfold add_dist at 2. rewrite Hc. now apply IH.
Qed.

Section Misses.
Context {G : Type} {M : TGeoManager G} {R : Type} {T : TRandom R}.
Variable ion : Z -> Z -> Z.

(** C5, as the code has it. [GenerateVertex] tells a ray that never enters
    the target isotope and a ray that crosses it with zero weighted length
    apart in nothing it returns: in both cases the call returns the zero
    vertex, stores it, and takes nothing from the random stream. *)
Theorem sampler_reports_misses_alike
        (fuel : nat) (a : ROOTGeomAnalyzer G) (g : G) (r : R)
        (x p : TLorentzVector) (tgtpdg : Z) (wl : walk G scan_log) :
  fGeometry a = Some g ->
  GV_scan ion scan_log log_scan fuel g [] x p = Ret wl ->
  encountered tgtpdg (w_acc wl) = false
  \/ feqb (weighted_length tgtpdg (w_acc wl)) (fz 0) = true ->
  GenerateVertex ion fuel a r x p tgtpdg
  = Ret (mkAnalyzer (Some (w_geo wl)) (fCurrPathLengthList a) (fCurrPDGCodeList a)
                    (fz 0, fz 0, fz 0) (fMaterial a),
         r, (fz 0, fz 0, fz 0)).
Proof.
  intros Hg Hscan Hmiss. unfold GenerateVertex. rewrite Hg.
  rewrite (GV_scan_replay ion fp (add_dist tgtpdg) (fz 0)), Hscan. cbn [outcome_map bind].
  assert (Hz : feqb (w_acc (relog_scan (add_dist tgtpdg) (fz 0) wl)) (fz 0) = true).
  { cbn. fold (weighted_length tgtpdg (w_acc wl)).
    destruct Hmiss as [H|H]; [|exact H].
    now rewrite (never_encountered_weighs_nothing _ _ H). }
  rewrite Hz. reflexivity.
Qed.
End Misses.

Lemma sampler_reports_misses_alike_witness :
  let M := Box.manager weightless_cube in
  exists a g' ,
    loaded weightless_cube = Ret a
    /\ GenerateVertex (T := Lcg.random) IonPdgCode 3 a 1%Z (vec (-20) 0 0) (vec 1 0 0)
                      (IonPdgCode 16 8)
       = Ret (mkAnalyzer (Some g') (fCurrPathLengthList a) (fCurrPDGCodeList a)
                         (fz 0, fz 0, fz 0) (fMaterial a), 1%Z, (fz 0, fz 0, fz 0)).
Proof.
  intros M.
  destruct (loaded weightless_cube) as [a| |] eqn:Ea; try (vm_compute in Ea; discriminate).
  destruct (GV_scan (M := M) IonPdgCode scan_log log_scan 3 Box.start []
                    (vec (-20) 0 0) (vec 1 0 0)) as [wl| |] eqn:Es;
    try (vm_compute in Es; discriminate).
  exists a, (w_geo wl). split; [reflexivity|].
  apply (sampler_reports_misses_alike (M := M) (T := Lcg.random) IonPdgCode 3 a
           Box.start 1%Z (vec (-20) 0 0) (vec 1 0 0) (IonPdgCode 16 8) wl).
  - vm_compute in Ea. inversion Ea. reflexivity.
  - exact Es.
  - right. vm_compute in Es. inversion Es. reflexivity.
Defined.

(** C5, as stated, fails: in a cube of oxygen of density zero the ray
    crosses oxygen (with zero weighted length) and never enters hydrogen,
    and [GenerateVertex] returns the same for either target. *)
Lemma missed_and_weightless_look_alike :
  let M := Box.manager weightless_cube in
  let x := vec (-20) 0 0 in
  let p := vec 1 0 0 in
  exists a wl,
    loaded weightless_cube = Ret a
    /\ GV_scan IonPdgCode scan_log log_scan 3 Box.start [] x p = Ret wl
    /\ encountered (IonPdgCode 16 8) (w_acc wl) = true
    /\ weighted_length (IonPdgCode 16 8) (w_acc wl) = fz 0
    /\ encountered (IonPdgCode 1 1) (w_acc wl) = false
    /\ GenerateVertex (T := Lcg.random) IonPdgCode 3 a 1%Z x p (IonPdgCode 16 8)
       = GenerateVertex (T := Lcg.random) IonPdgCode 3 a 1%Z x p (IonPdgCode 1 1)
    /\ exists a', GenerateVertex (T := Lcg.random) IonPdgCode 3 a 1%Z x p (IonPdgCode 16 8)
                  = Ret (a', 1%Z, (fz 0, fz 0, fz 0)).
Proof.
  intros M x p. do 2 eexists.
  split; [vm_compute; reflexivity|].
  split; [vm_compute; reflexivity|].
  split; [vm_compute; reflexivity|].
  split; [vm_compute; reflexivity|].
  split; [vm_compute; reflexivity|].
  split; [vm_compute; reflexivity|].
  eexists. vm_compute. reflexivity.
Qed.

(** ** Bounded probes *)

Section ProbeReplay.
Context {G : Type} {M : TGeoManager G}.
Variable ion : Z -> Z -> Z.
Variable L : Type.
Variable visit : TGeoMaterial -> Z -> fp -> L -> L.
Variable l0 : L.

Lemma replay_probe_log t mat c s :
  replay_probe visit (log_probe mat c s t) l0 = visit mat c s (replay_probe visit t l0).
Proof. unfold replay_probe, log_probe. now rewrite fold_left_app. Qed.

Lemma CMPL_body_replay sfuel d0 d1 d2 w :
  CMPL_body ion L visit sfuel d0 d1 d2 (relog_probe visit l0 w) =
  outcome_map (fun r => (fst r, relog_probe visit l0 (snd r)))
              (CMPL_body ion probe_log log_probe sfuel d0 d1 d2 w).
Proof.
  unfold CMPL_body. cbn [relog_probe w_geo w_cur w_acc FlagNotInYet condition].
  assert (Hout :
    (if FlagNotInYet w
     then Ret (true, mkWalk (locate (w_cur w) (w_geo w)) (replay_probe visit (w_acc w) l0)
                            (w_cur w) (FlagNotInYet w) false)
     else '(g', step) <- next_boundary sfuel (locate (w_cur w) (w_geo w)) ;;
          Ret (false, mkWalk g' (replay_probe visit (w_acc w) l0)
                             (move step d0 d1 d2 (w_cur w)) (FlagNotInYet w) false))
    = outcome_map (fun r => (fst r, relog_probe visit l0 (snd r)))
        (if FlagNotInYet w
         then Ret (true, mkWalk (locate (w_cur w) (w_geo w)) (w_acc w)
                                (w_cur w) (FlagNotInYet w) false)
         else '(g', step) <- next_boundary sfuel (locate (w_cur w) (w_geo w)) ;;
              Ret (false, mkWalk g' (w_acc w) (move step d0 d1 d2 (w_cur w))
                                 (FlagNotInYet w) false))).
  { destruct (FlagNotInYet w); [reflexivity|].
    destruct (next_boundary sfuel _) as [[g' s]| |]; reflexivity. }
  destruct (GetCurrentVolume _) as [cur|]; [|exact Hout].
  destruct (IsOutside _); [exact Hout|].
  destruct (GetMedium cur) as [med|]; [|reflexivity].
  destruct (GetMaterial med) as [mat|]; [|reflexivity].
  destruct (next_boundary sfuel _) as [[g' s]| |]; try reflexivity.
  cbn [bind outcome_map fst snd].
  unfold relog_probe; cbn [w_geo w_acc w_cur FlagNotInYet condition].
  now rewrite replay_probe_log.
Qed.

Lemma CMPL_loop_replay sfuel d0 d1 d2 n :
  forall w,
    CMPL_loop ion L visit sfuel n d0 d1 d2 (relog_probe visit l0 w) =
    outcome_map (relog_probe visit l0)
                (CMPL_loop ion probe_log log_probe sfuel n d0 d1 d2 w).
Proof.
  induction n as [|n IH]; intros w; simpl.
  - destruct (negb (FlagNotInYet w) || condition w); reflexivity.
  - destruct (negb (FlagNotInYet w) || condition w); [|reflexivity].
    rewrite CMPL_body_replay.
    destruct (CMPL_body ion probe_log log_probe sfuel d0 d1 d2 w) as [[brk w']| |];
      simpl; try reflexivity.
    destruct brk; [reflexivity | apply IH].
Qed.

Lemma CMPL_march_replay sfuel g XYZ direction :
  CMPL_march ion L visit sfuel g l0 XYZ direction =
  outcome_map (relog_probe visit l0)
              (CMPL_march ion probe_log log_probe sfuel g [] XYZ direction).
Proof.
  unfold CMPL_march. destruct direction as [[d0 d1] d2].
  now rewrite <- CMPL_loop_replay.
Qed.
End ProbeReplay.

Section ProbeBound.
Context {G : Type} {M : TGeoManager G}.
Variable ion : Z -> Z -> Z.

Lemma CMPL_body_logs_one sfuel d0 d1 d2 w brk w' :
  CMPL_body ion probe_log log_probe sfuel d0 d1 d2 w = Ret (brk, w') ->
  (List.length (w_acc w') <= S (List.length (w_acc w)))%nat.
Proof.
  unfold CMPL_body. intros E.
  assert (Hout : forall o,
    o = (if FlagNotInYet w
         then Ret (true, mkWalk (locate (w_cur w) (w_geo w)) (w_acc w)
                                (w_cur w) (FlagNotInYet w) false)
         else '(g', step) <- next_boundary sfuel (locate (w_cur w) (w_geo w)) ;;
              Ret (false, mkWalk g' (w_acc w) (move step d0 d1 d2 (w_cur w))
                                 (FlagNotInYet w) false)) ->
    o = Ret (brk, w') -> (List.length (w_acc w') <= S (List.length (w_acc w)))%nat).
  { intros o -> Eo. destruct (FlagNotInYet w).
    - inversion Eo; subst; cbn. lia.
    - bind_inv Eo. destruct r as [g1 s]. inversion Eo; subst; cbn. lia. }
  destruct (GetCurrentVolume _) as [cur|]; [|now apply (Hout _ eq_refl)].
  destruct (IsOutside _); [now apply (Hout _ eq_refl)|].
  destruct (GetMedium cur) as [med|]; [|inversion E; subst; cbn; lia].
  destruct (GetMaterial med) as [mat|]; [|inversion E; subst; cbn; lia].
  bind_inv E. destruct r as [g1 s]. inversion E; subst; cbn.
  unfold log_probe. rewrite length_app. cbn. lia.
Qed.

Lemma CMPL_loop_bounded sfuel d0 d1 d2 n :
  forall w w',
    CMPL_loop ion probe_log log_probe sfuel n d0 d1 d2 w = Ret w' ->
    (List.length (w_acc w') <= List.length (w_acc w) + n)%nat.
Proof.
  induction n as [|n IH]; intros w w' E; simpl in E.
  - destruct (negb (FlagNotInYet w) || condition w); inversion E; subst; lia.
  - destruct (negb (FlagNotInYet w) || condition w); [|inversion E; subst; lia].
    bind_inv E. destruct r as [brk w1].
    pose proof (CMPL_body_logs_one _ _ _ _ _ _ _ E0) as H1.
    destruct brk; [inversion E; subst; lia|].
    pose proof (IH _ _ E). lia.
Qed.

(** A probe walks at most 100 segments. *)
Lemma probe_is_capped sfuel g XYZ direction wl :
  CMPL_march ion probe_log log_probe sfuel g [] XYZ direction = Ret wl ->
  (List.length (w_acc wl) <= 100)%nat.
Proof.
  unfold CMPL_march. destruct direction as [[d0 d1] d2]. intros E.
  apply CMPL_loop_bounded in E. exact E.
Qed.

(** What a probe returns is the plain length of its segments. *)
Lemma probe_length sfuel g XYZ direction pdgc :
  ComputeMaxPathLength ion sfuel g XYZ direction pdgc =
  outcome_map (fun wl => (w_geo wl, plain_length pdgc (w_acc wl)))
              (CMPL_march ion probe_log log_probe sfuel g [] XYZ direction).
Proof.
  unfold ComputeMaxPathLength.
  rewrite (CMPL_march_replay ion fp (add_length pdgc) (fz 0)).
  destruct (CMPL_march ion probe_log log_probe sfuel g [] XYZ direction);
    reflexivity.
Qed.
End ProbeBound.

(** ** Directions drawn for a face *)

Local Open Scope Q_scope.

Lemma Qsqrt_nonneg q : 0 <= Qsqrt q.
Proof.
  unfold Qsqrt. rewrite Qred_correct. unfold Qle. cbn.
  rewrite Z.mul_1_r. apply Z.sqrt_nonneg.
Qed.

Lemma fsqrt_nonneg a : nonneg (fsqrt a).
Proof.
  destruct a as [x|]; cbn; [|exact I].
  destruct (Qle_bool 0 x); cbn; [apply Qsqrt_nonneg | exact I].
Qed.

Lemma quotient_nonneg q y : 0 <= q -> 0 <= y -> 0 <= q / y.
Proof.
  intros Hq Hy. unfold Qdiv. apply Qmult_le_0_compat; [exact Hq|].
  now apply Qinv_le_0_compat.
Qed.

Lemma fdiv_pos_sign q t :
  0 <= q -> nonneg t -> fltb (fdiv (Fin q) t) (fz 0) = false.
Proof.
  intros Hq Ht. destruct t as [y|]; [|reflexivity]. unfold nonneg in Ht.
  unfold fdiv. destruct (Qeq_bool y 0); [reflexivity|]. unfold fltb, fz.
  apply negb_false_iff, Qle_bool_iff. rewrite Qred_correct.
  now apply quotient_nonneg.
Qed.

Lemma fdiv_neg_sign q t :
  0 <= q -> nonneg t -> fltb (fz 0) (fdiv (fneg (Fin q)) t) = false.
Proof.
  intros Hq Ht. destruct t as [y|]; [|reflexivity]. unfold nonneg in Ht.
  unfold fneg, fdiv. destruct (Qeq_bool y 0); [reflexivity|]. unfold fltb, fz.
  apply negb_false_iff, Qle_bool_iff. rewrite !Qred_correct.
  pose proof (quotient_nonneg q y Hq Ht) as H.
  assert (E : - q / y == - (q / y)) by (unfold Qdiv; ring).
  rewrite E. change (inject_Z 0) with 0. lra.
Qed.

Section Drawn.
Context {R : Type} {T : TRandom R}.
Hypothesis Hdraws : draws_nonneg T.

Lemma drawn_direction_inward (f : face) (r : R) :
  inward f (normalise (fst (face_direction f r))).
Proof.
  unfold face_direction.
  destruct (Hdraws r) as [u [Eu Hu]]. destruct (Rndm r) as [u' r1]. cbn in Eu. subst u'.
  destruct (Hdraws r1) as [v [Ev Hv]]. destruct (Rndm r1) as [v' r2]. cbn in Ev. subst v'.
  destruct (Hdraws r2) as [w [Ew Hw]]. destruct (Rndm r2) as [w' r3]. cbn in Ew. subst w'.
  destruct f; cbn [fst normalise inward];
    first [apply fdiv_neg_sign | apply fdiv_pos_sign];
    try assumption; apply fsqrt_nonneg.
Qed.

Lemma drawn_point_on_face (f : face) (box : TGeoBBox) (r : R) :
  on_face f box (fst (face_point f box r)).
Proof.
  unfold face_point, on_face. destruct (GetOrigin box) as [[ox oy] oz].
  destruct (Rndm r) as [u r1]. destruct (Rndm r1) as [v r2].
  destruct f; reflexivity.
Qed.
End Drawn.

Local Close Scope Q_scope.

(** ** The trials of the estimate *)

Section TrialReplay.
Context {G : Type} {M : TGeoManager G} {R : Type} {T : TRandom R}.
Variable ion : Z -> Z -> Z.
Variable L : Type.
Variable note : face -> cursor -> fp * fp * fp -> fp -> L -> L.
Variable l0 : L.

Let relog3 (r : G * R * list trial) : G * R * L :=
  let '(g, rn, ts) := r in (g, rn, replay_trials note ts l0).

Lemma replay_trials_log ts f xyz d len :
  replay_trials note (log_trial f xyz d len ts) l0
  = note f xyz d len (replay_trials note ts l0).
Proof. unfold replay_trials, log_trial. now rewrite fold_left_app. Qed.

Lemma ray_loop_replay sfuel f xyz pdgc n :
  forall g r ts,
    ray_loop ion L note sfuel n f xyz pdgc g r (replay_trials note ts l0) =
    outcome_map relog3
      (ray_loop ion (list trial) log_trial sfuel n f xyz pdgc g r ts).
Proof.
  induction n as [|n IH]; intros g r ts; simpl.
  - reflexivity.
  - destruct (face_direction f r) as [d r1].
    destruct (ComputeMaxPathLength ion sfuel g xyz (normalise d) pdgc)
      as [[g1 len]| |]; simpl; try reflexivity.
    rewrite <- replay_trials_log. apply IH.
Qed.

Lemma point_loop_replay sfuel rays f box pdgc n :
  forall g r ts,
    point_loop ion L note sfuel n rays f box pdgc g r (replay_trials note ts l0) =
    outcome_map relog3
      (point_loop ion (list trial) log_trial sfuel n rays f box pdgc g r ts).
Proof.
  induction n as [|n IH]; intros g r ts; simpl.
  - reflexivity.
  - destruct (face_point f box r) as [xyz r1].
    rewrite ray_loop_replay.
    destruct (ray_loop ion (list trial) log_trial sfuel rays f xyz pdgc g r1 ts)
      as [[[g1 r2] ts1]| |]; simpl; try reflexivity.
    apply IH.
Qed.

Lemma face_loop_replay sfuel points rays box pdgc fs :
  forall g r ts,
    face_loop ion L note sfuel points rays fs box pdgc g r (replay_trials note ts l0) =
    outcome_map relog3
      (face_loop ion (list trial) log_trial sfuel points rays fs box pdgc g r ts).
Proof.
  induction fs as [|f fs IH]; intros g r ts; simpl.
  - reflexivity.
  - rewrite point_loop_replay.
    destruct (point_loop ion (list trial) log_trial sfuel points rays f box pdgc g r ts)
      as [[[g1 r1] ts1]| |]; simpl; try reflexivity.
    apply IH.
Qed.
End TrialReplay.

Section TrialShapes.
Context {G : Type} {M : TGeoManager G} {R : Type} {T : TRandom R}.
Variable ion : Z -> Z -> Z.
Variable sfuel : nat.
Variable pdgc : Z.
Variable box : TGeoBBox.
Hypothesis Hends : stepping_ends M sfuel.
Hypothesis Hdraws : draws_nonneg T.

Lemma CMPL_body_total (L : Type) (visit : TGeoMaterial -> Z -> fp -> L -> L)
      d0 d1 d2 w :
  exists r, CMPL_body ion L visit sfuel d0 d1 d2 w = Ret r.
Proof.
  unfold CMPL_body.
  assert (Hout : exists r,
    (if FlagNotInYet w
     then Ret (true, mkWalk (locate (w_cur w) (w_geo w)) (w_acc w)
                            (w_cur w) (FlagNotInYet w) false)
     else '(g', step) <- next_boundary sfuel (locate (w_cur w) (w_geo w)) ;;
          Ret (false, mkWalk g' (w_acc w) (move step d0 d1 d2 (w_cur w))
                             (FlagNotInYet w) false)) = Ret r).
  { destruct (FlagNotInYet w); [eexists; reflexivity|].
    destruct (Hends (locate (w_cur w) (w_geo w))) as [g' [s E]]. rewrite E.
    eexists; reflexivity. }
  destruct (GetCurrentVolume _) as [cur|]; [|exact Hout].
  destruct (IsOutside _); [exact Hout|].
  destruct (GetMedium cur) as [med|]; [|eexists; reflexivity].
  destruct (GetMaterial med) as [mat|]; [|eexists; reflexivity].
  destruct (Hends (locate (w_cur w) (w_geo w))) as [g' [s E]]. rewrite E.
  eexists; reflexivity.
Qed.

Lemma CMPL_loop_total (L : Type) (visit : TGeoMaterial -> Z -> fp -> L -> L)
      d0 d1 d2 n :
  forall w, exists w', CMPL_loop ion L visit sfuel n d0 d1 d2 w = Ret w'.
Proof.
  induction n as [|n IH]; intros w; simpl.
  - destruct (negb (FlagNotInYet w) || condition w); eexists; reflexivity.
  - destruct (negb (FlagNotInYet w) || condition w); [|eexists; reflexivity].
    destruct (CMPL_body_total L visit d0 d1 d2 w) as [[brk w1] E]. rewrite E. simpl.
    destruct brk; [eexists; reflexivity | apply IH].
Qed.

Lemma ComputeMaxPathLength_total g XYZ direction :
  exists g' len, ComputeMaxPathLength ion sfuel g XYZ direction pdgc = Ret (g', len).
Proof.
  unfold ComputeMaxPathLength, CMPL_march. destruct direction as [[d0 d1] d2].
  destruct (CMPL_loop_total fp (add_length pdgc) d0 d1 d2 100
              (mkWalk (SetCurrentDirection d0 d1 d2 g) (fz 0) XYZ false true))
    as [w E].
  rewrite E. do 2 eexists. reflexivity.
Qed.

Lemma ray_loop_shape f xyz n :
  forall g r ts,
    exists g' r' b,
      ray_loop ion (list trial) log_trial sfuel n f xyz pdgc g r ts
      = Ret (g', r', ts ++ b)
      /\ List.length b = n /\ Forall (trial_ok ion sfuel pdgc f xyz) b.
Proof.
  induction n as [|n IH]; intros g r ts; simpl.
  - exists g, r, []. rewrite app_nil_r. repeat split. constructor.
  - pose proof (drawn_direction_inward Hdraws f r) as Hin.
    destruct (face_direction f r) as [d r1]. cbn [fst] in Hin.
    destruct (ComputeMaxPathLength_total g xyz (normalise d)) as [g1 [len E]].
    rewrite E. simpl.
    destruct (IH g1 r1 (log_trial f xyz (normalise d) len ts)) as [g' [r' [b [Hb [Hl Hok]]]]].
    exists g', r', ((f, xyz, normalise d, len) :: b).
    split; [|split].
    + rewrite Hb. unfold log_trial. now rewrite <- app_assoc.
    + cbn. now rewrite Hl.
    + constructor; [|exact Hok].
      repeat split; try exact Hin. exists g, g1. exact E.
Qed.

Lemma point_loop_shape rays f n :
  forall g r ts,
    exists g' r' bs,
      point_loop ion (list trial) log_trial sfuel n rays f box pdgc g r ts
      = Ret (g', r', ts ++ List.concat bs)
      /\ face_block ion sfuel pdgc box n rays f bs.
Proof.
  induction n as [|n IH]; intros g r ts; simpl.
  - exists g, r, []. cbn. rewrite app_nil_r. repeat split. constructor.
  - pose proof (drawn_point_on_face f box r) as Hon.
    destruct (face_point f box r) as [xyz r1]. cbn [fst] in Hon.
    destruct (ray_loop_shape f xyz rays g r1 ts) as [g1 [r2 [b [Hb [Hl Hok]]]]].
    rewrite Hb. simpl.
    destruct (IH g1 r2 (ts ++ b)) as [g' [r' [bs [Hbs [Hn Hall]]]]].
    exists g', r', (b :: bs). split; [|split].
    + rewrite Hbs. cbn. now rewrite <- app_assoc.
    + cbn. now rewrite Hn.
    + constructor; [|exact Hall]. exists xyz. repeat split; assumption.
Qed.

Lemma face_loop_shape points rays fs :
  forall g r ts,
    exists g' r' bss,
      face_loop ion (list trial) log_trial sfuel points rays fs box pdgc g r ts
      = Ret (g', r', ts ++ List.concat (map (@List.concat trial) bss))
      /\ Forall2 (face_block ion sfuel pdgc box points rays) fs bss.
Proof.
  induction fs as [|f fs IH]; intros g r ts; simpl.
  - exists g, r, []. cbn. rewrite app_nil_r. split; [reflexivity | constructor].
  - destruct (point_loop_shape rays f points g r ts) as [g1 [r1 [bs [Hbs Hblock]]]].
    rewrite Hbs. simpl.
    destruct (IH g1 r1 (ts ++ List.concat bs)) as [g' [r' [bss [Hbss Hall]]]].
    exists g', r', (bs :: bss). split.
    + rewrite Hbss. cbn. now rewrite <- app_assoc.
    + constructor; assumption.
Qed.

Lemma face_blocks_count points rays fs bss :
  Forall2 (face_block ion sfuel pdgc box points rays) fs bss ->
  List.length (List.concat (map (@List.concat trial) bss))
  = (List.length fs * (points * rays))%nat.
Proof.
  intros H. induction H as [|f bs fs bss [Hn Hall] _ IH]; cbn.
  - reflexivity.
  - rewrite length_app, IH. f_equal. subst points.
    clear -Hall. induction Hall as [|b bs [xyz [_ [Hl _]]] _ IH]; cbn.
    + reflexivity.
    + rewrite length_app, IH, Hl. reflexivity.
Qed.
End TrialShapes.

Section Estimate.
Context {G : Type} {M : TGeoManager G} {R : Type} {T : TRandom R}.
Variable ion : Z -> Z -> Z.

(** On a loaded geometry with a registered target and a World volume, the
    estimate is the best of its trials. *)
Lemma SetVtxMaterial_best sfuel a r pdgc g W :
  fGeometry a = Some g ->
  ExistsInPDGCodeList pdgc (fCurrPDGCodeList a) = true ->
  find_world (GetListOfVolumes g) = Some W ->
  SetVtxMaterial ion sfuel a r pdgc =
  outcome_map (fun res => let '(g', r', ts) := res in
                          (set_material a (Some g') pdgc, r', best ts))
              (trials ion sfuel (GetShape W) pdgc g r).
Proof.
  intros Hg Hex Hw. unfold SetVtxMaterial, trials. rewrite Hg, Hex, Hw. cbn [negb].
  change (fz 0) with (replay_trials keep_max [] (fz 0)) at 1.
  rewrite (face_loop_replay ion fp keep_max (fz 0)).
  destruct (face_loop ion (list trial) log_trial sfuel maxPoints maxRays faces
                      (GetShape W) pdgc g r []) as [[[g1 r1] ts]| |]; reflexivity.
Qed.

(** The trials of a call without error, and what the call returns. *)
Lemma SetVtxMaterial_trials
        (sfuel : nat) (a : ROOTGeomAnalyzer G) (r : R) (pdgc : Z)
        (g : G) (W : TGeoVolume) :
  stepping_ends M sfuel ->
  draws_nonneg T ->
  fGeometry a = Some g ->
  ExistsInPDGCodeList pdgc (fCurrPDGCodeList a) = true ->
  find_world (GetListOfVolumes g) = Some W ->
  exists g' r' bss,
    trials ion sfuel (GetShape W) pdgc g r
    = Ret (g', r', List.concat (map (@List.concat trial) bss))
    /\ Forall2 (face_block ion sfuel pdgc (GetShape W) 200 200)
               [top; bottom; left; right; back; front] bss
    /\ List.length (List.concat (map (@List.concat trial) bss)) = (6 * 200 * 200)%nat
    /\ SetVtxMaterial ion sfuel a r pdgc
       = Ret (set_material a (Some g') pdgc, r',
              best (List.concat (map (@List.concat trial) bss)))
    /\ forall g0 XYZ direction wl,
        CMPL_march ion probe_log log_probe sfuel g0 [] XYZ direction = Ret wl ->
        (List.length (w_acc wl) <= 100)%nat.
Proof.
  intros Hends Hdraws Hg Hex Hw.
  destruct (face_loop_shape ion sfuel pdgc (GetShape W) Hends Hdraws
              maxPoints maxRays faces g r []) as [g' [r' [bss [Ht Hblocks]]]].
  cbn [app] in Ht.
  exists g', r', bss. split; [exact Ht|]. split; [exact Hblocks|]. split; [|split].
  - rewrite (face_blocks_count ion sfuel pdgc (GetShape W) _ _ _ _ Hblocks).
    change (List.length faces) with 6%nat. apply Nat.mul_assoc.
  - rewrite (SetVtxMaterial_best sfuel a r pdgc g W Hg Hex Hw).
    unfold trials. rewrite Ht. reflexivity.
  - intros g0 XYZ direction wl. apply probe_is_capped.
Qed.

End Estimate.

(** The manager of one box and the example stream, against what the
    estimate assumes. *)
Lemma box_stepping_ends (world : TGeoVolume) (sfuel : nat) :
  stepping_ends (Box.manager world) sfuel.
Proof.
  intros g. unfold next_boundary. destruct sfuel; cbn; do 2 eexists; reflexivity.
Qed.

Lemma stepbox_stepping_ends (world : TGeoVolume) (sfuel : nat) :
  stepping_ends (StepBox.manager world) (S sfuel).
Proof.
  intros g. unfold next_boundary. cbn [until_entering].
  change (IsEntering (TGeoManager := StepBox.manager world) (FindNextBoundary g)) with false.
  cbn iota. destruct sfuel; cbn [until_entering];
    change (IsEntering (TGeoManager := StepBox.manager world) (Step (FindNextBoundary g)))
      with true; cbn iota; do 2 eexists; reflexivity.
Qed.

Lemma lcg_draws_nonneg : draws_nonneg Lcg.random.
Proof.
  intros s. cbn. unfold Lcg.draw. eexists. split; [reflexivity|].
  rewrite Qred_correct. unfold Qle. cbn [Qnum Qden inject_Z].
  pose proof (Z.mod_pos_bound (1103515245 * s + 12345) Lcg.modulus eq_refl) as H.
  unfold Lcg.next. lia.
Qed.

(** ** Error returns of SetVtxMaterial *)

Lemma find_world_none (vols : list TGeoVolume) :
  find_world vols = None <-> forall v, In v vols -> GetName v <> "World"%string.
Proof.
  induction vols as [|v vols IH]; cbn [find_world In].
  - split; [intros _ v [] | reflexivity].
  - destruct (String.eqb_spec "World" (GetName v)) as [E|E].
    + split; [intros H; discriminate H|].
      intros H. exfalso. apply (H v); [now left | now symmetry].
    + rewrite IH. split.
      * intros H v' [<-|Hin]; [congruence | now apply H].
      * intros H v' Hin. apply H. now right.
Qed.

Lemma best_of_zeros (ts : list trial) :
  (forall t, In t ts -> trial_length t = fz 0) -> best ts = fz 0.
Proof.
  unfold best, replay_trials. intros H.
  assert (A : forall acc, acc = fz 0 ->
            fold_left (fun acc0 t => keep_max (trial_face t) (trial_point t)
                                              (trial_direction t) (trial_length t) acc0)
                      ts acc = fz 0).
  { revert H. induction ts as [|t ts IH]; intros H acc Hacc; cbn [fold_left].
    - exact Hacc.
    - apply IH; [intros t' Ht'; apply H; now right|].
      rewrite (H t (or_introl eq_refl)), Hacc. reflexivity. }
  now apply A.
Qed.

Section ZeroEstimate.
Context {G : Type} {M : TGeoManager G}.
Variable ion : Z -> Z -> Z.
Variable sfuel : nat.
Variable pdgc : Z.
Hypothesis Hnever : never_matches M ion pdgc.

Lemma CMPL_body_no_match d0 d1 d2 w brk w' :
  CMPL_body ion fp (add_length pdgc) sfuel d0 d1 d2 w = Ret (brk, w') ->
  w_acc w' = w_acc w.
Proof.
  unfold CMPL_body. intros E.
  assert (Hout : forall o,
    o = (if FlagNotInYet w
         then Ret (true, mkWalk (locate (w_cur w) (w_geo w)) (w_acc w)
                                (w_cur w) (FlagNotInYet w) false)
         else '(g', step) <- next_boundary sfuel (locate (w_cur w) (w_geo w)) ;;
              Ret (false, mkWalk g' (w_acc w) (move step d0 d1 d2 (w_cur w))
                                 (FlagNotInYet w) false)) ->
    o = Ret (brk, w') -> w_acc w' = w_acc w).
  { intros o -> Eo. destruct (FlagNotInYet w).
    - now inversion Eo.
    - bind_inv Eo. destruct r as [g1 s]. now inversion Eo. }
  destruct (GetCurrentVolume _) as [cur|] eqn:Ecur; [|now apply (Hout _ eq_refl)].
  destruct (IsOutside _); [now apply (Hout _ eq_refl)|].
  destruct (GetMedium cur) as [med|] eqn:Emed; [|now inversion E].
  destruct (GetMaterial med) as [mat|] eqn:Emat; [|now inversion E].
  bind_inv E. destruct r as [g1 s]. inversion E; subst; cbn.
  unfold add_length.
  destruct (Z.eqb_spec (ion (trunc (GetA mat)) (trunc (GetZ mat))) pdgc) as [Ec|Ec];
    [|reflexivity].
  exfalso. exact (Hnever _ cur med mat Ecur Emed Emat Ec).
Qed.

Lemma CMPL_loop_no_match d0 d1 d2 n :
  forall w w',
    CMPL_loop ion fp (add_length pdgc) sfuel n d0 d1 d2 w = Ret w' ->
    w_acc w' = w_acc w.
Proof.
  induction n as [|n IH]; intros w w' E; simpl in E.
  - destruct (negb (FlagNotInYet w) || condition w); now inversion E.
  - destruct (negb (FlagNotInYet w) || condition w); [|now inversion E].
    bind_inv E. destruct r as [brk w1].
    pose proof (CMPL_body_no_match _ _ _ _ _ _ E0) as H1.
    destruct brk; [inversion E; subst; exact H1|].
    rewrite (IH _ _ E). exact H1.
Qed.

Lemma probe_without_match g XYZ direction g' len :
  ComputeMaxPathLength ion sfuel g XYZ direction pdgc = Ret (g', len) ->
  len = fz 0.
Proof.
  unfold ComputeMaxPathLength, CMPL_march. destruct direction as [[d0 d1] d2].
  intros E. bind_inv E. inversion E; subst.
  now apply CMPL_loop_no_match in E0.
Qed.

Lemma blocks_without_match box points rays fs bss :
  Forall2 (face_block ion sfuel pdgc box points rays) fs bss ->
  forall t, In t (List.concat (map (@List.concat trial) bss)) -> trial_length t = fz 0.
Proof.
  intros H. induction H as [|f bs fs bss [_ Hall] _ IH]; cbn; intros t Hin.
  - destruct Hin.
  - apply in_app_or in Hin. destruct Hin as [Hin|Hin]; [|now apply IH].
    clear IH. induction Hall as [|b bs' [xyz [_ [_ Hok]]] _ IHb]; cbn in Hin.
    + destruct Hin.
    + apply in_app_or in Hin. destruct Hin as [Hin|Hin]; [|now apply IHb].
      rewrite Forall_forall in Hok.
      destruct (Hok t Hin) as [_ [_ [_ [g0 [g1 E]]]]].
      now apply probe_without_match in E.
Qed.
End ZeroEstimate.

Lemma tank_never_matches_oxygen :
  never_matches (Box.manager water_tank) IonPdgCode (IonPdgCode 16 8).
Proof.
  intros g cur med mat Hc Hm Hmat. cbn in Hc. inversion Hc; subst cur.
  cbn in Hm. inversion Hm; subst med. cbn in Hmat. inversion Hmat; subst mat.
  vm_compute. discriminate.
Qed.

(** C10. When the geometry is not loaded, or the requested code is not in
    the registered list, or no volume is named World, [SetVtxMaterial]
    returns 0, with the current material set to -1 and nothing else
    changed, the random stream included; the third case is that of a list
    of volumes none of which is named World; and 0 is also what a call
    without error can return: on a tank of water (a mixture of hydrogen and
    oxygen) the estimate for oxygen is 0, with the current material set to
    oxygen. *)
Theorem SetVtxMaterial_error_returns_zero :
  (forall (G : Type) (M : TGeoManager G) (R : Type) (T : TRandom R)
          (ion : Z -> Z -> Z) (sfuel : nat) (a : ROOTGeomAnalyzer G) (r : R)
          (pdgc : Z),
      fGeometry a = None
      \/ ExistsInPDGCodeList pdgc (fCurrPDGCodeList a) = false
      \/ (exists g, fGeometry a = Some g /\ find_world (GetListOfVolumes g) = None) ->
      SetVtxMaterial ion sfuel a r pdgc
      = Ret (mkAnalyzer (fGeometry a) (fCurrPathLengthList a) (fCurrPDGCodeList a)
                        (fCurrVertex a) (-1), r, fz 0))
  /\ (forall vols,
         find_world vols = None
         <-> forall v, In v vols -> GetName v <> "World"%string)
  /\ (exists a a' r',
         loaded water_tank = Ret a
         /\ ExistsInPDGCodeList (IonPdgCode 16 8) (fCurrPDGCodeList a) = true
         /\ find_world (GetListOfVolumes (TGeoManager := Box.manager water_tank)
                                         Box.start) = Some water_tank
         /\ SetVtxMaterial (M := Box.manager water_tank) (T := Lcg.random)
                           IonPdgCode 0 a 1%Z (IonPdgCode 16 8)
            = Ret (a', r', fz 0)
         /\ fMaterial a' = IonPdgCode 16 8).
Proof.
  split; [|split].
  - intros G M R T ion sfuel a r pdgc H. unfold SetVtxMaterial, set_material.
    destruct (fGeometry a) as [g|] eqn:Eg; [|reflexivity].
    destruct H as [H|[H|[g' [H1 H2]]]].
    + discriminate.
    + rewrite H. reflexivity.
    + inversion H1; subst g'. rewrite H2.
      destruct (negb (ExistsInPDGCodeList pdgc (fCurrPDGCodeList a))); reflexivity.
  - apply find_world_none.
  - destruct (loaded water_tank) as [a| |] eqn:Ea; try (vm_compute in Ea; discriminate).
    assert (Hg : fGeometry a = Some Box.start)
      by (vm_compute in Ea; inversion Ea; reflexivity).
    assert (Hex : ExistsInPDGCodeList (IonPdgCode 16 8) (fCurrPDGCodeList a) = true)
      by (vm_compute in Ea; inversion Ea; reflexivity).
    destruct (SetVtxMaterial_trials (M := Box.manager water_tank)
                (T := Lcg.random) IonPdgCode 0 a 1%Z (IonPdgCode 16 8) Box.start
                water_tank (box_stepping_ends water_tank 0) lcg_draws_nonneg
                Hg Hex eq_refl)
      as [g' [r' [bss [_ [Hblocks [_ [Hset _]]]]]]].
    rewrite (best_of_zeros _ (blocks_without_match IonPdgCode 0 (IonPdgCode 16 8)
                                tank_never_matches_oxygen _ _ _ _ _ Hblocks)) in Hset.
    eexists a, _, r'. split; [reflexivity|]. split; [exact Hex|].
    split; [reflexivity|]. split; [exact Hset | reflexivity].
Qed.

Lemma SetVtxMaterial_error_returns_zero_witness :
  SetVtxMaterial (M := Box.manager oxygen_cube) (T := Lcg.random) IonPdgCode 0
                 (mkAnalyzer None [] [] (fz 0, fz 0, fz 0) 7) 1%Z (IonPdgCode 16 8)
  = Ret (mkAnalyzer None [] [] (fz 0, fz 0, fz 0) (-1), 1%Z, fz 0).
Proof.
  destruct SetVtxMaterial_error_returns_zero as [H _].
  apply (H Box.nav (Box.manager oxygen_cube) Z Lcg.random IonPdgCode 0%nat
           (mkAnalyzer None [] [] (fz 0, fz 0, fz 0) 7) 1%Z (IonPdgCode 16 8)).
  left. reflexivity.
Defined.

(** * Further properties of the analyzer *)

(** ** Loading *)

Lemma push_all_in (cs : list Z) :
  forall l c, In c (fold_left (fun l0 c0 => push_back c0 l0) cs l) <-> In c l \/ In c cs.
Proof.
  induction cs as [|c0 cs IH]; intros l c; cbn [fold_left].
  - split; [now left | intros [H|[]]; exact H].
  - rewrite IH. unfold push_back. rewrite in_app_iff. cbn [In]. tauto.
Qed.

Lemma volume_loop_codes (ion : Z -> Z -> Z) (vols : list TGeoVolume) :
  forall l codes,
    volume_loop ion vols l = Ret codes ->
    forall c, In c codes <->
              In c l \/
              exists v med mat,
                In v vols /\ GetMedium v = Some med /\ GetMaterial med = Some mat
                /\ In c (material_codes ion mat).
Proof.
  induction vols as [|v vols IH]; intros l codes E c; simpl in E.
  - inversion E; subst. split; [now left|].
    intros [H|[v [med [mat [[] _]]]]]. exact H.
  - destruct (GetMedium v) as [med|] eqn:Emed; [|discriminate].
    destruct (GetMaterial med) as [mat|] eqn:Emat; [|discriminate].
    rewrite (IH _ _ E c), push_all_in. split.
    + intros [[H|H]|[v' [med' [mat' [Hin H]]]]].
      * now left.
      * right. exists v, med, mat. repeat split; try assumption. now left.
      * right. exists v', med', mat'. split; [now right | exact H].
    + intros [H|[v' [med' [mat' [[<-|Hin] [Hm [Hmat Hc]]]]]]].
      * left. now left.
      * rewrite Emed in Hm. inversion Hm; subst med'.
        rewrite Emat in Hmat. inversion Hmat; subst mat'. left. now right.
      * right. exists v', med', mat'. repeat split; assumption.
Qed.

(** X1. When the list of target nuclei is built, its members are exactly
    the codes of the materials of the geometry's volumes: for a mixture the
    codes of its elements, otherwise the code of its own A and Z. *)
Theorem target_nuclei_are_the_volume_codes
        {G : Type} {M : TGeoManager G} (ion : Z -> Z -> Z) (g : G)
        (codes : PDGCodeList) :
  BuildListOfTargetNuclei ion (Some g) = Ret codes ->
  forall c,
    In c codes <->
    exists v med mat,
      In v (GetListOfVolumes g) /\ GetMedium v = Some med
      /\ GetMaterial med = Some mat /\ In c (material_codes ion mat).
Proof.
  cbn [BuildListOfTargetNuclei]. intros E c.
  rewrite (volume_loop_codes ion _ _ _ E c). cbn [In]. tauto.
Qed.

Lemma target_nuclei_are_the_volume_codes_witness :
  In (IonPdgCode 16 8) [IonPdgCode 1 1; IonPdgCode 16 8] <->
  exists v med mat,
    In v (GetListOfVolumes (TGeoManager := Box.manager water_tank) Box.start)
    /\ GetMedium v = Some med /\ GetMaterial med = Some mat
    /\ In (IonPdgCode 16 8) (material_codes IonPdgCode mat).
Proof.
  apply (target_nuclei_are_the_volume_codes (M := Box.manager water_tank)
           IonPdgCode Box.start).
  reflexivity.
Defined.

Lemma volume_loop_fault (ion : Z -> Z -> Z) (vols : list TGeoVolume) :
  forall l,
    (volume_loop ion vols l = Fault <-> existsb bare vols = true)
    /\ volume_loop ion vols l <> OutOfFuel.
Proof.
  induction vols as [|v vols IH]; intros l; cbn [volume_loop existsb].
  - split; [split; discriminate | discriminate].
  - unfold bare at 1. destruct (GetMedium v) as [med|]; [|split; [tauto | discriminate]].
    destruct (GetMaterial med) as [mat|]; [|split; [tauto | discriminate]].
    cbn [orb]. apply IH.
Qed.

(** X2. Loading faults exactly when some volume of the geometry has no
    medium or a medium without material (both are dereferenced unchecked);
    otherwise, and when the import gave no geometry at all, it returns an
    analyzer holding the imported geometry, with a zero path-length entry
    for every registered code and none for any other. *)
Theorem loading_faults_on_a_bare_volume
        {G : Type} {M : TGeoManager G} (ion : Z -> Z -> Z)
        (imported : option G) (m0 : Z) :
  (Initialize ion imported m0 = Fault <->
   exists g, imported = Some g /\ existsb bare (GetListOfVolumes g) = true)
  /\ ((forall g, imported = Some g -> existsb bare (GetListOfVolumes g) = false) ->
      exists a,
        Initialize ion imported m0 = Ret a
        /\ fGeometry a = imported
        /\ BuildListOfTargetNuclei ion imported = Ret (fCurrPDGCodeList a)
        /\ (forall c, PathLength c (fCurrPathLengthList a) = fz 0)
        /\ (forall c, In c (map fst (fCurrPathLengthList a))
                      <-> In c (fCurrPDGCodeList a))).
Proof.
  unfold Initialize, BuildListOfTargetNuclei. split.
  - destruct imported as [g|].
    + destruct (volume_loop_fault ion (GetListOfVolumes g) []) as [Hf Hn].
      destruct (volume_loop ion (GetListOfVolumes g) []) as [codes| |] eqn:E.
      * split; [discriminate|]. intros [g' [Hg Hb]]. inversion Hg; subst g'.
        apply Hf in Hb. discriminate.
      * split; [|reflexivity]. intros _. exists g. split; [reflexivity|].
        now apply Hf.
      * congruence.
    + split; [discriminate|]. intros [g [Hg _]]. discriminate.
  - intros Hbare.
    assert (Hret : exists codes,
               match imported with
               | Some g => volume_loop ion (GetListOfVolumes g) []
               | None => Ret []
               end = Ret codes).
    { destruct imported as [g|]; [|eexists; reflexivity].
      destruct (volume_loop_fault ion (GetListOfVolumes g) []) as [Hf Hn].
      destruct (volume_loop ion (GetListOfVolumes g) []) as [codes| |] eqn:E.
      - eexists; reflexivity.
      - rewrite (Hbare g eq_refl) in Hf. destruct Hf as [Hf _].
        specialize (Hf eq_refl). discriminate.
      - congruence. }
    destruct Hret as [codes E]. rewrite E. cbn [bind].
    eexists. split; [reflexivity|]. cbn.
    split; [reflexivity|]. split; [reflexivity|]. split.
    + intros c. unfold NewPathLengthList.
      induction (nodup Z.eq_dec codes) as [|k ks IH]; cbn; [reflexivity|].
      destruct (k =? c)%Z; [reflexivity | exact IH].
    + intros c. unfold NewPathLengthList. rewrite map_map. cbn [fst].
      rewrite map_id. apply nodup_In.
Qed.

Lemma loading_faults_on_a_bare_volume_witness :
  exists a,
    Initialize (M := Box.manager oxygen_cube) IonPdgCode (Some Box.start) 0 = Ret a
    /\ fGeometry a = Some Box.start.
Proof.
  destruct (loading_faults_on_a_bare_volume (M := Box.manager oxygen_cube)
              IonPdgCode (Some Box.start) 0) as [_ H].
  destruct H as [a [H1 [H2 _]]].
  - intros g Hg. inversion Hg; subst. reflexivity.
  - exists a. split; assumption.
Defined.

(** ** Returns and faults of ComputePathLengths *)

Section Entering.
Context {G : Type} {M : TGeoManager G}.
Variable ion : Z -> Z -> Z.
Variable L : Type.
Variable add : Z -> fp -> L -> L.

Lemma body_outside_keeps_flag sfuel p w w1 :
  CPL_body ion L add sfuel p w = Ret (false, w1) ->
  resolves_outside w = true ->
  FlagNotInYet w1 = FlagNotInYet w.
Proof.
  unfold CPL_body, resolves_outside. intros E Ho.
  destruct (GetCurrentVolume _) as [cur|]; [|discriminate].
  rewrite Ho in E. destruct (FlagNotInYet w); [discriminate|].
  bind_inv E. destruct r as [g1 s]. now inversion E.
Qed.

Lemma flag_set_after_entering sfuel p k :
  forall w wk,
    FlagNotInYet w = false ->
    CPL_after ion L add sfuel p k w = Some wk ->
    FlagNotInYet wk = true ->
    exists j wj,
      (j < k)%nat /\ CPL_after ion L add sfuel p j w = Some wj
      /\ resolves_outside wj = false.
Proof.
  induction k as [|k IH]; intros w wk Hf Hk Hfk; simpl in Hk.
  - inversion Hk; subst. congruence.
  - destruct (CPL_body ion L add sfuel p w) as [[[|] w1]| |] eqn:E1; try discriminate.
    destruct (resolves_outside w) eqn:Ho.
    + pose proof (body_outside_keeps_flag sfuel p w w1 E1 Ho) as Hf1.
      rewrite Hf in Hf1.
      destruct (IH w1 wk Hf1 Hk Hfk) as [j [wj [Hlt [Hj Hin]]]].
      exists (S j), wj. split; [lia|]. split; [|exact Hin].
      simpl. now rewrite E1.
    + exists 0%nat, w. split; [lia|]. split; [reflexivity | exact Ho].
Qed.

Lemma until_entering_no_fault fuel :
  forall (g : G) s, until_entering fuel g s <> Fault.
Proof.
  induction fuel as [|f IH]; intros g s; simpl; destruct (IsEntering g);
    try discriminate. apply IH.
Qed.

Lemma next_boundary_no_fault fuel (g : G) : next_boundary fuel g <> Fault.
Proof. unfold next_boundary. apply until_entering_no_fault. Qed.

Lemma record_material_no_fault sfuel p mat g l c :
  record_material ion L add sfuel p mat g l c <> Fault.
Proof.
  unfold record_material. destruct (mixture mat) as [es|].
  - revert g l c. induction es as [|e es IH]; intros g l c; simpl; [discriminate|].
    pose proof (next_boundary_no_fault sfuel g) as Hn.
    destruct (next_boundary sfuel g) as [[g1 s]| |]; simpl;
      [apply IH | congruence | discriminate].
  - pose proof (next_boundary_no_fault sfuel g) as Hn.
    destruct (next_boundary sfuel g) as [[g1 s]| |]; simpl;
      [discriminate | congruence | discriminate].
Qed.

Lemma body_fault_iff sfuel p w :
  CPL_body ion L add sfuel p w = Fault <-> faulty_pass w.
Proof.
  unfold CPL_body, faulty_pass, bare.
  destruct (GetCurrentVolume _) as [cur|]; [|tauto].
  destruct (IsOutside _) eqn:Ho.
  - split; [|intros [H _]; discriminate]. intros E. exfalso.
    destruct (FlagNotInYet w); [discriminate|].
    pose proof (next_boundary_no_fault sfuel (locate (w_cur w) (w_geo w))) as Hn.
    destruct (next_boundary sfuel _) as [[g1 s]| |]; simpl in E;
      [discriminate | congruence | discriminate].
  - destruct (GetMedium cur) as [med|]; [|tauto].
    destruct (GetMaterial med) as [mat|]; [|tauto].
    split; [|intros [_ H]; discriminate]. intros E. exfalso.
    pose proof (record_material_no_fault sfuel p mat (locate (w_cur w) (w_geo w))
                  (w_acc w) (w_cur w)) as Hn.
    destruct (record_material ion L add sfuel p mat _ _ _) as [[[g1 l1] c1]| |];
      simpl in E; [discriminate | congruence | discriminate].
Qed.

Lemma loop_faults sfuel p fuel :
  forall w,
    negb (FlagNotInYet w) || condition w = true ->
    (CPL_loop ion L add sfuel fuel p w = Fault <->
     exists k wk,
       (k < fuel)%nat /\ CPL_after ion L add sfuel p k w = Some wk
       /\ faulty_pass wk).
Proof.
  induction fuel as [|fuel IH]; intros w Hg; simpl; rewrite Hg.
  - split; [discriminate | intros [k [wk [Hlt _]]]; lia].
  - destruct (CPL_body ion L add sfuel p w) as [[brk w1]| |] eqn:E1; simpl.
    + destruct brk.
      * split; [discriminate|]. intros [k [wk [Hlt [Hk Hf]]]].
        destruct k as [|k]; simpl in Hk.
        -- inversion Hk; subst. apply body_fault_iff with (sfuel := sfuel) (p := p) in Hf.
           congruence.
        -- rewrite E1 in Hk. discriminate.
      * rewrite (IH w1 (proj1 (body_continue ion L add sfuel p w w1 E1))). split.
        -- intros [k [wk [Hlt [Hk Hf]]]]. exists (S k), wk. split; [lia|].
           split; [|exact Hf]. simpl. now rewrite E1.
        -- intros [k [wk [Hlt [Hk Hf]]]]. destruct k as [|k]; simpl in Hk.
           ++ inversion Hk; subst.
              apply body_fault_iff with (sfuel := sfuel) (p := p) in Hf. congruence.
           ++ rewrite E1 in Hk. exists k, wk. split; [lia|]. split; assumption.
    + split; [intros _|reflexivity]. exists 0%nat, w. split; [lia|].
      split; [reflexivity|]. now apply (body_fault_iff sfuel p).
    + split; [discriminate|]. intros [k [wk [Hlt [Hk Hf]]]].
      destruct k as [|k]; simpl in Hk.
      * inversion Hk; subst.
        apply body_fault_iff with (sfuel := sfuel) (p := p) in Hf. congruence.
      * rewrite E1 in Hk. discriminate.
Qed.
End Entering.

Section EnteringCalls.
Context {G : Type} {M : TGeoManager G}.
Variable ion : Z -> Z -> Z.

(** X3. [ComputePathLengths] returns only for a ray that has been inside
    the geometry: whenever it returns, one of the passes of its loop
    resolved the cursor to a point inside a volume. A ray all of whose
    cursors resolve outside never makes it return. *)
Theorem ComputePathLengths_returns_after_entering
        (fuel : nat) (a : ROOTGeomAnalyzer G) (x p : TLorentzVector)
        (a' : ROOTGeomAnalyzer G) (l : PathLengthList) :
  ComputePathLengths ion fuel a x p = Ret (a', l) ->
  exists g j wj,
    fGeometry a = Some g
    /\ CPL_after ion PathLengthList AddPathLength fuel p j
                 (CPL_start g (SetAllToZero (fCurrPathLengthList a)) x p) = Some wj
    /\ resolves_outside wj = false.
Proof.
  unfold ComputePathLengths. intros E.
  destruct (fGeometry a) as [g|]; [|discriminate].
  bind_inv E. rename r into w. unfold CPL_march in E0.
  fold (CPL_start g (SetAllToZero (fCurrPathLengthList a)) x p) in E0.
  destruct (loop_left ion _ _ fuel p fuel
              (CPL_start g (SetAllToZero (fCurrPathLengthList a)) x p) w eq_refl E0)
    as [k [wk [_ [Hk Hb]]]].
  destruct (body_break_inv ion _ _ fuel p wk w Hb) as [Hf _].
  destruct (flag_set_after_entering ion _ _ fuel p k
              (CPL_start g (SetAllToZero (fCurrPathLengthList a)) x p) wk
              eq_refl Hk Hf)
    as [j [wj [_ [Hj Hin]]]].
  exists g, j, wj. repeat split; assumption.
Qed.

(** When [ComputePathLengths] faults. *)
Lemma ComputePathLengths_fault_iff
        (fuel : nat) (a : ROOTGeomAnalyzer G) (x p : TLorentzVector) :
  ComputePathLengths ion fuel a x p = Fault <->
  fGeometry a = None
  \/ exists g k wk,
      fGeometry a = Some g /\ (k < fuel)%nat
      /\ CPL_after ion PathLengthList AddPathLength fuel p k
                   (CPL_start g (SetAllToZero (fCurrPathLengthList a)) x p) = Some wk
      /\ faulty_pass wk.
Proof.
  unfold ComputePathLengths.
  destruct (fGeometry a) as [g|].
  - unfold CPL_march.
    fold (CPL_start g (SetAllToZero (fCurrPathLengthList a)) x p).
    pose proof (loop_faults ion PathLengthList AddPathLength fuel p fuel
                  (CPL_start g (SetAllToZero (fCurrPathLengthList a)) x p) eq_refl)
      as H.
    destruct (CPL_loop ion PathLengthList AddPathLength fuel fuel p _) as [w| |];
      cbn [bind].
    + split; [discriminate|]. intros [Hn|[g' [k [wk [Hg Hrest]]]]]; [discriminate|].
      inversion Hg; subst g'. destruct H as [_ H].
      assert (Hf : Ret w = Fault) by (apply H; exists k, wk; exact Hrest).
      discriminate.
    + split; [|reflexivity]. intros _. right. destruct H as [H _].
      destruct (H eq_refl) as [k [wk Hk]]. exists g, k, wk. split; [reflexivity | exact Hk].
    + split; [discriminate|]. intros [Hn|[g' [k [wk [Hg Hrest]]]]]; [discriminate|].
      inversion Hg; subst g'. destruct H as [_ H].
      assert (Hf : OutOfFuel = Fault) by (apply H; exists k, wk; exact Hrest).
      discriminate.
  - split; [now left | reflexivity].
Qed.

(** X4. [ComputePathLengths] faults exactly when no geometry is loaded or
    one of the passes it is allowed dereferences a null pointer: the manager
    has no current volume, or the cursor is inside a volume without medium
    or without material. *)
Theorem ComputePathLengths_faults_at_a_bare_volume
        (fuel : nat) (a : ROOTGeomAnalyzer G) (x p : TLorentzVector) :
  ComputePathLengths ion fuel a x p = Fault <->
  fGeometry a = None
  \/ exists g k wk,
      fGeometry a = Some g /\ (k < fuel)%nat
      /\ CPL_after ion PathLengthList AddPathLength fuel p k
                   (CPL_start g (SetAllToZero (fCurrPathLengthList a)) x p) = Some wk
      /\ faulty_pass wk.
Proof. apply ComputePathLengths_fault_iff. Qed.
End EnteringCalls.

Lemma ComputePathLengths_returns_after_entering_witness :
  exists a g j wj,
    loaded oxygen_cube = Ret a /\ fGeometry a = Some g
    /\ CPL_after (M := Box.manager oxygen_cube) IonPdgCode PathLengthList AddPathLength
                 3 (vec 1 0 0) j
                 (CPL_start (M := Box.manager oxygen_cube) g
                            (SetAllToZero (fCurrPathLengthList a))
                            (vec (-20) 0 0) (vec 1 0 0)) = Some wj
    /\ resolves_outside (M := Box.manager oxygen_cube) wj = false.
Proof.
  destruct (loaded oxygen_cube) as [a| |] eqn:Ea; try (vm_compute in Ea; discriminate).
  destruct (ComputePathLengths (M := Box.manager oxygen_cube) IonPdgCode 3 a
                               (vec (-20) 0 0) (vec 1 0 0)) as [[a' l]| |] eqn:Ec.
  - destruct (ComputePathLengths_returns_after_entering
                (M := Box.manager oxygen_cube) IonPdgCode 3 a
                (vec (-20) 0 0) (vec 1 0 0) a' l Ec) as [g [j [wj [H1 [H2 H3]]]]].
    exists a, g, j, wj. split; [reflexivity|]. repeat split; assumption.
  - exfalso. vm_compute in Ea. inversion Ea; subst. vm_compute in Ec. discriminate.
  - exfalso. vm_compute in Ea. inversion Ea; subst. vm_compute in Ec. discriminate.
Defined.

Section LoadedNeverBare.
Context {G : Type} {M : TGeoManager G}.
Variable ion : Z -> Z -> Z.
Hypothesis contract : volumes_contract M.
Hypothesis Hcurrent : forall g, GetCurrentVolume g <> None.

Lemma after_keeps_volumes (L : Type) (add : Z -> fp -> L -> L) sfuel p k :
  forall w wk,
    CPL_after ion L add sfuel p k w = Some wk ->
    GetListOfVolumes (w_geo wk) = GetListOfVolumes (w_geo w).
Proof.
  induction k as [|k IH]; intros w wk Hk; simpl in Hk.
  - now inversion Hk.
  - destruct (CPL_body ion L add sfuel p w) as [[[|] w1]| |] eqn:E1; try discriminate.
    rewrite (IH _ _ Hk).
    apply (CPL_body_keeps ion _ (@GetListOfVolumes G M)
             (contract_point M contract) (contract_find M contract)
             (contract_boundary M contract) (contract_step M contract)
             L add sfuel p w false w1 E1).
Qed.

(** X5. Once loading has succeeded, [ComputePathLengths] never faults:
    loading went through the medium and the material of every volume, so
    over a manager that always has a current volume, resolves only volumes of
    its list and keeps that list, no pass meets a null medium or material. *)
Theorem loaded_analyzer_never_faults
        (fuel : nat) (a : ROOTGeomAnalyzer G) (x p : TLorentzVector) :
  registered ion a ->
  ComputePathLengths ion fuel a x p <> Fault.
Proof.
  intros [g [Hg Hreg]] E.
  apply ComputePathLengths_fault_iff in E.
  destruct E as [E|[g' [k [wk [Hg' [_ [Hk Hf]]]]]]]; [congruence|].
  rewrite Hg in Hg'. inversion Hg'; subst g'.
  apply after_keeps_volumes in Hk. cbn in Hk.
  rewrite (contract_direction M contract) in Hk.
  unfold faulty_pass in Hf.
  destruct (GetCurrentVolume (locate (w_cur wk) (w_geo wk))) as [cur|] eqn:Ecur;
    [|now apply (Hcurrent (locate (w_cur wk) (w_geo wk)))].
  destruct Hf as [_ Hbare].
  apply (contract_resolved M contract) in Ecur.
  unfold locate in Ecur.
  rewrite (contract_find M contract), (contract_point M contract), Hk in Ecur.
  destruct (volume_loop_fault ion (GetListOfVolumes g) []) as [Hfault _].
  assert (Hex : existsb bare (GetListOfVolumes g) = true)
    by (apply existsb_exists; exists cur; split; assumption).
  apply Hfault in Hex. congruence.
Qed.
End LoadedNeverBare.

Lemma loaded_analyzer_never_faults_witness :
  exists a,
    loaded oxygen_cube = Ret a
    /\ ComputePathLengths (M := Box.manager oxygen_cube) IonPdgCode 3 a
                          (vec (-20) 0 0) (vec 1 0 0) <> Fault.
Proof.
  destruct (loaded oxygen_cube) as [a| |] eqn:Ea; try (vm_compute in Ea; discriminate).
  exists a. split; [reflexivity|].
  apply (loaded_analyzer_never_faults (M := Box.manager oxygen_cube) IonPdgCode
           (box_volumes_contract oxygen_cube)).
  - intros g. discriminate.
  - apply (Initialize_registered (M := Box.manager oxygen_cube) IonPdgCode Box.start 0).
    exact Ea.
Defined.

(** ** Bounded probes always end *)

Section ProbeEnds.
Context {G : Type} {M : TGeoManager G}.
Variable ion : Z -> Z -> Z.

Lemma CMPL_loop_no_fault (L : Type) (visit : TGeoMaterial -> Z -> fp -> L -> L)
      sfuel d0 d1 d2 n :
  forall w, CMPL_loop ion L visit sfuel n d0 d1 d2 w <> Fault.
Proof.
  induction n as [|n IH]; intros w; simpl.
  - destruct (negb (FlagNotInYet w) || condition w); discriminate.
  - destruct (negb (FlagNotInYet w) || condition w); [|discriminate].
    assert (Hb : CMPL_body ion L visit sfuel d0 d1 d2 w <> Fault).
    { unfold CMPL_body.
      pose proof (next_boundary_no_fault sfuel (locate (w_cur w) (w_geo w))) as Hn.
      destruct (GetCurrentVolume _) as [cur|].
      - destruct (IsOutside _).
        + destruct (FlagNotInYet w); [discriminate|].
          destruct (next_boundary sfuel _) as [[g1 s]| |]; simpl;
            [discriminate | congruence | discriminate].
        + destruct (GetMedium cur) as [med|]; [|discriminate].
          destruct (GetMaterial med) as [mat|]; [|discriminate].
          destruct (next_boundary sfuel _) as [[g1 s]| |]; simpl;
            [discriminate | congruence | discriminate].
      - destruct (FlagNotInYet w); [discriminate|].
        destruct (next_boundary sfuel _) as [[g1 s]| |]; simpl;
          [discriminate | congruence | discriminate]. }
    destruct (CMPL_body ion L visit sfuel d0 d1 d2 w) as [[brk w1]| |]; simpl;
      [|congruence|discriminate].
    destruct brk; [discriminate | apply IH].
Qed.

(** X6. [ComputeMaxPathLength] never dereferences a null pointer, whatever
    the manager resolves (its null tests are not preceded by a LOG line),
    and whenever looking for the next boundary ends it returns: its loop
    makes at most 100 passes, also for a ray that never enters the geometry. *)
Theorem probe_always_ends
        (sfuel : nat) (g : G) (XYZ : cursor) (direction : fp * fp * fp) (pdgc : Z) :
  ComputeMaxPathLength ion sfuel g XYZ direction pdgc <> Fault
  /\ (stepping_ends M sfuel ->
      exists g' len,
        ComputeMaxPathLength ion sfuel g XYZ direction pdgc = Ret (g', len)).
Proof.
  split.
  - unfold ComputeMaxPathLength, CMPL_march. destruct direction as [[d0 d1] d2].
    pose proof (CMPL_loop_no_fault fp (add_length pdgc) sfuel d0 d1 d2 100
                  (mkWalk (SetCurrentDirection d0 d1 d2 g) (fz 0) XYZ false true)) as H.
    destruct (CMPL_loop ion fp (add_length pdgc) sfuel 100 d0 d1 d2 _) as [w| |];
      simpl; [discriminate | congruence | discriminate].
  - intros Hends. now apply ComputeMaxPathLength_total.
Qed.
End ProbeEnds.

Lemma probe_always_ends_witness :
  exists g' len,
    ComputeMaxPathLength (M := Box.manager hollow_cube) IonPdgCode 0 Box.start
                         (mkCursor (fz (-20)) (fz 5) (fz 0)) (fz 1, fz 1, fz 0)
                         (IonPdgCode 16 8)
    = Ret (g', len).
Proof.
  destruct (probe_always_ends (M := Box.manager hollow_cube) IonPdgCode 0 Box.start
              (mkCursor (fz (-20)) (fz 5) (fz 0)) (fz 1, fz 1, fz 0) (IonPdgCode 16 8))
    as [_ H].
  apply H, box_stepping_ends.
Defined.

(** ** The running maximum *)

Local Open Scope Q_scope.

Lemma keep_max_cases f xyz d (len acc : fp) :
  (keep_max f xyz d len acc = acc /\ fltb acc len = false)
  \/ (keep_max f xyz d len acc = len /\ fltb acc len = true).
Proof. unfold keep_max. destruct (fltb acc len); [right | left]; now split. Qed.

Lemma fltb_true_inv (a b : fp) :
  fltb a b = true -> exists x y, a = Fin x /\ b = Fin y /\ x < y.
Proof.
  destruct a as [x|], b as [y|]; try discriminate. cbn. intros H.
  exists x, y. repeat split. apply negb_true_iff in H.
  apply Qnot_le_lt. intros Hle. apply Qle_bool_iff in Hle. congruence.
Qed.

Lemma fltb_false_inv (x y : Q) : fltb (Fin x) (Fin y) = false -> y <= x.
Proof. cbn. intros H. apply negb_false_iff in H. now apply Qle_bool_iff. Qed.

Lemma running_max_from (ts : list trial) :
  forall q0, 0 <= q0 ->
    exists q,
      replay_trials keep_max ts (Fin q0) = Fin q /\ q0 <= q
      /\ (forall t y, In t ts -> trial_length t = Fin y -> y <= q)
      /\ (Fin q = Fin q0 \/ exists t, In t ts /\ trial_length t = Fin q).
Proof.
  unfold replay_trials.
  induction ts as [|t ts IH]; intros q0 H0; cbn [fold_left].
  - exists q0. split; [reflexivity|]. split; [apply Qle_refl|].
    split; [intros t y [] | now left].
  - destruct (keep_max_cases (trial_face t) (trial_point t) (trial_direction t)
                (trial_length t) (Fin q0)) as [[E Hlt]|[E Hlt]]; rewrite E.
    + destruct (IH q0 H0) as [q [Hq [Hle [Hub Hatt]]]].
      exists q. split; [exact Hq|]. split; [exact Hle|]. split.
      * intros t' y [<-|Hin] Hy; [|now apply (Hub t')].
        rewrite Hy in Hlt. apply fltb_false_inv in Hlt.
        now apply Qle_trans with q0.
      * destruct Hatt as [Hatt|[t' [Hin Ht']]]; [now left|].
        right. exists t'. split; [now right | exact Ht'].
    + destruct (fltb_true_inv _ _ Hlt) as [x [y [Hx [Hy Hxy]]]].
      inversion Hx; subst x. rewrite Hy.
      assert (Hy0 : 0 <= y) by (apply Qle_trans with q0; [exact H0 | now apply Qlt_le_weak]).
      destruct (IH y Hy0) as [q [Hq [Hle [Hub Hatt]]]].
      exists q. split; [exact Hq|]. split.
      * apply Qle_trans with y; [now apply Qlt_le_weak | exact Hle].
      * split.
        -- intros t' y' [<-|Hin] Hy'; [|now apply (Hub t')].
           rewrite Hy in Hy'. inversion Hy'; subst y'. exact Hle.
        -- right. destruct Hatt as [Hatt|[t' [Hin Ht']]].
           ++ exists t. split; [now left|]. now rewrite Hy, Hatt.
           ++ exists t'. split; [now right | exact Ht'].
Qed.

Lemma best_is_running_max (ts : list trial) :
  exists q,
    best ts = Fin q /\ 0 <= q
    /\ (forall t y, In t ts -> trial_length t = Fin y -> y <= q)
    /\ (best ts = fz 0 \/ exists t, In t ts /\ trial_length t = best ts).
Proof.
  unfold best, fz.
  destruct (running_max_from ts (inject_Z 0) (Qle_refl _)) as [q [Hq [Hle [Hub Hatt]]]].
  exists q. rewrite Hq. split; [reflexivity|]. split; [exact Hle|].
  split; [exact Hub | exact Hatt].
Qed.

Section EstimateValue.
Context {G : Type} {M : TGeoManager G} {R : Type} {T : TRandom R}.
Variable ion : Z -> Z -> Z.


(** X8. On a call without error, the value [SetVtxMaterial] returns is at
    least the length of every trial whose length is a number, and it is 0 or
    the length of one of the trials. *)
Theorem estimate_bounds_every_trial
        (sfuel : nat) (a : ROOTGeomAnalyzer G) (r : R) (pdgc : Z)
        (g : G) (W : TGeoVolume) (g' : G) (r' : R) (ts : list trial) :
  fGeometry a = Some g ->
  ExistsInPDGCodeList pdgc (fCurrPDGCodeList a) = true ->
  find_world (GetListOfVolumes g) = Some W ->
  trials ion sfuel (GetShape W) pdgc g r = Ret (g', r', ts) ->
  exists q,
    SetVtxMaterial ion sfuel a r pdgc = Ret (set_material a (Some g') pdgc, r', Fin q)
    /\ (forall t y, In t ts -> trial_length t = Fin y -> y <= q)
    /\ (Fin q = fz 0%Z \/ exists t, In t ts /\ trial_length t = Fin q).
Proof.
  intros Hg Hex Hw Ht.
  rewrite (SetVtxMaterial_best ion sfuel a r pdgc g W Hg Hex Hw), Ht. cbn.
  destruct (best_is_running_max ts) as [q [Hq [_ [Hub Hatt]]]].
  exists q. rewrite Hq in *. split; [reflexivity|]. split; assumption.
Qed.
End EstimateValue.

Local Close Scope Q_scope.


Lemma estimate_bounds_every_trial_witness :
  exists a g' r' ts q,
    loaded oxygen_cube = Ret a
    /\ trials (M := Box.manager oxygen_cube) (T := Lcg.random) IonPdgCode 0
              (GetShape oxygen_cube) (IonPdgCode 16 8) Box.start 1%Z = Ret (g', r', ts)
    /\ SetVtxMaterial (M := Box.manager oxygen_cube) (T := Lcg.random)
                      IonPdgCode 0 a 1%Z (IonPdgCode 16 8)
       = Ret (set_material a (Some g') (IonPdgCode 16 8), r', Fin q)
    /\ (forall t y, In t ts -> trial_length t = Fin y -> (y <= q)%Q).
Proof.
  destruct (loaded oxygen_cube) as [a| |] eqn:Ea; try (vm_compute in Ea; discriminate).
  assert (Hg : fGeometry a = Some Box.start)
    by (vm_compute in Ea; inversion Ea; reflexivity).
  assert (Hex : ExistsInPDGCodeList (IonPdgCode 16 8) (fCurrPDGCodeList a) = true)
    by (vm_compute in Ea; inversion Ea; reflexivity).
  destruct (SetVtxMaterial_trials (M := Box.manager oxygen_cube) (T := Lcg.random)
              IonPdgCode 0 a 1%Z (IonPdgCode 16 8) Box.start oxygen_cube
              (box_stepping_ends oxygen_cube 0) lcg_draws_nonneg Hg Hex eq_refl)
    as [g' [r' [bss [Ht _]]]].
  destruct (estimate_bounds_every_trial (M := Box.manager oxygen_cube)
              (T := Lcg.random) IonPdgCode 0 a 1%Z (IonPdgCode 16 8) Box.start
              oxygen_cube g' r' _ Hg Hex eq_refl Ht) as [q [H1 [H2 _]]].
  exists a, g', r', (List.concat (map (@List.concat trial) bss)), q.
  split; [reflexivity|]. split; [exact Ht|]. split; assumption.
Defined.

(** ** The random stream *)

Section Draws.
Context {G : Type} {M : TGeoManager G} {R : Type} {T : TRandom R}.
Variable ion : Z -> Z -> Z.
Variable L : Type.
Variable note : face -> cursor -> fp * fp * fp -> fp -> L -> L.

Lemma face_direction_draws (f : face) (r : R) :
  snd (face_direction f r) = Nat.iter 3 next_draw r.
Proof.
  change (Nat.iter 3 next_draw r) with (next_draw (next_draw (next_draw r))).
  unfold face_direction, next_draw.
  destruct (Rndm r) as [u r1]. cbn [snd].
  destruct (Rndm r1) as [v r2]. cbn [snd].
  destruct (Rndm r2) as [w r3]. cbn [snd].
  destruct f; reflexivity.
Qed.

Lemma face_point_draws (f : face) (box : TGeoBBox) (r : R) :
  snd (face_point f box r) = Nat.iter 2 next_draw r.
Proof.
  change (Nat.iter 2 next_draw r) with (next_draw (next_draw r)).
  unfold face_point, next_draw.
  destruct (GetOrigin box) as [[ox oy] oz].
  destruct (Rndm r) as [u r1]. cbn [snd].
  destruct (Rndm r1) as [v r2]. cbn [snd].
  destruct f; reflexivity.
Qed.

Lemma ray_loop_draws sfuel f xyz pdgc n :
  forall g r acc g' r' acc',
    ray_loop ion L note sfuel n f xyz pdgc g r acc = Ret (g', r', acc') ->
    r' = Nat.iter (n * 3) next_draw r.
Proof.
  induction n as [|n IH]; intros g r acc g' r' acc' E; simpl in E.
  - now inversion E.
  - pose proof (face_direction_draws f r) as Hd.
    destruct (face_direction f r) as [d r1]. cbn [snd] in Hd.
    bind_inv E. destruct r0 as [g1 len].
    rewrite (IH _ _ _ _ _ _ E), Hd, <- Nat.iter_add. f_equal. lia.
Qed.

Lemma point_loop_draws sfuel rays f box pdgc n :
  forall g r acc g' r' acc',
    point_loop ion L note sfuel n rays f box pdgc g r acc = Ret (g', r', acc') ->
    r' = Nat.iter (n * (2 + rays * 3)) next_draw r.
Proof.
  induction n as [|n IH]; intros g r acc g' r' acc' E; simpl in E.
  - now inversion E.
  - pose proof (face_point_draws f box r) as Hp.
    destruct (face_point f box r) as [xyz r1]. cbn [snd] in Hp.
    bind_inv E. destruct r0 as [[g1 r2] acc1].
    apply ray_loop_draws in E0.
    rewrite (IH _ _ _ _ _ _ E), E0, Hp, <- !Nat.iter_add. f_equal. lia.
Qed.

Lemma face_loop_draws sfuel points rays box pdgc fs :
  forall g r acc g' r' acc',
    face_loop ion L note sfuel points rays fs box pdgc g r acc = Ret (g', r', acc') ->
    r' = Nat.iter (List.length fs * (points * (2 + rays * 3))) next_draw r.
Proof.
  induction fs as [|f fs IH]; intros g r acc g' r' acc' E; simpl in E.
  - now inversion E.
  - bind_inv E. destruct r0 as [[g1 r1] acc1].
    apply point_loop_draws in E0.
    rewrite (IH _ _ _ _ _ _ E), E0, <- Nat.iter_add. f_equal.
    cbn [List.length]. lia.
Qed.
End Draws.

Section DrawsOfCalls.
Context {G : Type} {M : TGeoManager G} {R : Type} {T : TRandom R}.
Variable ion : Z -> Z -> Z.

(** X9. The random stream [SetVtxMaterial] leaves does not depend on the
    geometry or on what the probes find: an error return leaves the stream
    untouched, and a call without error leaves it 6 x 200 x (2 + 200 x 3)
    draws further, two per point and three per direction. *)
Theorem estimate_takes_a_fixed_number_of_draws
        (sfuel : nat) (a : ROOTGeomAnalyzer G) (r : R) (pdgc : Z)
        (a' : ROOTGeomAnalyzer G) (r' : R) (m : fp) :
  SetVtxMaterial ion sfuel a r pdgc = Ret (a', r', m) ->
  (fMaterial a' = (-1)%Z /\ pdgc <> (-1)%Z -> r' = r)
  /\ (fMaterial a' = pdgc /\ pdgc <> (-1)%Z ->
      r' = Nat.iter (6 * (200 * (2 + 200 * 3))) next_draw r).
Proof.
  unfold SetVtxMaterial. intros E.
  assert (Herr : forall geo,
             Ret (set_material a geo (-1)%Z, r, fz 0%Z) = Ret (a', r', m) ->
             (fMaterial a' = (-1)%Z /\ pdgc <> (-1)%Z -> r' = r)
             /\ (fMaterial a' = pdgc /\ pdgc <> (-1)%Z ->
                 r' = Nat.iter (6 * (200 * (2 + 200 * 3))) next_draw r)).
  { intros geo Eerr. inversion Eerr; subst. split; [reflexivity|].
    cbn [fMaterial set_material]. intros [H1 H2]. congruence. }
  destruct (fGeometry a) as [g|]; [|now apply (Herr None)].
  destruct (negb (ExistsInPDGCodeList pdgc (fCurrPDGCodeList a)));
    [now apply (Herr (Some g))|].
  destruct (find_world (GetListOfVolumes g)) as [W|]; [|now apply (Herr (Some g))].
  bind_inv E. destruct r0 as [[g1 r1] mp]. inversion E; subst.
  cbn [fMaterial set_material].
  split; [intros [H1 H2]; congruence|]. intros _.
  apply face_loop_draws in E0.
  change (List.length faces) with 6%nat in E0.
  unfold maxPoints, maxRays in E0. exact E0.
Qed.

(** X10. [GenerateVertex] takes exactly one draw when it finds the target
    along the ray and none when it does not; in both cases it stores the
    vertex it returns and leaves the lists and the current material as they
    were. *)
Theorem GenerateVertex_takes_one_draw
        (fuel : nat) (a : ROOTGeomAnalyzer G) (r : R) (x p : TLorentzVector)
        (tgtpdg : Z) (a' : ROOTGeomAnalyzer G) (r' : R) (v : TVector3) :
  GenerateVertex ion fuel a r x p tgtpdg = Ret (a', r', v) ->
  fCurrVertex a' = v
  /\ fCurrPathLengthList a' = fCurrPathLengthList a
  /\ fCurrPDGCodeList a' = fCurrPDGCodeList a
  /\ fMaterial a' = fMaterial a
  /\ ((r' = r /\ v = (fz 0, fz 0, fz 0))
      \/ (r' = next_draw r
          /\ exists g w,
              fGeometry a = Some g
              /\ GV_scan ion fp (add_dist tgtpdg) fuel g (fz 0) x p = Ret w
              /\ feqb (w_acc w) (fz 0) = false)).
Proof.
  unfold GenerateVertex. intros E.
  destruct (fGeometry a) as [g|].
  - destruct (GV_scan ion fp (add_dist tgtpdg) fuel g (fz 0) x p) as [w| |] eqn:Es;
      cbn [bind] in E; try discriminate.
    destruct (feqb (w_acc w) (fz 0)) eqn:Ez.
    + inversion E; subst; cbn. repeat split. left. split; reflexivity.
    + unfold next_draw. destruct (Rndm r) as [u r1]. cbn [snd].
      bind_inv E. inversion E; subst; cbn. repeat split.
      right. split; [reflexivity|]. exists g, w. split; [reflexivity|]. split; [exact Es | exact Ez].
  - inversion E; subst; cbn. repeat split. left. split; reflexivity.
Qed.
End DrawsOfCalls.

Lemma estimate_takes_a_fixed_number_of_draws_witness :
  exists a a' r' m,
    loaded oxygen_cube = Ret a
    /\ SetVtxMaterial (M := Box.manager oxygen_cube) (T := Lcg.random)
                      IonPdgCode 0 a 1%Z (IonPdgCode 16 8) = Ret (a', r', m)
    /\ r' = Nat.iter (6 * (200 * (2 + 200 * 3))) (next_draw (T := Lcg.random)) 1%Z.
Proof.
  destruct (loaded oxygen_cube) as [a| |] eqn:Ea; try (vm_compute in Ea; discriminate).
  assert (Hg : fGeometry a = Some Box.start)
    by (vm_compute in Ea; inversion Ea; reflexivity).
  assert (Hex : ExistsInPDGCodeList (IonPdgCode 16 8) (fCurrPDGCodeList a) = true)
    by (vm_compute in Ea; inversion Ea; reflexivity).
  destruct (SetVtxMaterial_trials (M := Box.manager oxygen_cube) (T := Lcg.random)
              IonPdgCode 0 a 1%Z (IonPdgCode 16 8) Box.start oxygen_cube
              (box_stepping_ends oxygen_cube 0) lcg_draws_nonneg Hg Hex eq_refl)
    as [g' [r' [bss [_ [_ [_ [Hset _]]]]]]].
  destruct (estimate_takes_a_fixed_number_of_draws (M := Box.manager oxygen_cube)
              (T := Lcg.random) IonPdgCode 0 a 1%Z (IonPdgCode 16 8) _ _ _ Hset)
    as [_ H].
  do 4 eexists. split; [reflexivity|]. split; [exact Hset|].
  apply H. split; [reflexivity | discriminate].
Defined.

Lemma GenerateVertex_takes_one_draw_witness :
  exists a a' r' v,
    loaded oxygen_cube = Ret a
    /\ GenerateVertex (M := Box.manager oxygen_cube) (T := Lcg.random) IonPdgCode 5
                      a 2088216195%Z (vec (-10) 0 0) (vec 1 0 0) (IonPdgCode 16 8)
       = Ret (a', r', v)
    /\ v <> (fz 0, fz 0, fz 0)
    /\ r' = next_draw (T := Lcg.random) 2088216195%Z.
Proof.
  destruct (loaded oxygen_cube) as [a| |] eqn:Ea; try (vm_compute in Ea; discriminate Ea).
  destruct (GenerateVertex (M := Box.manager oxygen_cube) (T := Lcg.random) IonPdgCode
                           5 a 2088216195%Z (vec (-10) 0 0) (vec 1 0 0)
                           (IonPdgCode 16 8))
    as [[[a' r'] v]| |] eqn:Eg;
    try (vm_compute in Ea; inversion Ea; subst; vm_compute in Eg; discriminate Eg).
  assert (Hv : v <> (fz 0, fz 0, fz 0)).
  { vm_compute in Ea. inversion Ea; subst a. vm_compute in Eg. inversion Eg; subst.
    discriminate. }
  exists a, a', r', v. split; [reflexivity|]. split; [exact Eg|]. split; [exact Hv|].
  destruct (GenerateVertex_takes_one_draw (M := Box.manager oxygen_cube)
              (T := Lcg.random) IonPdgCode 5 a 2088216195%Z (vec (-10) 0 0)
              (vec 1 0 0) (IonPdgCode 16 8) a' r' v Eg) as [_ [_ [_ [_ [[_ H]|[H _]]]]]].
  - contradiction.
  - exact H.
Defined.

(** ** The sampler and the path lengths on the same ray *)

Section SameSegments.
Context {G : Type} {M : TGeoManager G}.
Variable ion : Z -> Z -> Z.
Variable L : Type.
Variable add : Z -> fp -> L -> L.
Hypothesis Hpure : no_mixtures M.

Lemma scan_body_is_path_body sfuel p w :
  GV_scan_body ion L (fun c s _ => add c s) sfuel p w = CPL_body ion L add sfuel p w.
Proof.
  unfold GV_scan_body, CPL_body.
  destruct (GetCurrentVolume _) as [cur|] eqn:Ec; [|reflexivity].
  destruct (IsOutside _); [reflexivity|].
  destruct (GetMedium cur) as [med|] eqn:Em; [|reflexivity].
  destruct (GetMaterial med) as [mat|] eqn:Emat; [|reflexivity].
  unfold record_material. rewrite (Hpure _ _ _ _ Ec Em Emat).
  destruct (next_boundary sfuel _) as [[g' s]| |]; reflexivity.
Qed.

Lemma scan_loop_is_path_loop sfuel p fuel :
  forall w,
    GV_scan_loop ion L (fun c s _ => add c s) sfuel fuel p w
    = CPL_loop ion L add sfuel fuel p w.
Proof.
  induction fuel as [|f IH]; intros w; cbn [GV_scan_loop CPL_loop].
  - reflexivity.
  - rewrite scan_body_is_path_body.
    destruct (negb (FlagNotInYet w) || condition w); [|reflexivity].
    destruct (CPL_body ion L add sfuel p w) as [[brk w']| |]; cbn [bind];
      try reflexivity.
    destruct brk; [reflexivity | apply IH].
Qed.
End SameSegments.

Section SameSegmentsOfCalls.
Context {G : Type} {M : TGeoManager G}.
Variable ion : Z -> Z -> Z.
Hypothesis Hpure : no_mixtures M.

(** X11. Where no material is a mixture, [ComputePathLengths] and the
    first loop of [GenerateVertex] walk the same segments of a ray: the
    call of [ComputePathLengths] ends as that loop does (returning,
    dereferencing a null pointer, or still looping), leaves the manager
    where the loop leaves it, and its list is the zeroed list with every
    scanned segment added under its code. *)
Theorem path_lengths_follow_the_scan
        (fuel : nat) (a : ROOTGeomAnalyzer G) (g : G) (x p : TLorentzVector) :
  fGeometry a = Some g ->
  ComputePathLengths ion fuel a x p
  = outcome_map
      (fun wl : walk G scan_log =>
         let l := scanned_lengths (w_acc wl) (SetAllToZero (fCurrPathLengthList a)) in
         (mkAnalyzer (Some (w_geo wl)) l (fCurrPDGCodeList a) (fCurrVertex a)
                     (fMaterial a), l))
      (GV_scan ion scan_log log_scan fuel g [] x p).
Proof.
  intros Hg. unfold ComputePathLengths. rewrite Hg.
  unfold CPL_march.
  rewrite <- (scan_loop_is_path_loop ion PathLengthList AddPathLength Hpure).
  fold (GV_scan ion PathLengthList (fun c s (_ : Q) => AddPathLength c s) fuel g
                (SetAllToZero (fCurrPathLengthList a)) x p).
  rewrite (GV_scan_replay ion PathLengthList (fun c s (_ : Q) => AddPathLength c s)
                          (SetAllToZero (fCurrPathLengthList a))).
  destruct (GV_scan ion scan_log log_scan fuel g [] x p) as [wl| |]; reflexivity.
Qed.
End SameSegmentsOfCalls.

Lemma cube_has_no_mixtures : no_mixtures (Box.manager oxygen_cube).
Proof.
  intros g cur med mat Hc Hm Hmat. cbn in Hc. inversion Hc; subst cur.
  cbn in Hm. inversion Hm; subst med. cbn in Hmat. inversion Hmat; subst mat.
  reflexivity.
Qed.

Lemma path_lengths_follow_the_scan_witness :
  exists a wl,
    loaded oxygen_cube = Ret a
    /\ GV_scan (M := Box.manager oxygen_cube) IonPdgCode scan_log log_scan 3
               Box.start [] (vec (-20) 0 0) (vec 1 0 0) = Ret wl
    /\ exists a',
        ComputePathLengths (M := Box.manager oxygen_cube) IonPdgCode 3 a
                           (vec (-20) 0 0) (vec 1 0 0)
        = Ret (a', scanned_lengths (w_acc wl) (SetAllToZero (fCurrPathLengthList a))).
Proof.
  destruct (loaded oxygen_cube) as [a| |] eqn:Ea; try (vm_compute in Ea; discriminate).
  assert (Hg : fGeometry a = Some Box.start)
    by (vm_compute in Ea; inversion Ea; reflexivity).
  destruct (GV_scan (M := Box.manager oxygen_cube) IonPdgCode scan_log log_scan 3
                    Box.start [] (vec (-20) 0 0) (vec 1 0 0)) as [wl| |] eqn:Es;
    try (vm_compute in Es; discriminate).
  exists a, wl. split; [reflexivity|]. split; [reflexivity|].
  eexists.
  rewrite (path_lengths_follow_the_scan (M := Box.manager oxygen_cube) IonPdgCode
             cube_has_no_mixtures 3 a Box.start (vec (-20) 0 0) (vec 1 0 0) Hg).
  rewrite Es. reflexivity.
Defined.

(** ** Targets that are no material's own isotope *)

Section Unmatched.
Context {G : Type} {M : TGeoManager G} {R : Type} {T : TRandom R}.
Variable ion : Z -> Z -> Z.
Variable tgt : Z.
Hypothesis Hnever : never_matches M ion tgt.

Lemma GV_scan_body_no_match sfuel p (w : walk G fp) brk w' :
  GV_scan_body ion fp (add_dist tgt) sfuel p w = Ret (brk, w') ->
  w_acc w' = w_acc w.
Proof.
  unfold GV_scan_body. intros E.
  destruct (GetCurrentVolume _) as [cur|] eqn:Ec; [|discriminate].
  destruct (IsOutside _).
  - destruct (FlagNotInYet w).
    + inversion E; reflexivity.
    + bind_inv E. destruct r as [g' s]. inversion E; reflexivity.
  - destruct (GetMedium cur) as [med|] eqn:Em; [|discriminate].
    destruct (GetMaterial med) as [mat|] eqn:Emat; [|discriminate].
    bind_inv E. destruct r as [g' s]. inversion E; subst. cbn [w_acc].
    unfold add_dist.
    destruct (Z.eqb_spec (ion (trunc (GetA mat)) (trunc (GetZ mat))) tgt) as [e|];
      [|reflexivity].
    exfalso. exact (Hnever _ _ _ _ Ec Em Emat e).
Qed.

Lemma GV_scan_loop_no_match sfuel p fuel :
  forall (w w' : walk G fp),
    GV_scan_loop ion fp (add_dist tgt) sfuel fuel p w = Ret w' ->
    w_acc w' = w_acc w.
Proof.
  induction fuel as [|f IH]; intros w w' E; cbn [GV_scan_loop] in E.
  - destruct (negb (FlagNotInYet w) || condition w); [discriminate|].
    inversion E; reflexivity.
  - destruct (negb (FlagNotInYet w) || condition w); [|inversion E; reflexivity].
    bind_inv E. destruct r as [brk w1].
    pose proof (GV_scan_body_no_match _ _ _ _ _ E0) as H1.
    destruct brk.
    + inversion E; subst. exact H1.
    + rewrite (IH _ _ E). exact H1.
Qed.

Lemma ray_loop_no_match sfuel rays f xyz :
  forall g r g' r' m,
    ray_loop ion fp keep_max sfuel rays f xyz tgt g r (fz 0) = Ret (g', r', m) ->
    m = fz 0.
Proof.
  induction rays as [|n IH]; intros g r g' r' m E; cbn [ray_loop] in E.
  - inversion E; reflexivity.
  - destruct (face_direction f r) as [d r1].
    bind_inv E. destruct r0 as [g1 len].
    apply (probe_without_match ion sfuel tgt Hnever) in E0. subst len.
    apply (IH _ _ _ _ _ E).
Qed.

Lemma point_loop_no_match sfuel points rays f box :
  forall g r g' r' m,
    point_loop ion fp keep_max sfuel points rays f box tgt g r (fz 0)
    = Ret (g', r', m) ->
    m = fz 0.
Proof.
  induction points as [|n IH]; intros g r g' r' m E; cbn [point_loop] in E.
  - inversion E; reflexivity.
  - destruct (face_point f box r) as [xyz r1].
    bind_inv E. destruct r0 as [[g1 r2] m1].
    apply ray_loop_no_match in E0. subst m1.
    apply (IH _ _ _ _ _ E).
Qed.

Lemma face_loop_no_match sfuel points rays box fs :
  forall g r g' r' m,
    face_loop ion fp keep_max sfuel points rays fs box tgt g r (fz 0)
    = Ret (g', r', m) ->
    m = fz 0.
Proof.
  induction fs as [|f fs IH]; intros g r g' r' m E; cbn [face_loop] in E.
  - inversion E; reflexivity.
  - bind_inv E. destruct r0 as [[g1 r1] m1].
    apply point_loop_no_match in E0. subst m1.
    apply (IH _ _ _ _ _ E).
Qed.

(** X12. A target code that is not the code of the own A and Z of any
    material (one found only among the elements of mixtures, say) is not
    seen by the sampler and the estimate, which compare the material's own
    code and never go through the elements: whatever the ray,
    [GenerateVertex] returns the zero vertex without a draw, and
    [SetVtxMaterial] returns 0. *)
Theorem unmatched_target_is_never_found :
  (forall fuel (a : ROOTGeomAnalyzer G) (r : R) x p a' r' v,
      GenerateVertex ion fuel a r x p tgt = Ret (a', r', v) ->
      v = (fz 0, fz 0, fz 0) /\ fCurrVertex a' = v /\ r' = r)
  /\ (forall sfuel (a : ROOTGeomAnalyzer G) (r : R) a' r' m,
         SetVtxMaterial ion sfuel a r tgt = Ret (a', r', m) -> m = fz 0).
Proof.
  split.
  - intros fuel a r x p a' r' v E. unfold GenerateVertex in E.
    destruct (fGeometry a) as [g|].
    + bind_inv E. rename r0 into w.
      unfold GV_scan in E0. apply GV_scan_loop_no_match in E0.
      cbn [w_acc] in E0. rewrite E0 in E.
      change (feqb (fz 0) (fz 0)) with true in E. cbn iota in E.
      inversion E; subst. repeat split.
    + inversion E; subst. repeat split.
  - intros sfuel a r a' r' m E. unfold SetVtxMaterial in E.
    destruct (fGeometry a) as [g|]; [|inversion E; reflexivity].
    destruct (negb (ExistsInPDGCodeList tgt (fCurrPDGCodeList a)));
      [inversion E; reflexivity|].
    destruct (find_world (GetListOfVolumes g)) as [W|]; [|inversion E; reflexivity].
    bind_inv E. destruct r0 as [[g1 r1] m1]. inversion E; subst.
    now apply face_loop_no_match in E0.
Qed.
End Unmatched.

Lemma unmatched_target_is_never_found_witness :
  exists a a1 l a2 v,
    loaded water_tank = Ret a
    /\ ComputePathLengths (M := Box.manager water_tank) IonPdgCode 3 a
                          (vec (-20) 0 0) (vec 1 0 0) = Ret (a1, l)
    /\ PathLength (IonPdgCode 16 8) l = fz 20
    /\ GenerateVertex (M := Box.manager water_tank) (T := Lcg.random) IonPdgCode 3
                      a 1%Z (vec (-20) 0 0) (vec 1 0 0) (IonPdgCode 16 8)
       = Ret (a2, 1%Z, v)
    /\ v = (fz 0, fz 0, fz 0).
Proof.
  destruct (loaded water_tank) as [a| |] eqn:Ea; try (vm_compute in Ea; discriminate).
  destruct (ComputePathLengths (M := Box.manager water_tank) IonPdgCode 3 a
                               (vec (-20) 0 0) (vec 1 0 0)) as [[a1 l]| |] eqn:Ec;
    try (vm_compute in Ea; inversion Ea; subst; vm_compute in Ec; discriminate Ec).
  destruct (GenerateVertex (M := Box.manager water_tank) (T := Lcg.random) IonPdgCode
                           3 a 1%Z (vec (-20) 0 0) (vec 1 0 0) (IonPdgCode 16 8))
    as [[[a2 r'] v]| |] eqn:Eg;
    try (vm_compute in Ea; inversion Ea; subst; vm_compute in Eg; discriminate Eg).
  destruct (unmatched_target_is_never_found (M := Box.manager water_tank)
              (T := Lcg.random) IonPdgCode (IonPdgCode 16 8)
              tank_never_matches_oxygen) as [Hv _].
  destruct (Hv 3%nat a 1%Z (vec (-20) 0 0) (vec 1 0 0) a2 r' v Eg) as [H1 [_ H3]].
  assert (Hl : PathLength (IonPdgCode 16 8) l = fz 20).
  { vm_compute in Ea. inversion Ea; subst a. vm_compute in Ec. inversion Ec; subst.
    vm_compute. reflexivity. }
  exists a, a1, l, a2, v. split; [reflexivity|]. split; [exact Ec|].
  split; [exact Hl|]. split; [|exact H1].
  subst r'. exact Eg.
Defined.


(** ** The probe and the sampler on the same ray *)

Lemma fmul_fdiv_one (s a : fp) :
  fmul s (fdiv a (fz 1)) = fdiv (fmul s a) (fz 1).
Proof.
  destruct s as [s|], a as [a|]; cbn [fmul fdiv fp_lift2 fz]; try reflexivity.
  change (Qeq_bool (inject_Z 1) 0) with false. cbn [fp_lift2]. f_equal.
  apply Qred_complete. rewrite !Qred_correct. unfold Qdiv.
  apply Qmult_assoc.
Qed.

Section SameTrack.
Context {G : Type} {M : TGeoManager G}.
Variable ion : Z -> Z -> Z.
Variable L : Type.
Variable visit : Z -> fp -> Q -> L -> L.
Variable p : TLorentzVector.
Hypothesis Hunit : P p = fz 1.

Let visit_material (mat : TGeoMaterial) (c : Z) (s : fp) : L -> L :=
  visit c s (GetDensity mat).

(** With a momentum of length 1 the step times the direction is the step
    times the momentum, divided by 1. *)
Lemma move_along (step : fp) (c : cursor) :
  move step (fdiv (Px p) (P p)) (fdiv (Py p) (P p)) (fdiv (Pz p) (P p)) c
  = advance p step c.
Proof. unfold move, advance. rewrite Hunit. now rewrite !fmul_fdiv_one. Qed.

Lemma scan_body_is_probe_body sfuel w r :
  GV_scan_body ion L visit sfuel p w = Ret r ->
  CMPL_body ion L visit_material sfuel
            (fdiv (Px p) (P p)) (fdiv (Py p) (P p)) (fdiv (Pz p) (P p)) w = Ret r.
Proof.
  unfold GV_scan_body, CMPL_body. intros E.
  destruct (GetCurrentVolume _) as [cur|]; [|discriminate E].
  destruct (IsOutside _).
  - destruct (FlagNotInYet w); [exact E|].
    destruct (next_boundary sfuel _) as [[g' s]| |]; try discriminate E.
    cbn [bind] in *. now rewrite move_along.
  - destruct (GetMedium cur) as [med|]; [|discriminate E].
    destruct (GetMaterial med) as [mat|]; [|discriminate E].
    destruct (next_boundary sfuel _) as [[g' s]| |]; try discriminate E.
    cbn [bind] in *. now rewrite move_along.
Qed.

Lemma scan_loop_is_probe_loop sfuel fuel :
  forall w w' left,
    (fuel <= left)%nat ->
    GV_scan_loop ion L visit sfuel fuel p w = Ret w' ->
    CMPL_loop ion L visit_material sfuel left
              (fdiv (Px p) (P p)) (fdiv (Py p) (P p)) (fdiv (Pz p) (P p)) w = Ret w'.
Proof.
  induction fuel as [|f IH]; intros w w' left Hl E; cbn [GV_scan_loop] in E.
  - destruct left; cbn [CMPL_loop];
      destruct (negb (FlagNotInYet w) || condition w); try discriminate E; exact E.
  - destruct left as [|n]; [lia|]. cbn [CMPL_loop].
    destruct (negb (FlagNotInYet w) || condition w); [|exact E].
    bind_inv E. destruct r as [brk w1].
    rewrite (scan_body_is_probe_body _ _ _ E0). cbn [bind].
    destruct brk; [exact E|]. apply IH; [lia | exact E].
Qed.
End SameTrack.

Section SameTrackOfCalls.
Context {G : Type} {M : TGeoManager G}.
Variable ion : Z -> Z -> Z.

End SameTrackOfCalls.


(** * The searches of a segment *)

Section SegmentSearches.
Context {G : Type} {M : TGeoManager G}.
Variable ion : Z -> Z -> Z.
Variable L : Type.
Variable add : Z -> fp -> L -> L.

Lemma element_loop_searches sfuel p es :
  forall g l c,
    element_loop ion L add sfuel p es g l c
    = outcome_map
        (fun r => (snd r, add_each add (map (element_code ion) es) (fst r) l,
                   advance_each p (fst r) c))
        (successive_searches sfuel (List.length es) g).
Proof.
  induction es as [|e es IH]; intros g l c;
    cbn [element_loop successive_searches List.length map].
  - reflexivity.
  - destruct (next_boundary sfuel g) as [[g1 s]| |]; cbn [bind outcome_map];
      try reflexivity.
    rewrite IH.
    destruct (successive_searches sfuel (List.length es) g1) as [[ss g']| |];
      reflexivity.
Qed.

(** What the last block of a pass does with a material, by the searches
    made for it. *)
Lemma record_material_searches sfuel p mat g l c :
  record_material ion L add sfuel p mat g l c
  = outcome_map
      (fun r => (snd r, add_each add (material_codes ion mat) (fst r) l,
                 advance_each p (fst r) c))
      (successive_searches sfuel (searches_of mat) g).
Proof.
  unfold record_material, material_codes, searches_of.
  destruct (mixture mat) as [es|].
  - apply element_loop_searches.
  - cbn [successive_searches].
    destruct (next_boundary sfuel g) as [[g1 s]| |]; reflexivity.
Qed.

Lemma CPL_body_searches sfuel p (w : walk G L) cur med mat :
  GetCurrentVolume (locate (w_cur w) (w_geo w)) = Some cur ->
  IsOutside (locate (w_cur w) (w_geo w)) = false ->
  GetMedium cur = Some med ->
  GetMaterial med = Some mat ->
  CPL_body ion L add sfuel p w
  = outcome_map
      (fun r => (false,
                 mkWalk (snd r)
                        (add_each add (material_codes ion mat) (fst r) (w_acc w))
                        (advance_each p (fst r) (w_cur w)) true true))
      (successive_searches sfuel (searches_of mat) (locate (w_cur w) (w_geo w))).
Proof.
  intros Hc Ho Hm Hmat. unfold CPL_body. rewrite Hc, Ho, Hm, Hmat.
  rewrite record_material_searches.
  destruct (successive_searches sfuel (searches_of mat) _) as [[ss g']| |];
    reflexivity.
Qed.
End SegmentSearches.

Section StillSearches.
Context {G : Type} {M : TGeoManager G}.
Hypothesis Hstays : search_stays M.

Lemma still_search sfuel g :
  next_boundary sfuel g = Ret (FindNextBoundary g, GetStep (FindNextBoundary g)).
Proof.
  unfold next_boundary. destruct (Hstays g) as [He _].
  destruct sfuel; cbn [until_entering]; now rewrite He.
Qed.

Lemma still_searches sfuel n :
  forall g,
    successive_searches sfuel (S n) g
    = Ret (repeat (GetStep (FindNextBoundary g)) (S n),
           Nat.iter (S n) FindNextBoundary g).
Proof.
  induction n as [|n IH]; intros g.
  - cbn [successive_searches]. rewrite still_search. reflexivity.
  - change (successive_searches sfuel (S (S n)) g)
      with ('(g1, s) <- next_boundary sfuel g ;;
            '(ss, g') <- successive_searches sfuel (S n) g1 ;;
            Ret (s :: ss, g')).
    rewrite still_search. cbn [bind]. rewrite IH. cbn [bind].
    destruct (Hstays g) as [_ Hs]. rewrite Hs.
    f_equal. f_equal. change (FindNextBoundary (Nat.iter (S n) FindNextBoundary g))
      with (Nat.iter (S (S n)) FindNextBoundary g).
    symmetry. apply (Nat.iter_succ_r (S n)).
Qed.
End StillSearches.

Lemma sum_repeat_from (s : fp) (n k : nat) :
  (0 < k)%nat ->
  fold_left fadd (repeat s n) (fmul (fz (Z.of_nat k)) s)
  = fmul (fz (Z.of_nat (k + n))) s.
Proof.
  revert k. induction n as [|n IH]; intros k Hk; cbn [repeat fold_left].
  - now rewrite Nat.add_0_r.
  - rewrite fadd_step by lia.
    replace (Z.of_nat k + 1)%Z with (Z.of_nat (S k)) by lia.
    rewrite IH by lia. f_equal. f_equal. lia.
Qed.

Lemma sum_steps_repeat (s : fp) (n : nat) :
  sum_steps (repeat s (S n)) = fmul (fz (Z.of_nat (S n))) s.
Proof.
  unfold sum_steps. cbn [repeat fold_left]. rewrite fadd_first.
  change 1%Z with (Z.of_nat 1). rewrite sum_repeat_from by lia.
  reflexivity.
Qed.

Section MixtureSegment.
Context {G : Type} {M : TGeoManager G}.
Variable ion : Z -> Z -> Z.

End MixtureSegment.

Lemma box_search_stays (world : TGeoVolume) : search_stays (Box.manager world).
Proof. intros g. split; reflexivity. Qed.



(** * The end of the traversal *)

Section LeavingRay.
Context {G : Type} {M : TGeoManager G}.
Variable ion : Z -> Z -> Z.
Variable L : Type.
Variable add : Z -> fp -> L -> L.
Variable sfuel : nat.
Variable p : TLorentzVector.
Variable ahead : cursor -> nat.
Variable on_ray : G -> cursor -> Prop.
Hypothesis Hray : ray_leaves M sfuel p ahead on_ray.

(** From a cursor on the ray, the passes reach one whose cursor resolves
    outside with the flag set, in no more passes than there are boundaries
    ahead. *)
Lemma passes_reach_the_exit (n : nat) :
  forall w : walk G L,
    (ahead (w_cur w) <= n)%nat ->
    on_ray (w_geo w) (w_cur w) ->
    (FlagNotInYet w = false -> resolves_outside w = true ->
     (0 < ahead (w_cur w))%nat) ->
    exists k wk,
      (k <= ahead (w_cur w))%nat
      /\ CPL_after ion L add sfuel p k w = Some wk
      /\ on_ray (w_geo wk) (w_cur wk)
      /\ FlagNotInYet wk = true /\ resolves_outside wk = true.
Proof.
  induction n as [|n IH]; intros w Hn Hon Hbefore.
  - assert (H0 : ahead (w_cur w) = 0%nat) by lia.
    pose proof (leaves_out _ _ _ _ _ Hray _ _ Hon H0) as Hout.
    destruct (FlagNotInYet w) eqn:Hf.
    + exists 0%nat, w. repeat split; [lia | assumption | assumption | assumption].
    + specialize (Hbefore eq_refl Hout). lia.
  - destruct (leaves_resolved _ _ _ _ _ Hray _ _ Hon) as [v [Hv Hin]].
    destruct (resolves_outside w) eqn:Hout.
    + destruct (FlagNotInYet w) eqn:Hf.
      * exists 0%nat, w. repeat split; [lia | assumption | assumption | assumption].
      * specialize (Hbefore eq_refl eq_refl).
        destruct (leaves_before _ _ _ _ _ Hray _ _ Hon Hout Hbefore)
          as [g' [s [Hs [Hon' [Hlt Hstill]]]]].
        assert (Hb : CPL_body ion L add sfuel p w
                     = Ret (false, mkWalk g' (w_acc w) (advance p s (w_cur w))
                                          false false)).
        { apply body_outside_before_entering; try assumption. congruence. }
        destruct (IH (mkWalk g' (w_acc w) (advance p s (w_cur w)) false false))
          as [k [wk [Hk [Ha [Honk [Hfk Hok]]]]]]; cbn [w_cur w_geo FlagNotInYet].
        -- lia.
        -- exact Hon'.
        -- intros _ Ho. apply Hstill. exact Ho.
        -- exists (S k), wk. cbn [w_cur] in Hk. split; [lia|].
           split; [|repeat split; assumption]. cbn [CPL_after]. now rewrite Hb.
    + destruct (Hin Hout) as [med [mat [Hm Hmat]]].
      destruct (leaves_inside _ _ _ _ _ Hray _ _ _ _ _ Hon Hout Hv Hm Hmat)
        as [ss [g' [Hs [Hon' Hlt]]]].
      assert (Hb : CPL_body ion L add sfuel p w
                   = Ret (false,
                          mkWalk g' (add_each add (material_codes ion mat) ss (w_acc w))
                                 (advance_each p ss (w_cur w)) true true)).
      { rewrite (CPL_body_searches ion L add sfuel p w v med mat Hv Hout Hm Hmat).
        unfold resolves_outside in Hout. rewrite Hs. reflexivity. }
      destruct (IH (mkWalk g' (add_each add (material_codes ion mat) ss (w_acc w))
                           (advance_each p ss (w_cur w)) true true))
        as [k [wk [Hk [Ha [Honk [Hfk Hok]]]]]]; cbn [w_cur w_geo FlagNotInYet].
      * lia.
      * exact Hon'.
      * discriminate.
      * exists (S k), wk. cbn [w_cur] in Hk. split; [lia|].
        split; [|repeat split; assumption]. cbn [CPL_after]. now rewrite Hb.
Qed.

(** C4. Take a ray that leaves the geometry, with the geometry before it
    when its origin is outside. The loop of [ComputePathLengths] ends: there
    is a pass, after no more passes than the ray has boundaries ahead, whose
    cursor resolves outside with the has-entered flag set, it is the first
    such pass, and the loop returns in that pass whenever it is allowed
    that many passes, and in no other. Before the flag is set an outside
    cursor is moved to the next boundary and the loop goes on. *)
Theorem traversal_ends_when_ray_has_left
        (g : G) (l : L) (x : TLorentzVector) :
  let w0 := CPL_start g l x p in
  on_ray (w_geo w0) (w_cur w0) ->
  (resolves_outside w0 = true -> (0 < ahead (w_cur w0))%nat) ->
  (exists k wk,
      (k <= ahead (w_cur w0))%nat
      /\ CPL_after ion L add sfuel p k w0 = Some wk
      /\ FlagNotInYet wk = true /\ resolves_outside wk = true
      /\ (forall j wj, (j < k)%nat ->
            CPL_after ion L add sfuel p j w0 = Some wj ->
            FlagNotInYet wj && resolves_outside wj = false)
      /\ (forall fuel, (sfuel <= fuel)%nat -> (k < fuel)%nat ->
            CPL_march ion L add fuel g l x p = Ret (left_at wk))
      /\ (forall fuel w',
            CPL_march ion L add fuel g l x p = Ret w' -> w' = left_at wk))
  /\ (forall w g' step,
        GetCurrentVolume (locate (w_cur w) (w_geo w)) <> None ->
        FlagNotInYet w = false -> resolves_outside w = true ->
        next_boundary sfuel (locate (w_cur w) (w_geo w)) = Ret (g', step) ->
        CPL_body ion L add sfuel p w
        = Ret (false, mkWalk g' (w_acc w) (advance p step (w_cur w)) false false)).
Proof.
  intros w0 Hon Hbefore. split; [|intros w g' step; apply body_outside_before_entering].
  destruct (passes_reach_the_exit (ahead (w_cur w0)) w0 (le_n _) Hon)
    as [k [wk [Hk [Ha [Honk [Hf Ho]]]]]].
  { intros _. exact Hbefore. }
  assert (Hb : CPL_body ion L add sfuel p wk = Ret (true, left_at wk)).
  { apply body_break_intro; try assumption.
    destruct (leaves_resolved _ _ _ _ _ Hray _ _ Honk) as [v [Hv _]]. congruence. }
  assert (Hloop : forall fuel, (sfuel <= fuel)%nat -> (k < fuel)%nat ->
                    CPL_march ion L add fuel g l x p = Ret (left_at wk)).
  { intros fuel Hs Hlt. unfold CPL_march.
    apply (CPL_loop_mono ion L add sfuel fuel p Hs (S k) fuel); [lia|].
    apply (loop_leaves ion L add sfuel p k w0 wk); [reflexivity | exact Ha | exact Hb | lia]. }
  exists k, wk. split; [exact Hk|]. split; [exact Ha|]. split; [exact Hf|].
  split; [exact Ho|]. split; [|split; [exact Hloop|]].
  - intros j wj Hj Hwj. exact (after_earlier ion L add sfuel p j k w0 wk wj Hj Ha Hwj).
  - intros fuel w' E.
    pose proof (Hloop (Nat.max fuel (Nat.max sfuel (S k)))) as H1.
    rewrite (CPL_march_mono ion L add fuel (Nat.max fuel (Nat.max sfuel (S k)))
               g l x p w' (Nat.le_max_l _ _) E) in H1.
    assert (H2 : Ret w' = Ret (left_at wk)) by (apply H1; lia).
    now inversion H2.
Qed.
End LeavingRay.

Lemma tank_ray_cases (g : Box.nav) (c : cursor) (Q : Prop) :
  tank_ray g c ->
  (g = fst before_tank -> c = snd before_tank -> Q) ->
  (g = fst entering_tank -> c = snd entering_tank -> Q) ->
  (g = fst past_tank -> c = snd past_tank -> Q) ->
  Q.
Proof.
  intros [H|[H|H]] H1 H2 H3; apply pair_equal_spec in H; destruct H as [Hg Hc];
    [apply H1 | apply H2 | apply H3]; assumption.
Qed.

Lemma tank_ray_leaves :
  ray_leaves (StepBox.manager water_tank) 1 (vec 1 0 0) ahead_x tank_ray.
Proof.
  split.
  - intros g c _. exists water_tank. split; [reflexivity|]. intros _.
    exists (mkMedium (Some water)), water. split; reflexivity.
  - intros g c H Hout Hahead.
    apply (tank_ray_cases g c _ H); intros -> ->.
    + do 2 eexists. split; [vm_compute; reflexivity|].
      split; [right; left; vm_compute; reflexivity|].
      split; [vm_compute; lia|]. intros Ho. vm_compute in Ho. discriminate Ho.
    + vm_compute in Hout. discriminate Hout.
    + vm_compute in Hahead. lia.
  - intros g c v med mat H Hout Hv Hm Hmat.
    cbn [GetCurrentVolume StepBox.manager] in Hv. inversion Hv; subst v.
    cbn in Hm. inversion Hm; subst med. cbn in Hmat. inversion Hmat; subst mat.
    apply (tank_ray_cases g c _ H); intros -> ->.
    + vm_compute in Hout. discriminate Hout.
    + do 2 eexists. split; [vm_compute; reflexivity|].
      split; [right; right; vm_compute; reflexivity|].
      vm_compute. lia.
    + vm_compute in Hout. discriminate Hout.
  - intros g c H Hahead.
    apply (tank_ray_cases g c _ H); intros -> ->.
    + vm_compute in Hahead. discriminate Hahead.
    + vm_compute in Hahead. discriminate Hahead.
    + vm_compute. reflexivity.
Qed.

Lemma traversal_ends_when_ray_has_left_witness :
  let M := StepBox.manager water_tank in
  let H := IonPdgCode 1 1 in
  let O := IonPdgCode 16 8 in
  exists wk,
    CPL_march IonPdgCode PathLengthList AddPathLength 3 Box.start
              [(H, fz 0); (O, fz 0)] (vec (-20) 0 0) (vec 1 0 0)
    = Ret (left_at wk)
    /\ FlagNotInYet wk = true /\ resolves_outside wk = true
    /\ w_acc wk = [(H, fz 20); (O, Box.Big)].
Proof.
  intros M H O.
  destruct (traversal_ends_when_ray_has_left (M := M) IonPdgCode PathLengthList
              AddPathLength 1 (vec 1 0 0) ahead_x tank_ray tank_ray_leaves
              Box.start [(H, fz 0); (O, fz 0)] (vec (-20) 0 0))
    as [[k [wk [Hk [Ha [Hf [Ho [_ [Hloop _]]]]]]]] _].
  - left. vm_compute. reflexivity.
  - intros _. vm_compute. lia.
  - exists wk. split; [apply Hloop; [lia|]|].
    + vm_compute in Hk. lia.
    + split; [exact Hf|]. split; [exact Ho|].
      assert (E : CPL_march IonPdgCode PathLengthList AddPathLength 3 Box.start
                    [(H, fz 0); (O, fz 0)] (vec (-20) 0 0) (vec 1 0 0)
                  = Ret (left_at wk)) by (apply Hloop; [lia | vm_compute in Hk; lia]).
      assert (E2 : outcome_map w_acc
                     (CPL_march IonPdgCode PathLengthList AddPathLength 3 Box.start
                        [(H, fz 0); (O, fz 0)] (vec (-20) 0 0) (vec 1 0 0))
                   = Ret (w_acc wk)) by (rewrite E; reflexivity).
      vm_compute in E2. injection E2 as E2. exact (eq_sym E2).
Defined.

(** * The trials of the estimate *)

Lemma plain_from_is_sum (pdgc : Z) (t : probe_log) :
  forall a, replay_probe (add_length pdgc) t a = fold_left fadd (target_steps pdgc t) a.
Proof.
  unfold replay_probe, target_steps.
  induction t as [|[[mat c] s] t IH]; intros a; cbn [fold_left filter map fst snd].
  - reflexivity.
  - unfold add_length at 2. destruct (Z.eqb c pdgc); cbn [map fold_left snd]; apply IH.
Qed.

Lemma plain_is_geometric (pdgc : Z) (t : probe_log) :
  plain_length pdgc t = geometric_length pdgc t.
Proof. apply plain_from_is_sum. Qed.

Lemma greatest_is_best (ts : list trial) : greatest_length ts (best ts).
Proof.
  destruct (best_is_running_max ts) as [q [Hq [H0 [Hub Hatt]]]].
  unfold greatest_length. rewrite Hq in *. split; [exact H0|]. split; [|exact Hatt].
  intros t Hin. destruct (trial_length t) as [y|] eqn:Ey; [|reflexivity].
  cbn [fltb]. apply negb_false_iff, Qle_bool_iff. now apply (Hub t).
Qed.

Local Open Scope Q_scope.

Lemma spread_within (o d u : Q) :
  0 <= d -> 0 <= u <= 1 -> within (Fin o) (Fin d) (spread (Fin o) (Fin d) (Fin u)).
Proof.
  intros Hd [Hu0 Hu1]. unfold spread, fsub, fadd, fmul, fp_lift2, fz, within.
  rewrite !Qred_correct.
  assert (H1 : 0 <= d * u) by (apply Qmult_le_0_compat; assumption).
  assert (H2 : d * u <= d * 1)
    by (rewrite !(Qmult_comm d); apply Qmult_le_compat_r; assumption).
  split.
  - setoid_replace (inject_Z 2 * d * u) with (2 * (d * u)) by ring. lra.
  - setoid_replace (inject_Z 2 * d * u) with (2 * (d * u)) by ring. lra.
Qed.

Local Close Scope Q_scope.

Section DrawnOnFace.
Context {R : Type} {T : TRandom R}.
Hypothesis Hunit : draws_unit T.

Lemma unit_draws_nonneg : draws_nonneg T.
Proof.
  intros r. destruct (Hunit r) as [q [E [H0 _]]]. exists q. now split.
Qed.

Lemma drawn_point_in_face (f : face) (box : TGeoBBox) (r : R) :
  proper_box box -> in_face f box (fst (face_point f box r)).
Proof.
  intros [ox [oy [oz [dx [dy [dz [Eo [Ex [Ey [Ez [Hx [Hy Hz]]]]]]]]]]]].
  unfold face_point, in_face. rewrite Eo, Ex, Ey, Ez.
  destruct (Hunit r) as [u [Eu Hu]]. destruct (Rndm r) as [u' r1]. cbn in Eu. subst u'.
  destruct (Hunit r1) as [v [Ev Hv]]. destruct (Rndm r1) as [v' r2]. cbn in Ev. subst v'.
  destruct f; cbn [fst xx yy zz]; (split; [reflexivity|]);
    split; apply spread_within; assumption.
Qed.
End DrawnOnFace.

Section ProbeIsBoundedMarch.
Context {G : Type} {M : TGeoManager G}.
Variable ion : Z -> Z -> Z.
Variable sfuel : nat.

(** The loop of [ComputeMaxPathLength], logging its segments, is the
    bounded march. *)
Lemma CMPL_loop_is_bounded_march d0 d1 d2 n :
  forall w : walk G probe_log,
    negb (FlagNotInYet w) || condition w = true ->
    outcome_map (fun w' => (w_geo w', w_acc w'))
                (CMPL_loop ion probe_log log_probe sfuel n d0 d1 d2 w)
    = bounded_march ion sfuel n (d0, d1, d2) (w_geo w) (w_cur w)
                    (FlagNotInYet w) (w_acc w).
Proof.
  induction n as [|n IH]; intros w Hguard; cbn [CMPL_loop bounded_march]; rewrite Hguard.
  - reflexivity.
  - unfold CMPL_body.
    destruct (GetCurrentVolume (locate (w_cur w) (w_geo w))) as [cur|].
    + destruct (IsOutside (locate (w_cur w) (w_geo w))).
      * destruct (FlagNotInYet w) eqn:Hf; [reflexivity|].
        destruct (next_boundary sfuel _) as [[g2 s]| |]; cbn [bind outcome_map];
          try reflexivity.
        rewrite IH by reflexivity. reflexivity.
      * destruct (GetMedium cur) as [med|].
        -- destruct (GetMaterial med) as [mat|].
           ++ destruct (next_boundary sfuel _) as [[g2 s]| |]; cbn [bind outcome_map];
                try reflexivity.
              rewrite IH by reflexivity. reflexivity.
           ++ cbn [bind]. destruct n; reflexivity.
        -- cbn [bind]. destruct n; reflexivity.
    + destruct (FlagNotInYet w) eqn:Hf; [reflexivity|].
      destruct (next_boundary sfuel _) as [[g2 s]| |]; cbn [bind outcome_map];
        try reflexivity.
      rewrite IH by reflexivity. reflexivity.
Qed.

Lemma CMPL_march_is_probe_march g xyz direction :
  outcome_map (fun w' => (w_geo w', w_acc w'))
              (CMPL_march ion probe_log log_probe sfuel g [] xyz direction)
  = probe_march ion sfuel g xyz direction.
Proof.
  unfold CMPL_march, probe_march. destruct direction as [[d0 d1] d2].
  now rewrite CMPL_loop_is_bounded_march.
Qed.

(** What a probe returns, by its march. *)
Lemma probe_by_march g xyz direction pdgc :
  ComputeMaxPathLength ion sfuel g xyz direction pdgc
  = outcome_map (fun r => (fst r, geometric_length pdgc (snd r)))
                (probe_march ion sfuel g xyz direction).
Proof.
  rewrite probe_length, <- CMPL_march_is_probe_march.
  destruct (CMPL_march ion probe_log log_probe sfuel g [] xyz direction);
    cbn [outcome_map fst snd]; try reflexivity.
  now rewrite plain_is_geometric.
Qed.

Lemma probe_march_capped g xyz direction g1 segments :
  probe_march ion sfuel g xyz direction = Ret (g1, segments) ->
  (List.length segments <= 100)%nat.
Proof.
  rewrite <- CMPL_march_is_probe_march.
  destruct (CMPL_march ion probe_log log_probe sfuel g [] xyz direction)
    as [wl| |] eqn:E; cbn [outcome_map]; intros H; try discriminate H.
  inversion H; subst. exact (probe_is_capped ion sfuel g xyz direction wl E).
Qed.
End ProbeIsBoundedMarch.

Section TrialMarches.
Context {G : Type} {M : TGeoManager G} {R : Type} {T : TRandom R}.
Variable ion : Z -> Z -> Z.
Variable sfuel : nat.
Variable pdgc : Z.

Lemma marched_app (a b : list trial) :
  forall g g1 g2,
    marched ion sfuel pdgc g a g1 -> marched ion sfuel pdgc g1 b g2 ->
    marched ion sfuel pdgc g (a ++ b) g2.
Proof.
  induction a as [|t a IH]; intros g g1 g2 Ha Hb; cbn [marched app] in *.
  - now subst g1.
  - destruct Ha as [g0 [seg [E [Hc [Hl Ha]]]]]. exists g0, seg.
    repeat split; try assumption. now apply (IH _ g1).
Qed.

(** One probe, as a march. *)
Lemma probe_is_a_march (f : face) g xyz direction g1 len :
  ComputeMaxPathLength ion sfuel g xyz direction pdgc = Ret (g1, len) ->
  marched ion sfuel pdgc g [(f, xyz, direction, len)] g1.
Proof.
  intros E. rewrite probe_by_march in E.
  destruct (probe_march ion sfuel g xyz direction) as [[g0 seg]| |] eqn:Em;
    cbn [outcome_map fst snd] in E; try discriminate E.
  inversion E; subst. cbn [marched]. exists g1, seg.
  split; [exact Em|]. split; [exact (probe_march_capped ion sfuel _ _ _ _ _ Em)|].
  split; reflexivity.
Qed.

Lemma ray_loop_marched f xyz n :
  forall g r ts g' r' ts',
    ray_loop ion (list trial) log_trial sfuel n f xyz pdgc g r ts = Ret (g', r', ts') ->
    exists b, ts' = ts ++ b /\ marched ion sfuel pdgc g b g'.
Proof.
  induction n as [|n IH]; intros g r ts g' r' ts' E; cbn [ray_loop] in E.
  - inversion E; subst. exists []. rewrite app_nil_r. split; reflexivity.
  - destruct (face_direction f r) as [d r1].
    bind_inv E. destruct r0 as [g1 len].
    destruct (IH _ _ _ _ _ _ E) as [b [Hb Hm]].
    exists ((f, xyz, normalise d, len) :: b). split.
    + rewrite Hb. unfold log_trial. now rewrite <- app_assoc.
    + apply (marched_app [(f, xyz, normalise d, len)] b g g1 g'); [|exact Hm].
      now apply probe_is_a_march.
Qed.

Lemma point_loop_marched rays f box n :
  forall g r ts g' r' ts',
    point_loop ion (list trial) log_trial sfuel n rays f box pdgc g r ts
    = Ret (g', r', ts') ->
    exists b, ts' = ts ++ b /\ marched ion sfuel pdgc g b g'.
Proof.
  induction n as [|n IH]; intros g r ts g' r' ts' E; cbn [point_loop] in E.
  - inversion E; subst. exists []. rewrite app_nil_r. split; reflexivity.
  - destruct (face_point f box r) as [xyz r1].
    bind_inv E. destruct r0 as [[g1 r2] ts1].
    destruct (ray_loop_marched _ _ _ _ _ _ _ _ _ E0) as [b1 [Hb1 Hm1]].
    destruct (IH _ _ _ _ _ _ E) as [b2 [Hb2 Hm2]].
    exists (b1 ++ b2). split.
    + rewrite Hb2, Hb1. now rewrite <- app_assoc.
    + now apply (marched_app b1 b2 g g1 g').
Qed.

Lemma face_loop_marched points rays box fs :
  forall g r ts g' r' ts',
    face_loop ion (list trial) log_trial sfuel points rays fs box pdgc g r ts
    = Ret (g', r', ts') ->
    exists b, ts' = ts ++ b /\ marched ion sfuel pdgc g b g'.
Proof.
  induction fs as [|f fs IH]; intros g r ts g' r' ts' E; cbn [face_loop] in E.
  - inversion E; subst. exists []. rewrite app_nil_r. split; reflexivity.
  - bind_inv E. destruct r0 as [[g1 r1] ts1].
    destruct (point_loop_marched _ _ _ _ _ _ _ _ _ _ E0) as [b1 [Hb1 Hm1]].
    destruct (IH _ _ _ _ _ _ E) as [b2 [Hb2 Hm2]].
    exists (b1 ++ b2). split.
    + rewrite Hb2, Hb1. now rewrite <- app_assoc.
    + now apply (marched_app b1 b2 g g1 g').
Qed.

(** The trials of a call are marches made one after the other. *)
Lemma trials_marched box g r g' r' ts :
  trials ion sfuel box pdgc g r = Ret (g', r', ts) ->
  marched ion sfuel pdgc g ts g'.
Proof.
  unfold trials. intros E.
  destruct (face_loop_marched _ _ _ _ _ _ _ _ _ _ E) as [b [Hb Hm]].
  cbn [app] in Hb. now subst b.
Qed.
End TrialMarches.

Section TrialsOfFaces.
Context {G : Type} {M : TGeoManager G} {R : Type} {T : TRandom R}.
Variable ion : Z -> Z -> Z.
Variable sfuel : nat.
Variable pdgc : Z.
Variable box : TGeoBBox.
Hypothesis Hends : stepping_ends M sfuel.
Hypothesis Hunit : draws_unit T.
Hypothesis Hbox : proper_box box.

Lemma point_loop_trials rays f n :
  forall g r ts,
    exists g' r' bs,
      point_loop ion (list trial) log_trial sfuel n rays f box pdgc g r ts
      = Ret (g', r', ts ++ List.concat bs)
      /\ face_trials box n rays f bs.
Proof.
  induction n as [|n IH]; intros g r ts; cbn [point_loop].
  - exists g, r, []. cbn. rewrite app_nil_r. repeat split. constructor.
  - pose proof (drawn_point_in_face Hunit f box r Hbox) as Hon.
    destruct (face_point f box r) as [xyz r1]. cbn [fst] in Hon.
    destruct (ray_loop_shape ion sfuel pdgc Hends (unit_draws_nonneg Hunit)
                f xyz rays g r1 ts) as [g1 [r2 [b [Hb [Hl Hok]]]]].
    rewrite Hb. cbn [bind].
    destruct (IH g1 r2 (ts ++ b)) as [g' [r' [bs [Hbs [Hn Hall]]]]].
    exists g', r', (b :: bs). split; [|split].
    + rewrite Hbs. cbn. now rewrite <- app_assoc.
    + cbn. now rewrite Hn.
    + constructor; [|exact Hall]. exists xyz. split; [exact Hon|].
      split; [exact Hl|].
      apply (Forall_impl _ (P := trial_ok ion sfuel pdgc f xyz)); [|exact Hok].
      intros t [H1 [H2 [H3 _]]]. repeat split; assumption.
Qed.

Lemma face_loop_trials points rays fs :
  forall g r ts,
    exists g' r' bss,
      face_loop ion (list trial) log_trial sfuel points rays fs box pdgc g r ts
      = Ret (g', r', ts ++ List.concat (map (@List.concat trial) bss))
      /\ Forall2 (face_trials box points rays) fs bss.
Proof.
  induction fs as [|f fs IH]; intros g r ts; cbn [face_loop].
  - exists g, r, []. cbn. rewrite app_nil_r. split; [reflexivity | constructor].
  - destruct (point_loop_trials rays f points g r ts) as [g1 [r1 [bs [Hbs Hblock]]]].
    rewrite Hbs. cbn [bind].
    destruct (IH g1 r1 (ts ++ List.concat bs)) as [g' [r' [bss [Hbss Hall]]]].
    exists g', r', (bs :: bss). split.
    + rewrite Hbss. cbn. now rewrite <- app_assoc.
    + constructor; assumption.
Qed.

Lemma face_trials_count points rays fs bss :
  Forall2 (face_trials box points rays) fs bss ->
  List.length (List.concat (map (@List.concat trial) bss))
  = (List.length fs * (points * rays))%nat.
Proof.
  intros H. induction H as [|f bs fs bss [Hn Hall] _ IH]; cbn.
  - reflexivity.
  - rewrite length_app, IH. f_equal. subst points.
    clear -Hall. induction Hall as [|b bs [xyz [_ [Hl _]]] _ IH]; cbn.
    + reflexivity.
    + rewrite length_app, IH, Hl. reflexivity.
Qed.
End TrialsOfFaces.

Section EstimateOfTrials.
Context {G : Type} {M : TGeoManager G} {R : Type} {T : TRandom R}.
Variable ion : Z -> Z -> Z.

(** C3, as the code has it. The estimate is a geometric path length, not
    a density-weighted one. What a probe returns is the sum of the steps of
    the segments of its bounded march that lie in a material whose own code
    is the target's; nothing of the material but that code enters it. On a
    call without error the trials are such marches, made one after the
    other, and the value [SetVtxMaterial] returns is the greatest of 0 and
    their lengths. *)
Theorem max_path_length_is_unweighted :
  (forall sfuel g XYZ direction pdgc,
      ComputeMaxPathLength ion sfuel g XYZ direction pdgc
      = outcome_map (fun r => (fst r, geometric_length pdgc (snd r)))
                    (probe_march ion sfuel g XYZ direction))
  /\ (forall sfuel a (r : R) pdgc g W g' r' ts,
         fGeometry a = Some g ->
         ExistsInPDGCodeList pdgc (fCurrPDGCodeList a) = true ->
         find_world (GetListOfVolumes g) = Some W ->
         trials ion sfuel (GetShape W) pdgc g r = Ret (g', r', ts) ->
         marched ion sfuel pdgc g ts g'
         /\ exists m,
             SetVtxMaterial ion sfuel a r pdgc
             = Ret (set_material a (Some g') pdgc, r', m)
             /\ greatest_length ts m).
Proof.
  split.
  - intros sfuel g XYZ direction pdgc. apply probe_by_march.
  - intros sfuel a r pdgc g W g' r' ts Hg Hex Hw Ht. split.
    + exact (trials_marched ion sfuel pdgc _ _ _ _ _ _ Ht).
    + exists (best ts). split; [|apply greatest_is_best].
      rewrite (SetVtxMaterial_best ion sfuel a r pdgc g W Hg Hex Hw), Ht.
      reflexivity.
Qed.

End EstimateOfTrials.

Lemma lcg_draws_unit : draws_unit Lcg.random.
Proof.
  intros s. cbn. unfold Lcg.draw. eexists. split; [reflexivity|].
  rewrite Qred_correct. unfold Qle. cbn [Qnum Qden inject_Z].
  pose proof (Z.mod_pos_bound (1103515245 * s + 12345) Lcg.modulus eq_refl) as H.
  unfold Lcg.next. unfold Lcg.modulus in *. split; lia.
Qed.

Lemma cube_is_proper (h : Z) : (0 <= h)%Z -> proper_box (Box.cube h).
Proof.
  intros Hh. exists 0%Q, 0%Q, 0%Q, (inject_Z h), (inject_Z h), (inject_Z h).
  repeat split; try reflexivity; unfold Qle; cbn; lia.
Qed.

Lemma max_path_length_is_unweighted_witness :
  let M := StepBox.manager dense_cube in
  exists a g' r' ts m,
    stepped dense_cube = Ret a
    /\ trials (T := Lcg.random) IonPdgCode 1 (GetShape dense_cube) (IonPdgCode 16 8)
              Box.start 1%Z = Ret (g', r', ts)
    /\ marched IonPdgCode 1 (IonPdgCode 16 8) Box.start ts g'
    /\ SetVtxMaterial (T := Lcg.random) IonPdgCode 1 a 1%Z (IonPdgCode 16 8)
       = Ret (set_material a (Some g') (IonPdgCode 16 8), r', m)
    /\ greatest_length ts m.
Proof.
  intros M.
  destruct (stepped dense_cube) as [a| |] eqn:Ea; try (vm_compute in Ea; discriminate Ea).
  assert (Hg : fGeometry a = Some Box.start)
    by (vm_compute in Ea; inversion Ea; reflexivity).
  assert (Hex : ExistsInPDGCodeList (IonPdgCode 16 8) (fCurrPDGCodeList a) = true)
    by (vm_compute in Ea; inversion Ea; reflexivity).
  destruct (face_loop_trials (M := M) (T := Lcg.random) IonPdgCode 1 (IonPdgCode 16 8)
              (GetShape dense_cube) (stepbox_stepping_ends dense_cube 0)
              lcg_draws_unit (cube_is_proper 10 ltac:(lia))
              maxPoints maxRays faces Box.start 1%Z [])
    as [g' [r' [bss [Ht _]]]].
  cbn [app] in Ht.
  destruct (max_path_length_is_unweighted (M := M) (T := Lcg.random) IonPdgCode)
    as [_ H].
  destruct (H 1%nat a 1%Z (IonPdgCode 16 8) Box.start dense_cube g' r' _ Hg Hex eq_refl Ht)
    as [Hm [m [Hs Hgr]]].
  exists a, g', r', (List.concat (map (@List.concat trial) bss)), m.
  split; [reflexivity|]. split; [exact Ht|].
  split; [exact Hm|]. split; [exact Hs | exact Hgr].
Defined.

(** C3, as stated, fails: through a cube of oxygen of density 2 the probe
    along the axis walks one segment of 20, whose density-weighted length is
    40, and returns 20. *)
Lemma probe_length_ignores_density :
  let M := Box.manager dense_cube in
  let XYZ := mkCursor (fz (-20)) (fz 0) (fz 0) in
  let direction := (fz 1, fz 0, fz 0) in
  exists wl,
    CMPL_march IonPdgCode probe_log log_probe 0 Box.start [] XYZ direction = Ret wl
    /\ w_acc wl = [(Box.pure 16 8 2, IonPdgCode 16 8, fz 20)]
    /\ dense_length (IonPdgCode 16 8) (w_acc wl) = fz 40
    /\ ComputeMaxPathLength IonPdgCode 0 Box.start XYZ direction (IonPdgCode 16 8)
       = Ret (w_geo wl, fz 20)
    /\ fz 20 <> fz 40.
Proof.
  intros M XYZ direction. eexists.
  split; [vm_compute; reflexivity|].
  split; [vm_compute; reflexivity|].
  split; [vm_compute; reflexivity|].
  split; [vm_compute; reflexivity | discriminate].
Qed.


(** * Properties of the event generation job *)

Lemma first_numbers_snoc (n : nat) :
  first_numbers (S n) = first_numbers n ++ [Z.of_nat n].
Proof.
  unfold first_numbers. rewrite seq_S, map_app. reflexivity.
Qed.

Section EventLoopFacts.
Context {D E I : Type} {J : JobDrivers D E I}.
Variable pot_reached : fp -> fp -> fp -> bool.
Variable o : options.

(** What a pass that does not fault has done. *)
Lemma loop_body_cases (j : job D E I) brk j' :
  loop_body pot_reached o j = Ret (brk, j') ->
  (ievent j' = ievent j /\ ntuple j' = ntuple j
   /\ (brk = true ->
       ievent j = gOptNev o
       \/ (gOptUsingHistFlux o = false
           /\ (fltb (fz 0) (gOptPOT o) = true \/ flux_End (j_drivers j') = true))))
  \/ (brk = false /\ ievent j <> gOptNev o /\ ievent j <> INT_MAX
      /\ ievent j' = ievent j + 1
      /\ exists ev,
          ntuple j' = ntuple j ++
                      [(ievent j, ev,
                        if gOptUsingHistFlux o then None
                        else Some (PassThroughInfo (j_drivers j')))]).
Proof.
  unfold loop_body. intros H.
  destruct (Z.eqb_spec (ievent j) (gOptNev o)) as [e|ne].
  { inversion H; subst. left. repeat split. intros _. now left. }
  destruct (fltb (fz 0) (gOptPOT o)) eqn:Epot.
  - destruct (gOptUsingHistFlux o) eqn:Eh; [discriminate H|]. cbn [bind] in H.
    destruct (pot_reached _ _ _).
    { inversion H; subst. left. repeat split. intros _. right. split; auto. }
    destruct (GenerateEvent (j_drivers j)) as [[ev|] d].
    + destruct (Z.eqb_spec (ievent j) INT_MAX) as [e|nm]; [discriminate H|].
      inversion H; subst. right. cbn [ievent ntuple j_drivers].
      repeat split; try assumption. exists ev. reflexivity.
    + destruct (flux_End d) eqn:Ee; inversion H; subst; left;
        cbn [ievent ntuple j_drivers]; repeat split; try discriminate.
      intros _. right. split; auto.
  - cbn [bind] in H.
    destruct (GenerateEvent (j_drivers j)) as [[ev|] d].
    + destruct (Z.eqb_spec (ievent j) INT_MAX) as [e|nm]; [discriminate H|].
      inversion H; subst. right. cbn [ievent ntuple j_drivers].
      repeat split; try assumption. exists ev. reflexivity.
    + destruct (gOptUsingHistFlux o) eqn:Eh; [discriminate H|].
      destruct (flux_End d) eqn:Ee; inversion H; subst; left;
        cbn [ievent ntuple j_drivers]; repeat split; try discriminate.
      intros _. right. split; auto.
Qed.

(** The records are numbered from 0 without a gap and [ievent] counts
    them; with a count asked for, [ievent] has not passed it; the
    pass-through info is there exactly when the flux is not from
    histograms. *)
Let tidy (j : job D E I) : Prop :=
  record_numbers (ntuple j) = first_numbers (List.length (ntuple j))
  /\ ievent j = Z.of_nat (List.length (ntuple j))
  /\ (0 <= gOptNev o -> ievent j <= gOptNev o)
  /\ (forall r, In r (ntuple j) ->
                (snd r = None <-> gOptUsingHistFlux o = true)).

Lemma loop_body_tidy (j : job D E I) brk j' :
  loop_body pot_reached o j = Ret (brk, j') -> tidy j -> tidy j'.
Proof.
  intros H [Hn [Hi [Hle Hinfo]]]. apply loop_body_cases in H.
  destruct H as [[Ei [En _]]|[_ [Hne [_ [Ei [ev En]]]]]]; unfold tidy.
  - rewrite Ei, En. repeat split; try assumption; now apply Hinfo.
  - rewrite Ei, En, length_app. cbn [List.length].
    rewrite Nat.add_1_r, first_numbers_snoc.
    unfold record_numbers in *. rewrite map_app, Hn. cbn [map fst snd].
    split; [now rewrite Hi|]. split; [lia|]. split; [lia|].
    intros r Hin. apply in_app_or in Hin. destruct Hin as [Hin|[Hin|[]]].
    + now apply Hinfo.
    + subst r. cbn [snd]. destruct (gOptUsingHistFlux o); split; congruence.
Qed.

Lemma event_loop_tidy fuel :
  forall (j j' : job D E I),
    event_loop pot_reached o fuel j = Ret j' -> tidy j -> tidy j'.
Proof.
  induction fuel as [|f IH]; intros j j' H Ht; cbn [event_loop] in H.
  - discriminate H.
  - bind_inv H. destruct r as [brk j1].
    pose proof (loop_body_tidy _ _ _ E0 Ht) as Ht1.
    destruct brk; [inversion H; subst; exact Ht1 | exact (IH _ _ H Ht1)].
Qed.

(** How the loop is left. *)
Lemma event_loop_exit fuel :
  forall (j j' : job D E I),
    event_loop pot_reached o fuel j = Ret j' ->
    ievent j' = gOptNev o
    \/ (gOptUsingHistFlux o = false
        /\ (fltb (fz 0) (gOptPOT o) = true \/ flux_End (j_drivers j') = true)).
Proof.
  induction fuel as [|f IH]; intros j j' H; cbn [event_loop] in H.
  - discriminate H.
  - bind_inv H. destruct r as [brk j1]. destruct brk; [|exact (IH _ _ H)].
    inversion H; subst j1. apply loop_body_cases in E0.
    destruct E0 as [[Ei [_ Hb]]|[Hb _]]; [|discriminate Hb].
    rewrite Ei. exact (Hb eq_refl).
Qed.

(** X15. The records the job writes are numbered 0, 1, 2, ... in the
    order they are written, and [ievent] is their number; when a count of
    events was asked for, no more records than that are written; and every
    record carries the pass-through info of the flux when the flux comes
    from an ntuple and none when it comes from histograms. *)
Theorem events_are_numbered_in_order (fuel : nat) (d : D) (j' : job D E I) :
  generate_events pot_reached o fuel d = Ret j' ->
  record_numbers (ntuple j') = first_numbers (List.length (ntuple j'))
  /\ ievent j' = Z.of_nat (List.length (ntuple j'))
  /\ (0 <= gOptNev o -> ievent j' <= gOptNev o)
  /\ (forall r, In r (ntuple j') ->
                (snd r = None <-> gOptUsingHistFlux o = true)).
Proof.
  intros H. apply (event_loop_tidy _ _ _ H).
  repeat split; cbn; try reflexivity; try lia; contradiction.
Qed.

Lemma first_pass_faults (j : job D E I) fuel :
  gOptUsingHistFlux o = true ->
  ievent j <> gOptNev o ->
  fltb (fz 0) (gOptPOT o) = true \/ fst (GenerateEvent (j_drivers j)) = None ->
  event_loop pot_reached o (S fuel) j = Fault.
Proof.
  intros Hh Hne Hc. cbn [event_loop]. unfold loop_body.
  destruct (Z.eqb_spec (ievent j) (gOptNev o)) as [e|_]; [contradiction|].
  rewrite Hh. destruct (fltb (fz 0) (gOptPOT o)); [reflexivity|].
  destruct Hc as [Hc|Hc]; [discriminate Hc|]. cbn [bind].
  destruct (GenerateEvent (j_drivers j)) as [[ev|] d]; [discriminate Hc|].
  reflexivity.
Qed.

(** X16. With the flux taken from histograms [numi_flux_driver] is a null
    pointer, and the loop uses it all the same: a pass that has not
    reached the count faults when an exposure in POT is set, and when the
    generator returns a null event. So such a job returns only through
    the count, and, unless the count is 0, only with no exposure in POT
    set. (The exposure checks do not exclude a POT exposure together with
    histograms, given a ROOT geometry.) *)
Theorem histogram_flux_job_uses_the_null_driver :
  gOptUsingHistFlux o = true ->
  (forall (j : job D E I) fuel,
      ievent j <> gOptNev o ->
      fltb (fz 0) (gOptPOT o) = true \/ fst (GenerateEvent (j_drivers j)) = None ->
      event_loop pot_reached o (S fuel) j = Fault)
  /\ (forall fuel d (j' : job D E I),
         generate_events pot_reached o fuel d = Ret j' ->
         ievent j' = gOptNev o
         /\ (gOptNev o = 0 \/ fltb (fz 0) (gOptPOT o) = false)).
Proof.
  intros Hh. split.
  - intros j fuel Hne Hc. now apply first_pass_faults.
  - intros fuel d j' H. split.
    + destruct (event_loop_exit _ _ _ H) as [e|[Hf _]]; [exact e | congruence].
    + destruct (Z.eq_dec (gOptNev o) 0) as [e|ne]; [now left|right].
      destruct (fltb (fz 0) (gOptPOT o)) eqn:Epot; [|reflexivity].
      destruct fuel as [|f]; [discriminate H|].
      unfold generate_events in H.
      rewrite (first_pass_faults (mkJob d 0 []) f Hh) in H;
        [discriminate H | cbn [ievent]; congruence | now left].
Qed.

Lemma event_loop_no_fault fuel :
  forall (j : job D E I),
    gOptUsingHistFlux o = false ->
    ievent j + Z.of_nat fuel <= INT_MAX ->
    0 <= ievent j ->
    event_loop pot_reached o fuel j <> Fault.
Proof.
  induction fuel as [|f IH]; intros j Hh Hb H0; cbn [event_loop].
  - discriminate.
  - destruct (loop_body pot_reached o j) as [[brk j1]| |] eqn:Eb; cbn [bind].
    + destruct brk; [discriminate|].
      apply loop_body_cases in Eb.
      destruct Eb as [[Ei _]|[_ [_ [_ [Ei _]]]]]; apply IH; auto; lia.
    + exfalso. unfold loop_body in Eb. rewrite Hh in Eb.
      destruct (ievent j =? gOptNev o); [discriminate Eb|].
      destruct (fltb (fz 0) (gOptPOT o)); cbn [bind] in Eb.
      * destruct (pot_reached _ _ _); [discriminate Eb|].
        destruct (GenerateEvent (j_drivers j)) as [[ev|] d].
        -- destruct (Z.eqb_spec (ievent j) INT_MAX) as [e|_]; [lia | discriminate Eb].
        -- destruct (flux_End d); discriminate Eb.
      * destruct (GenerateEvent (j_drivers j)) as [[ev|] d].
        -- destruct (Z.eqb_spec (ievent j) INT_MAX) as [e|_]; [lia | discriminate Eb].
        -- destruct (flux_End d); discriminate Eb.
    + discriminate.
Qed.

(** X17. With the flux taken from an ntuple the job has no fault within
    [INT_MAX] passes; and when the exposure checks have accepted a count of
    events, no exposure in POT is in force, so the job returns only having
    written that many records or, with fewer written, at the end of the
    flux ntuple. *)
Theorem ntuple_flux_job_stops_at_count_or_flux_end :
  gOptUsingHistFlux o = false ->
  (forall fuel d,
      Z.of_nat fuel <= INT_MAX ->
      generate_events (D := D) (E := E) (I := I) pot_reached o fuel d <> Fault)
  /\ (exposure_accepted o = true -> 0 < gOptNev o ->
      fltb (fz 0) (gOptPOT o) = false
      /\ forall fuel d (j' : job D E I),
          generate_events pot_reached o fuel d = Ret j' ->
          (List.length (ntuple j') = Z.to_nat (gOptNev o)
           \/ ((List.length (ntuple j') < Z.to_nat (gOptNev o))%nat
               /\ flux_End (j_drivers j') = true))).
Proof.
  intros Hh. split.
  - intros fuel d Hb. apply event_loop_no_fault; cbn [ievent]; auto; lia.
  - intros Hacc Hn.
    assert (Hpot : fltb (fz 0) (gOptPOT o) = false).
    { unfold exposure_accepted in Hacc. rewrite Hh in Hacc. cbn [negb andb] in Hacc.
      destruct (fltb (fz 0) (gOptPOT o)); [|reflexivity].
      destruct (Z.ltb_spec 0 (gOptNev o)); [|lia]. cbn in Hacc. discriminate Hacc. }
    split; [exact Hpot|]. intros fuel d j' H.
    destruct (event_loop_tidy _ _ _ H) as [_ [Hi [Hle _]]].
    { repeat split; cbn; try reflexivity; try lia; contradiction. }
    assert (Hle' : ievent j' <= gOptNev o) by (apply Hle; lia).
    destruct (event_loop_exit _ _ _ H) as [e|[_ [Hp|He]]].
    + left. lia.
    + congruence.
    + destruct (Z.eq_dec (ievent j') (gOptNev o)); [left; lia | right; split; [lia | exact He]].
Qed.

Lemma event_loop_reaches_count (n : nat) :
  forall (j : job D E I) fuel,
    fltb (fz 0) (gOptPOT o) = false ->
    (forall d, fst (GenerateEvent d) <> None) ->
    gOptNev o <= INT_MAX ->
    ievent j + Z.of_nat n = gOptNev o ->
    (n < fuel)%nat ->
    exists j', event_loop pot_reached o fuel j = Ret j' /\ ievent j' = gOptNev o.
Proof.
  induction n as [|n IH]; intros j fuel Hpot Hev Hmax Hn Hf;
    (destruct fuel as [|f]; [lia|]); cbn [event_loop]; unfold loop_body.
  - destruct (Z.eqb_spec (ievent j) (gOptNev o)) as [e|ne]; [|lia].
    cbn [bind]. exists j. split; [reflexivity | exact e].
  - destruct (Z.eqb_spec (ievent j) (gOptNev o)) as [e|ne]; [lia|].
    rewrite Hpot. cbn [bind].
    destruct (GenerateEvent (j_drivers j)) as [[ev|] d] eqn:Eg.
    + destruct (Z.eqb_spec (ievent j) INT_MAX) as [e|nm]; [lia|]. cbn [bind].
      apply IH; auto; cbn [ievent]; lia.
    + exfalso. apply (Hev (j_drivers j)). now rewrite Eg.
Qed.

(** X18. With no exposure in POT set and a generator that never returns
    a null event, the job asked for a count of events returns, with either
    kind of flux, as soon as it is allowed one pass more than the count,
    having written exactly that many records, numbered from 0. *)
Theorem job_writes_the_events_asked_for (fuel : nat) (d : D) :
  fltb (fz 0) (gOptPOT o) = false ->
  (forall d, fst (GenerateEvent d) <> None) ->
  0 <= gOptNev o <= INT_MAX ->
  (Z.to_nat (gOptNev o) < fuel)%nat ->
  exists j' : job D E I,
    generate_events pot_reached o fuel d = Ret j'
    /\ ievent j' = gOptNev o
    /\ record_numbers (ntuple j') = first_numbers (Z.to_nat (gOptNev o)).
Proof.
  intros Hpot Hev [H0 Hmax] Hf.
  destruct (event_loop_reaches_count (Z.to_nat (gOptNev o)) (mkJob d 0 []) fuel
              Hpot Hev Hmax) as [j' [H Hi]]; [cbn [ievent]; lia | exact Hf |].
  exists j'. split; [exact H|]. split; [exact Hi|].
  destruct (event_loop_tidy _ _ _ H) as [Hn [Hc _]].
  { repeat split; cbn; try reflexivity; try lia; contradiction. }
  rewrite Hn. f_equal. lia.
Qed.
End EventLoopFacts.

Lemma events_are_numbered_in_order_witness :
  let o := mkOptions false false 2 (fz (-1)) in
  exists j',
    generate_events (J := Countdown.drivers) fp_pot_reached o 5 3%nat = Ret j'
    /\ record_numbers (ntuple j') = first_numbers (List.length (ntuple j'))
    /\ ievent j' = 2.
Proof.
  intros o.
  destruct (generate_events (J := Countdown.drivers) fp_pot_reached o 5 3%nat)
    as [j'| |] eqn:E; try (vm_compute in E; discriminate E).
  exists j'. split; [reflexivity|].
  split.
  - exact (proj1 (events_are_numbered_in_order (J := Countdown.drivers)
                    fp_pot_reached o 5 3%nat j' E)).
  - vm_compute in E. inversion E. reflexivity.
Defined.

Lemma histogram_flux_job_uses_the_null_driver_witness :
  let o := mkOptions true true 10 (fz 5) in
  exposure_accepted o = true
  /\ generate_events (J := Countdown.drivers) fp_pot_reached o 1 3%nat = Fault.
Proof.
  intros o. split; [reflexivity|].
  apply (proj1 (histogram_flux_job_uses_the_null_driver (J := Countdown.drivers)
                  fp_pot_reached o eq_refl)).
  - cbn. discriminate.
  - left. reflexivity.
Defined.

Lemma ntuple_flux_job_stops_at_count_or_flux_end_witness :
  let o := mkOptions true false 5 (fz (-1)) in
  exposure_accepted o = true
  /\ exists j',
      generate_events (J := Countdown.drivers) fp_pot_reached o 9 3%nat = Ret j'
      /\ List.length (ntuple j') = 3%nat
      /\ flux_End (JobDrivers := Countdown.drivers) (j_drivers j') = true.
Proof.
  intros o. split; [reflexivity|].
  destruct (ntuple_flux_job_stops_at_count_or_flux_end (J := Countdown.drivers)
              fp_pot_reached o eq_refl) as [_ H].
  destruct (H eq_refl eq_refl) as [_ Hret].
  destruct (generate_events (J := Countdown.drivers) fp_pot_reached o 9 3%nat)
    as [j'| |] eqn:E; try (vm_compute in E; discriminate E).
  exists j'. split; [reflexivity|].
  destruct (Hret 9%nat 3%nat j' E) as [Hl|[Hl He]].
  - exfalso. vm_compute in E. inversion E; subst j'. vm_compute in Hl. discriminate Hl.
  - split; [|exact He]. vm_compute in E. inversion E. reflexivity.
Defined.

Lemma job_writes_the_events_asked_for_witness :
  let o := mkOptions false true 3 (fz (-1)) in
  exposure_accepted o = true
  /\ exists j',
      generate_events (J := Steady.drivers) fp_pot_reached o 4 0%nat = Ret j'
      /\ ievent j' = 3
      /\ record_numbers (ntuple j') = [0; 1; 2].
Proof.
  intros o. split; [reflexivity|].
  destruct (job_writes_the_events_asked_for (J := Steady.drivers) fp_pot_reached o
              4 0%nat) as [j' [H [Hi Hn]]].
  - reflexivity.
  - intros d. cbn. discriminate.
  - unfold INT_MAX. cbn. lia.
  - cbn. lia.
  - exists j'. split; [exact H|]. split; [exact Hi | exact Hn].
Defined.
